(** * Djit+ vector-clock analyzers: embedding and verified properties

    Two analyzers live in the repository:

    - [Fixed]: the model-level [Analyzer<NThread>] of [fixed.hpp], whose
      vector clocks are [std::array<int, N>];
    - [Pintool]: the Pin tool [VectorClock.cpp], whose vector clocks are
      sparse [std::map<THREADID, int>] and whose state is a set of globals.

    C++ [int] values are kept as [Z].  Behaviour the C++ standard leaves
    undefined (indexing a [std::array] out of range, overflowing a signed
    [int], dereferencing an [end()] iterator) is made explicit: every
    operation returns a [result], and hitting undefined behaviour yields
    [Err] with the kind of fault. *)

From stdpp Require Import base numbers option list gmap strings sorting.

Open Scope Z_scope.

(** ** Faults and the result monad *)

Inductive fault : Set :=
  | OutOfBounds      (* std::array::operator[] outside [0, N) *)
  | SignedOverflow   (* ++ on an int holding INT_MAX *)
  | DerefEnd         (* it->second with it == end() *)
  | OutOfRange.      (* std::out_of_range thrown by std::map::at / std::array::at *)

Inductive result (A : Type) : Type :=
  | Ok (a : A)
  | Err (e : fault).
Arguments Ok {A} a.
Arguments Err {A} e.

#[global] Instance fault_eq_dec : EqDecision fault.
Proof. solve_decision. Defined.

#[global] Instance result_ret : MRet result := @Ok.
#[global] Instance result_bind : MBind result := λ A B f r,
  match r with
  | Ok a => f a
  | Err e => Err e
  end.

Definition INT_MAX : Z := 2147483647.
Definition INT_MIN : Z := -2147483648.

(** The values of an [int]. *)
Definition is_int (v : Z) : Prop := INT_MIN ≤ v ≤ INT_MAX.

(** [++v] on an [int]. *)
Definition incr_int (v : Z) : result Z :=
  if decide (v < INT_MAX) then Ok (v + 1) else Err SignedOverflow.

(** Conversion of an [int] index to [size_t] (64-bit), as performed when an
    [int] is passed to [operator[](size_t)]. *)
Definition to_size_t (t : Z) : N := Z.to_N (t `mod` 2 ^ 64).

(** ** The fixed-size analyzer ([fixed.hpp])

    [Analyzer<NThread>] with [FixedVectorClock<N>] clocks. *)

Module Fixed.

(** [struct Variable { std::string name; }] and [struct Lock].  Both are
    ordered by [name] alone, so the maps below are keyed by the name. *)
Record Variable_ : Set := { var_name : string }.
Record Lock : Set := { lock_name : string }.

#[global] Instance Variable_eq_dec : EqDecision Variable_.
Proof. solve_decision. Defined.
#[global] Instance Lock_eq_dec : EqDecision Lock.
Proof. solve_decision. Defined.

(** [FixedVectorClock<N>]: the [clocks] array. *)
Abbreviation FixedVectorClock := (list Z).

(** [operator[](size_t i)] of [std::array]: no bounds check. *)
Definition index {A} (arr : list A) (i : N) : result A :=
  if decide (i < N.of_nat (length arr))%N then
    match arr !! N.to_nat i with
    | Some v => Ok v
    | None => Err OutOfBounds
    end
  else Err OutOfBounds.

(** [arr[i] = v]. *)
Definition assign {A} (arr : list A) (i : N) (v : A) : result (list A) :=
  if decide (i < N.of_nat (length arr))%N then Ok (<[N.to_nat i := v]> arr)
  else Err OutOfBounds.

(** Calls made to the violation handlers, in order. *)
Inductive Callback : Set :=
  | ReadViolated (t : Z) (x : Variable_)
  | WriteViolated (t : Z) (x : Variable_).

#[global] Instance Callback_eq_dec : EqDecision Callback.
Proof. solve_decision. Defined.

(** The private members of [Analyzer<NThread>].  A [ViolationHandler] is a
    [std::function]; the analyzer only tests whether it holds a target and
    calls it, so the model keeps that one bit and records the calls. *)
Record Analyzer : Type := mkAnalyzer {
  thread_vc_ : list FixedVectorClock;
  read_vc_ : gmap string FixedVectorClock;
  write_vc_ : gmap string FixedVectorClock;
  lock_vc_ : gmap string FixedVectorClock;
  variables_ : list Variable_;
  locks_ : list Lock;
  on_read_violated_ : bool;
  on_write_violated_ : bool
}.

Definition set_thread_vc_ (v : list FixedVectorClock) (a : Analyzer) : Analyzer :=
  mkAnalyzer v (read_vc_ a) (write_vc_ a) (lock_vc_ a)
             (variables_ a) (locks_ a) (on_read_violated_ a) (on_write_violated_ a).
Definition set_read_vc_ (v : gmap string FixedVectorClock) (a : Analyzer) : Analyzer :=
  mkAnalyzer (thread_vc_ a) v (write_vc_ a) (lock_vc_ a)
             (variables_ a) (locks_ a) (on_read_violated_ a) (on_write_violated_ a).
Definition set_write_vc_ (v : gmap string FixedVectorClock) (a : Analyzer) : Analyzer :=
  mkAnalyzer (thread_vc_ a) (read_vc_ a) v (lock_vc_ a)
             (variables_ a) (locks_ a) (on_read_violated_ a) (on_write_violated_ a).
Definition set_lock_vc_ (v : gmap string FixedVectorClock) (a : Analyzer) : Analyzer :=
  mkAnalyzer (thread_vc_ a) (read_vc_ a) (write_vc_ a) v
             (variables_ a) (locks_ a) (on_read_violated_ a) (on_write_violated_ a).
Definition set_variables_ (v : list Variable_) (a : Analyzer) : Analyzer :=
  mkAnalyzer (thread_vc_ a) (read_vc_ a) (write_vc_ a) (lock_vc_ a)
             v (locks_ a) (on_read_violated_ a) (on_write_violated_ a).
Definition set_locks_ (v : list Lock) (a : Analyzer) : Analyzer :=
  mkAnalyzer (thread_vc_ a) (read_vc_ a) (write_vc_ a) (lock_vc_ a)
             (variables_ a) v (on_read_violated_ a) (on_write_violated_ a).

Section WithNThread.

(** The template parameter. *)
Context (NThread : nat).

(** [FixedVectorClock<N>{}]: value-initialised, all zero. *)
Definition zero : FixedVectorClock := replicate NThread 0.

(** [operator |=]: [for (i = 0; i < N; ++i) lhs[i] = max(lhs[i], rhs[i])].
    [n] counts the iterations left. *)
Fixpoint join_loop (lhs rhs : FixedVectorClock) (i : N) (n : nat) :
    result FixedVectorClock :=
  match n with
  | O => Ok lhs
  | S n' =>
      l ← index lhs i;
      r ← index rhs i;
      lhs' ← assign lhs i (Z.max l r);
      join_loop lhs' rhs (N.succ i) n'
  end.

Definition vc_join (lhs rhs : FixedVectorClock) : result FixedVectorClock :=
  join_loop lhs rhs 0 NThread.

(** [operator <=]: [for (int i = 0; i < N; ++i) if (lhs[i] > rhs[i]) return
    false; return true].  The counter is an [int] compared with the [size_t]
    [N]; [i] here is the index it converts to.  Up to [N = INT_MAX] the [++i]
    stays in range and the two agree; an [Analyzer<N>] has no instance beyond
    that (its [thread_vc_] alone takes [4 * N * N] bytes), and what is proved
    of [operator <=] on clocks outside an analyzer assumes [N ≤ INT_MAX]. *)
Fixpoint le_loop (lhs rhs : FixedVectorClock) (i : N) (n : nat) : result bool :=
  match n with
  | O => Ok true
  | S n' =>
      l ← index lhs i;
      r ← index rhs i;
      if decide (r < l) then Ok false else le_loop lhs rhs (N.succ i) n'
  end.

Definition vc_le (lhs rhs : FixedVectorClock) : result bool :=
  le_loop lhs rhs 0 NThread.

(** [operator >] is [!(lhs <= rhs)]. *)
Definition vc_gt (lhs rhs : FixedVectorClock) : result bool :=
  b ← vc_le lhs rhs; Ok (negb b).

(** [std::map::operator[]]: the mapped clock, value-initialised when the key
    is absent.  Callers store the clock back under the key, which inserts
    the entry exactly when [operator[]] would have. *)
Definition subscript (m : gmap string FixedVectorClock) (k : string) : FixedVectorClock :=
  default zero (m !! k).

(** [std::map::emplace]: no effect when the key is present. *)
Definition emplace (k : string) (v : FixedVectorClock)
    (m : gmap string FixedVectorClock) : gmap string FixedVectorClock :=
  match m !! k with
  | Some _ => m
  | None => <[k := v]> m
  end.

(** The constructor: all members value-initialised, then
    [thread_vc_[i][i] = 1] for every [i < NThread]. *)
Definition Analyzer_new : Analyzer :=
  mkAnalyzer ((λ i, <[i := 1]> zero) <$> seq 0 NThread) ∅ ∅ ∅ [] [] false false.

Definition Read (t : Z) (x : Variable_) (a : Analyzer) : result (Analyzer * list Callback) :=
  let i := to_size_t t in
  (* read_vc_[x][t] = thread_vc_[t][t]; *)
  ct ← index (thread_vc_ a) i;
  c ← index ct i;
  rx ← assign (subscript (read_vc_ a) (var_name x)) i c;
  let a := set_read_vc_ (<[var_name x := rx]> (read_vc_ a)) a in
  (* if (write_vc_[x] > thread_vc_[t]) *)
  let wx := subscript (write_vc_ a) (var_name x) in
  let a := set_write_vc_ (<[var_name x := wx]> (write_vc_ a)) a in
  ct ← index (thread_vc_ a) i;
  v ← vc_gt wx ct;
  Ok (a, if v && on_read_violated_ a then [ReadViolated t x] else []).

Definition Write (t : Z) (x : Variable_) (a : Analyzer) : result (Analyzer * list Callback) :=
  let i := to_size_t t in
  (* write_vc_[x][t] = thread_vc_[t][t]; *)
  ct ← index (thread_vc_ a) i;
  c ← index ct i;
  wx ← assign (subscript (write_vc_ a) (var_name x)) i c;
  let a := set_write_vc_ (<[var_name x := wx]> (write_vc_ a)) a in
  (* if (write_vc_[x] > thread_vc_[t] || read_vc_[x] > thread_vc_[t]) *)
  ct ← index (thread_vc_ a) i;
  v ← vc_gt wx ct;
  if (v : bool) then Ok (a, if on_write_violated_ a then [WriteViolated t x] else [])
  else
    let rx := subscript (read_vc_ a) (var_name x) in
    let a := set_read_vc_ (<[var_name x := rx]> (read_vc_ a)) a in
    ct ← index (thread_vc_ a) i;
    v ← vc_gt rx ct;
    Ok (a, if v && on_write_violated_ a then [WriteViolated t x] else []).

Definition Acquire (t : Z) (m : Lock) (a : Analyzer) : result (Analyzer * list Callback) :=
  let i := to_size_t t in
  (* thread_vc_[t] |= lock_vc_[m]; *)
  let lm := subscript (lock_vc_ a) (lock_name m) in
  let a := set_lock_vc_ (<[lock_name m := lm]> (lock_vc_ a)) a in
  ct ← index (thread_vc_ a) i;
  ct ← vc_join ct lm;
  tv ← assign (thread_vc_ a) i ct;
  Ok (set_thread_vc_ tv a, []).

Definition Release (t : Z) (m : Lock) (a : Analyzer) : result (Analyzer * list Callback) :=
  let i := to_size_t t in
  (* ++thread_vc_[t][t]; *)
  ct ← index (thread_vc_ a) i;
  c ← index ct i;
  c ← incr_int c;
  ct ← assign ct i c;
  tv ← assign (thread_vc_ a) i ct;
  let a := set_thread_vc_ tv a in
  (* lock_vc_[m] = thread_vc_[t]; *)
  ct ← index (thread_vc_ a) i;
  Ok (set_lock_vc_ (<[lock_name m := ct]> (lock_vc_ a)) a, []).

(** [Register(const Variable&)] *)
Definition RegisterVariable (x : Variable_) (a : Analyzer) : Analyzer :=
  let a := set_variables_ (variables_ a ++ [x]) a in
  let a := set_read_vc_ (emplace (var_name x) zero (read_vc_ a)) a in
  set_write_vc_ (emplace (var_name x) zero (write_vc_ a)) a.

(** [Register(const Lock&)] *)
Definition RegisterLock (m : Lock) (a : Analyzer) : Analyzer :=
  let a := set_locks_ (locks_ a ++ [m]) a in
  set_lock_vc_ (emplace (lock_name m) zero (lock_vc_ a)) a.

Definition GetVariables (a : Analyzer) : list Variable_ := variables_ a.
Definition GetLocks (a : Analyzer) : list Lock := locks_ a.

(** The [Get...VC] accessors use [at], which throws [std::out_of_range]. *)
Definition at_ {A} (o : option A) : result A :=
  match o with
  | Some v => Ok v
  | None => Err OutOfRange
  end.

Definition GetThreadVC (t : Z) (a : Analyzer) : result FixedVectorClock :=
  let i := to_size_t t in
  if decide (i < N.of_nat (length (thread_vc_ a)))%N
  then at_ (thread_vc_ a !! N.to_nat i) else Err OutOfRange.
Definition GetReadVC (x : Variable_) (a : Analyzer) : result FixedVectorClock :=
  at_ (read_vc_ a !! var_name x).
Definition GetWriteVC (x : Variable_) (a : Analyzer) : result FixedVectorClock :=
  at_ (write_vc_ a !! var_name x).
Definition GetLockVC (m : Lock) (a : Analyzer) : result FixedVectorClock :=
  at_ (lock_vc_ a !! lock_name m).

Definition SetReadViolationHandler (f : bool) (a : Analyzer) : Analyzer :=
  mkAnalyzer (thread_vc_ a) (read_vc_ a) (write_vc_ a) (lock_vc_ a)
             (variables_ a) (locks_ a) f (on_write_violated_ a).
Definition SetWriteViolationHandler (f : bool) (a : Analyzer) : Analyzer :=
  mkAnalyzer (thread_vc_ a) (read_vc_ a) (write_vc_ a) (lock_vc_ a)
             (variables_ a) (locks_ a) (on_read_violated_ a) f.

(** *** Event sequences *)

Inductive Event : Set :=
  | rd (t : Z) (x : Variable_)
  | wr (t : Z) (x : Variable_)
  | acq (t : Z) (m : Lock)
  | rel (t : Z) (m : Lock)
  | reg_var (x : Variable_)
  | reg_lock (m : Lock)
  | set_rd_handler (f : bool)
  | set_wr_handler (f : bool).

Definition step (e : Event) (a : Analyzer) : result (Analyzer * list Callback) :=
  match e with
  | rd t x => Read t x a
  | wr t x => Write t x a
  | acq t m => Acquire t m a
  | rel t m => Release t m a
  | reg_var x => Ok (RegisterVariable x a, [])
  | reg_lock m => Ok (RegisterLock m a, [])
  | set_rd_handler f => Ok (SetReadViolationHandler f a, [])
  | set_wr_handler f => Ok (SetWriteViolationHandler f a, [])
  end.

(** Chained calls [a.e1.e2...]; the handler calls are collected in order. *)
Fixpoint run (es : list Event) (a : Analyzer) : result (Analyzer * list Callback) :=
  match es with
  | [] => Ok (a, [])
  | e :: es' =>
      '(a1, cb1) ← step e a;
      '(a2, cb2) ← run es' a1;
      Ok (a2, cb1 ++ cb2)
  end.

(** States the analyzer can be in: the constructed one and every state a
    call returns to (a call that hits undefined behaviour returns to none). *)
Inductive reachable : Analyzer → Prop :=
  | reachable_new : reachable Analyzer_new
  | reachable_step e a a' cb :
      reachable a → step e a = Ok (a', cb) → reachable a'.

(** *** Notions used to state the properties *)

(** [lhs <= rhs] as a pointwise comparison. *)
Definition vc_leb (lhs rhs : FixedVectorClock) : bool :=
  bool_decide (Forall2 Z.le lhs rhs).

(** [C[u][u]], the own component of thread [u]'s clock. *)
Definition clock (a : Analyzer) (u : nat) : Z :=
  default 0 (thread_vc_ a !! u ≫= (.!! u)).

(** [L[m][t]], where a lock without an entry stands for the zero clock that
    [lock_vc_[m]] would create. *)
Definition lock_time (a : Analyzer) (m : Lock) (u : nat) : Z :=
  default 0 (subscript (lock_vc_ a) (lock_name m) !! u).

(** No component of [vc] is ahead of the owning thread's own component. *)
Definition dominated (a : Analyzer) (vc : FixedVectorClock) : Prop :=
  ∀ u v, vc !! u = Some v → v ≤ clock a u.

Definition good (a : Analyzer) (vc : FixedVectorClock) : Prop :=
  length vc = NThread ∧ dominated a vc.

Record Inv (a : Analyzer) : Prop := {
  inv_threads : length (thread_vc_ a) = NThread;
  inv_thread_vc : ∀ u cu, thread_vc_ a !! u = Some cu → good a cu;
  inv_own : ∀ u, (u < NThread)%nat → 1 ≤ clock a u;
  inv_read : ∀ k vc, read_vc_ a !! k = Some vc → good a vc;
  inv_write : ∀ k vc, write_vc_ a !! k = Some vc → good a vc;
  inv_lock : ∀ k vc, lock_vc_ a !! k = Some vc → good a vc;
  inv_variables : ∀ x, x ∈ variables_ a →
    is_Some (read_vc_ a !! var_name x) ∧ is_Some (write_vc_ a !! var_name x);
  inv_locks : ∀ m, m ∈ locks_ a → is_Some (lock_vc_ a !! lock_name m)
}.

End WithNThread.

(** *** The model of [main.cpp]

    Two threads, one variable [x], one lock [m], both handlers installed. *)

Definition kNumThread : nat := 2.
Definition x : Variable_ := {| var_name := "x" |}.
Definition m : Lock := {| lock_name := "m" |}.

(** The analyzer of [main] just before the first event. *)
Definition main_analyzer : Analyzer :=
  RegisterLock kNumThread m
    (RegisterVariable kNumThread x
       (SetWriteViolationHandler true
          (SetReadViolationHandler true (Analyzer_new kNumThread)))).

(** The events of [main] under [PROTECT_BY_LOCK]. *)
Definition protected_events : list Event :=
  [acq 0 m; rd 0 x; wr 0 x; rel 0 m; acq 1 m; rd 1 x; wr 1 x; rel 1 m].

(** The events of [main] without [PROTECT_BY_LOCK]. *)
Definition unprotected_events : list Event :=
  [rd 0 x; rd 1 x; wr 0 x; wr 1 x].

(** The analyzer once thread 1 has written [x] with no synchronisation. *)
Definition after_foreign_write : Analyzer :=
  match Write kNumThread 1 x main_analyzer with
  | Ok (a, _) => a
  | Err _ => main_analyzer
  end.


(** *** The rest of [fixed.hpp] and the printing of [main.cpp] *)

Section Printing.
Context (NThread : nat).

(** [operator |]: [auto merged = lhs; merged |= rhs; return merged;] *)
Definition vc_or (lhs rhs : FixedVectorClock) : result FixedVectorClock :=
  let merged := lhs in
  vc_join NThread merged rhs.

(** A [for (int t = first; t < NThread; ++t)] loop that collects what its
    body prints; [n] counts the iterations left, and the [++t] after each of
    them is the increment of an [int]. *)
Fixpoint for_int {A} (body : Z → result A) (t : Z) (n : nat) : result (list A) :=
  match n with
  | O => Ok []
  | S n' =>
      r ← body t;
      t' ← incr_int t;
      rs ← for_int body t' n';
      Ok (r :: rs)
  end.

(** [PrintVC]: ["<" vc[0] "," vc[1] ... ">"], kept as the numbers printed. *)
Definition PrintVC (vc : FixedVectorClock) : result (list Z) :=
  v ← index vc 0;
  vs ← for_int (λ i, index vc (to_size_t i)) 1 (NThread - 1);
  Ok (v :: vs).

(** The column titles of [PrintHeader]. *)
Inductive Column : Set :=
  | ColC (t : Z)
  | ColR (name : string)
  | ColW (name : string)
  | ColL (name : string).

(** [PrintHeader]: ["C0"], then ["C" t] for the other threads, ["R" x "W" x]
    for every variable and ["L" m] for every lock. *)
Definition PrintHeader (a : Analyzer) : result (list Column) :=
  cs ← for_int (λ t, Ok (ColC t)) 1 (NThread - 1);
  Ok (ColC 0 :: cs
        ++ (GetVariables a ≫= λ x, [ColR (var_name x); ColW (var_name x)])
        ++ ((λ m, ColL (lock_name m)) <$> GetLocks a)).

(** Range-for over a vector with a body that can throw. *)
Fixpoint for_each {A B} (body : A → result (list B)) (l : list A) : result (list B) :=
  match l with
  | [] => Ok []
  | x :: l' =>
      r ← body x;
      rs ← for_each body l';
      Ok (r ++ rs)
  end.

(** [PrintVCs]: one printed clock per column of the header. *)
Definition PrintVCs (a : Analyzer) : result (list (list Z)) :=
  c0 ← GetThreadVC 0 a ≫= PrintVC;
  cs ← for_int (λ t, GetThreadVC t a ≫= PrintVC) 1 (NThread - 1);
  xs ← for_each (λ x,
          r ← GetReadVC x a ≫= PrintVC;
          w ← GetWriteVC x a ≫= PrintVC;
          Ok [r; w]) (GetVariables a);
  ms ← for_each (λ m, l ← GetLockVC m a ≫= PrintVC; Ok [l]) (GetLocks a);
  Ok (c0 :: cs ++ xs ++ ms).

(** Every component of a clock is an [int] that never went negative. *)
Definition in_range (vc : FixedVectorClock) : Prop :=
  Forall (λ v, 0 ≤ v ≤ INT_MAX) vc.

Record Bounded (a : Analyzer) : Prop := {
  bounded_thread : ∀ u cu, thread_vc_ a !! u = Some cu → in_range cu;
  bounded_read : ∀ k vc, read_vc_ a !! k = Some vc → in_range vc;
  bounded_write : ∀ k vc, write_vc_ a !! k = Some vc → in_range vc;
  bounded_lock : ∀ k vc, lock_vc_ a !! k = Some vc → in_range vc;
  bounded_pairs : ∀ k, is_Some (read_vc_ a !! k) ↔ is_Some (write_vc_ a !! k)
}.

(** The thread an event acts as; registrations and handler changes act as
    none. *)
Definition event_thread (e : Event) : option Z :=
  match e with
  | rd t _ | wr t _ | acq t _ | rel t _ => Some t
  | _ => None
  end.

(** A clock whose components other than [i] are all zero. *)
Definition only_component (i : nat) (vc : FixedVectorClock) : Prop :=
  ∀ u v, u ≠ i → vc !! u = Some v → v = 0.

(** Only thread [i] has left a mark: every other component of every read,
    write and lock clock is zero, and thread [i] knows nothing of others. *)
Definition only_thread (i : nat) (a : Analyzer) : Prop :=
  ∀ vc, (thread_vc_ a !! i = Some vc ∨
         (∃ k, read_vc_ a !! k = Some vc) ∨
         (∃ k, write_vc_ a !! k = Some vc) ∨
         (∃ k, lock_vc_ a !! k = Some vc)) →
        only_component i vc.

End Printing.

(** *** More states of the [main.cpp] analyzer *)

(** The state a run leaves ([a] itself when the run breaks off). *)
Definition state_after (es : list Event) (a : Analyzer) : Analyzer :=
  match run kNumThread es a with
  | Ok (a', _) => a'
  | Err _ => a
  end.

(** Thread 0 releases [m], thread 1 acquires it, then thread 0 writes [x]. *)
Definition released_by_0 : Analyzer := state_after [rel 0 m] main_analyzer.
Definition acquired_by_1 : Analyzer := state_after [acq 1 m] released_by_0.
Definition written_by_0 : Analyzer := state_after [wr 0 x] acquired_by_1.

(** Thread 0 writes [x] and then releases [m]. *)
Definition written_and_released_by_0 : Analyzer :=
  state_after [wr 0 x; rel 0 m] main_analyzer.

(** A run in which thread 0 is the only one to act. *)
Definition single_thread_events : list Event :=
  [set_rd_handler true; set_wr_handler true; reg_var x;
   acq 0 m; wr 0 x; rel 0 m; rd 0 x; wr 0 x].
Definition single_thread_final : Analyzer :=
  state_after single_thread_events (Analyzer_new kNumThread).

End Fixed.

(** ** The Pin tool ([VectorClock.cpp])

    Sparse vector clocks and the analysis routines over process-wide
    globals.  [THREADID] is Pin's [UINT32], [ADDRINT] an address; both and
    the opaque [void*] thread handles are kept as [N].

    The model runs one routine at a time: a routine is a function from the
    state in which it is called to the state it leaves.  The source takes
    [vc_lock] in [Read], [Write], [Aquire], [Release], [Fork] and [Join] and
    [lock] around [CheckOverflow], whose comparisons and prints run under
    [lock] alone; a [CheckOverflow] that overlaps a clock routine of another
    thread is therefore not excluded by the locks, and is outside the model.
    Every property below is about routine calls that do not overlap. *)

Module Pintool.

Abbreviation THREADID := N.
Abbreviation ADDRINT := N.

(** [VC<int>]: the [clocks_] map. *)
Abbreviation VC := (gmap N Z).

Definition key_le (p q : N * Z) : Prop := (p.1 ≤ q.1)%N.

#[global] Instance key_le_dec : RelDecision key_le.
Proof. intros p q. unfold key_le. apply _. Defined.

(** Range-for over a [std::map]: the entries by ascending key. *)
Definition entries (vc : VC) : list (N * Z) := merge_sort key_le (map_to_list vc).

(** [VC::operator[]]: a reference to [clocks_[tid]], inserting 0 when the
    thread has no entry.  Returns the clock after the possible insertion and
    the value referred to. *)
Definition vc_sub (vc : VC) (tid : THREADID) : VC * Z :=
  match vc !! tid with
  | Some v => (vc, v)
  | None => (<[tid := 0]> vc, 0)
  end.

(** One iteration of [operator |=]:
    [if (clocks_[tid] < v) clocks_[tid] = v;] *)
Definition join_step (lhs : VC) (e : N * Z) : VC :=
  let '(lhs, c) := vc_sub lhs e.1 in
  if decide (c < e.2) then <[e.1 := e.2]> lhs else lhs.

(** [VC::operator |=] *)
Definition vc_join (lhs rhs : VC) : VC := foldl join_step lhs (entries rhs).

(** The loop of [VC::operator <=] over the entries of [*this]:
    [[
      auto it = rhs.clocks_.find(tid);
      if (it == rhs.clocks_.end() && v > 0) return false;
      else if (v > it->second) return false;
    ]]
    The [else] branch reads [it->second] also when [it] is [end()]. *)
Fixpoint le_loop (es : list (N * Z)) (rhs : VC) : result bool :=
  match es with
  | [] => Ok true
  | (tid, v) :: es' =>
      match rhs !! tid with
      | None =>
          if decide (0 < v) then Ok false else Err DerefEnd
      | Some w =>
          if decide (w < v) then Ok false else le_loop es' rhs
      end
  end.

(** [VC::operator <=] *)
Definition vc_le (lhs rhs : VC) : result bool := le_loop (entries lhs) rhs.

(** [VC::operator >] *)
Definition vc_gt (lhs rhs : VC) : result bool := b ← vc_le lhs rhs; Ok (negb b).

(** What the routines write to [*out]. *)
Inductive Message : Type :=
  | WriteRace (tid : THREADID) (C : VC) (mem_addr : ADDRINT) (R W : VC)
  | ReadRace (tid : THREADID) (C : VC) (mem_addr : ADDRINT) (W : VC)
  | Found (is_write : bool) (tid : THREADID) (mem_addr ins_addr : ADDRINT).

(** What the wrappers write to [cout]. *)
Inductive Trace : Set :=
  | ThreadCtorBy (tid : THREADID)
  | ThreadJoinBy (tid : THREADID).

(** The globals: [thread_vc] (the [m_] of the [ThreadVCMap]), [read_vc],
    [write_vc], [lock_vc], [thread_to_id], the static [last_id] of [Fork],
    and the two output streams. *)
Record State : Type := mkState {
  thread_vc : gmap N VC;
  read_vc : gmap N VC;
  write_vc : gmap N VC;
  lock_vc : gmap N VC;
  thread_to_id : gmap N N;
  last_id : N;
  out : list Message;
  cout : list Trace
}.

Definition set_thread_vc (v : gmap N VC) (s : State) : State :=
  mkState v (read_vc s) (write_vc s) (lock_vc s) (thread_to_id s) (last_id s) (out s) (cout s).
Definition set_read_vc (v : gmap N VC) (s : State) : State :=
  mkState (thread_vc s) v (write_vc s) (lock_vc s) (thread_to_id s) (last_id s) (out s) (cout s).
Definition set_write_vc (v : gmap N VC) (s : State) : State :=
  mkState (thread_vc s) (read_vc s) v (lock_vc s) (thread_to_id s) (last_id s) (out s) (cout s).
Definition set_lock_vc (v : gmap N VC) (s : State) : State :=
  mkState (thread_vc s) (read_vc s) (write_vc s) v (thread_to_id s) (last_id s) (out s) (cout s).
Definition set_thread_to_id (v : gmap N N) (s : State) : State :=
  mkState (thread_vc s) (read_vc s) (write_vc s) (lock_vc s) v (last_id s) (out s) (cout s).
Definition set_last_id (v : N) (s : State) : State :=
  mkState (thread_vc s) (read_vc s) (write_vc s) (lock_vc s) (thread_to_id s) v (out s) (cout s).
Definition set_out (v : list Message) (s : State) : State :=
  mkState (thread_vc s) (read_vc s) (write_vc s) (lock_vc s) (thread_to_id s) (last_id s) v (cout s).
Definition set_cout (v : list Trace) (s : State) : State :=
  mkState (thread_vc s) (read_vc s) (write_vc s) (lock_vc s) (thread_to_id s) (last_id s) (out s) v.

(** Before [main]: all globals empty, [last_id = 0]. *)
Definition initial : State := mkState ∅ ∅ ∅ ∅ ∅ 0%N [] [].

(** Routines read and update the globals and may hit undefined behaviour. *)
Definition M (A : Type) : Type := State → result (A * State).

#[global] Instance M_ret : MRet M := λ A a s, Ok (a, s).
#[global] Instance M_bind : MBind M := λ A B f m s,
  match m s with
  | Ok (a, s') => f a s'
  | Err e => Err e
  end.

Definition gets {A} (f : State → A) : M A := λ s, Ok (f s, s).
Definition modify (f : State → State) : M unit := λ s, Ok ((), f s).
Definition lift {A} (r : result A) : M A := λ s,
  match r with
  | Ok a => Ok (a, s)
  | Err e => Err e
  end.

(** [ThreadVCMap::operator[]]:
    [if (m_.count(tid) == 0) m_[tid][tid] = 1;  return m_[tid];] *)
Definition thread_vc_sub (tid : THREADID) : M VC := λ s,
  match thread_vc s !! tid with
  | Some vc => Ok (vc, s)
  | None => Ok ({[tid := 1]}, set_thread_vc (<[tid := {[tid := 1]}]> (thread_vc s)) s)
  end.

(** [std::map::operator[]] on a clock table: an empty clock is inserted for
    an absent key. *)
Definition table_sub (m : gmap N VC) (k : N) : gmap N VC * VC :=
  match m !! k with
  | Some vc => (m, vc)
  | None => (<[k := ∅]> m, ∅)
  end.

Definition read_vc_sub (mem_addr : ADDRINT) : M VC := λ s,
  let '(m, vc) := table_sub (read_vc s) mem_addr in Ok (vc, set_read_vc m s).
Definition write_vc_sub (mem_addr : ADDRINT) : M VC := λ s,
  let '(m, vc) := table_sub (write_vc s) mem_addr in Ok (vc, set_write_vc m s).
Definition lock_vc_sub (lock_addr : ADDRINT) : M VC := λ s,
  let '(m, vc) := table_sub (lock_vc s) lock_addr in Ok (vc, set_lock_vc m s).

(** Stores through the references obtained above. *)
Definition put_thread_vc (tid : THREADID) (vc : VC) : M unit :=
  modify (λ s, set_thread_vc (<[tid := vc]> (thread_vc s)) s).
Definition put_read_vc (mem_addr : ADDRINT) (vc : VC) : M unit :=
  modify (λ s, set_read_vc (<[mem_addr := vc]> (read_vc s)) s).
Definition put_write_vc (mem_addr : ADDRINT) (vc : VC) : M unit :=
  modify (λ s, set_write_vc (<[mem_addr := vc]> (write_vc s)) s).
Definition put_lock_vc (lock_addr : ADDRINT) (vc : VC) : M unit :=
  modify (λ s, set_lock_vc (<[lock_addr := vc]> (lock_vc s)) s).

(** [thread_vc[tid][tid]] read as a value. *)
Definition thread_clock (tid : THREADID) : M Z :=
  ct ← thread_vc_sub tid;
  let '(ct, c) := vc_sub ct tid in
  put_thread_vc tid ct;;
  mret c.

(** [++thread_vc[tid][tid]] *)
Definition incr_thread_clock (tid : THREADID) : M unit :=
  c ← thread_clock tid;
  c ← lift (incr_int c);
  ct ← thread_vc_sub tid;
  put_thread_vc tid (<[tid := c]> ct).

(** [thread_vc[lhs] |= thread_vc[rhs]] *)
Definition join_thread_vc (lhs rhs : THREADID) : M unit :=
  cr ← thread_vc_sub rhs;
  cl ← thread_vc_sub lhs;
  put_thread_vc lhs (vc_join cl cr).

Definition Read (tid : THREADID) (mem_addr : ADDRINT) : M unit :=
  (* read_vc[mem_addr][tid] = thread_vc[tid][tid]; *)
  c ← thread_clock tid;
  rx ← read_vc_sub mem_addr;
  put_read_vc mem_addr (<[tid := c]> rx).

Definition Write (tid : THREADID) (mem_addr : ADDRINT) : M unit :=
  (* write_vc[mem_addr][tid] = thread_vc[tid][tid]; *)
  c ← thread_clock tid;
  wx ← write_vc_sub mem_addr;
  put_write_vc mem_addr (<[tid := c]> wx).

Definition Aquire (tid : THREADID) (lock_addr : ADDRINT) : M unit :=
  (* thread_vc[tid] |= lock_vc[lock_addr]; *)
  lm ← lock_vc_sub lock_addr;
  ct ← thread_vc_sub tid;
  put_thread_vc tid (vc_join ct lm).

Definition Release (tid : THREADID) (lock_addr : ADDRINT) : M unit :=
  (* lock_vc[lock_addr] = thread_vc[tid]; *)
  ct ← thread_vc_sub tid;
  lock_vc_sub lock_addr;;
  put_lock_vc lock_addr ct;;
  (* ++thread_vc[tid][tid]; *)
  incr_thread_clock tid.

Definition NoRaceForWrite (tid : THREADID) (mem_addr : ADDRINT) : M bool :=
  (* read_vc[mem_addr] <= thread_vc[tid] && write_vc[mem_addr] <= thread_vc[tid] *)
  rx ← read_vc_sub mem_addr;
  ct ← thread_vc_sub tid;
  b ← lift (vc_le rx ct);
  if (b : bool) then
    wx ← write_vc_sub mem_addr;
    ct ← thread_vc_sub tid;
    lift (vc_le wx ct)
  else mret false.

Definition NoRaceForRead (tid : THREADID) (mem_addr : ADDRINT) : M bool :=
  (* write_vc[mem_addr] <= thread_vc[tid] *)
  wx ← write_vc_sub mem_addr;
  ct ← thread_vc_sub tid;
  lift (vc_le wx ct).

Definition Fork (tid : THREADID) (thread_obj : N) : M unit :=
  (* ++last_id;  (UINT32) *)
  modify (λ s, set_last_id ((last_id s + 1) `mod` 2 ^ 32)%N s);;
  (* thread_to_id[thread_obj] = last_id; *)
  u ← gets last_id;
  modify (λ s, set_thread_to_id (<[thread_obj := u]> (thread_to_id s)) s);;
  (* thread_vc[last_id] |= thread_vc[tid]; *)
  join_thread_vc u tid;;
  (* ++thread_vc[tid][tid]; *)
  incr_thread_clock tid.

Definition Join (tid : THREADID) (thread_obj : N) : M unit :=
  (* const auto join_id = thread_to_id[thread_obj]; *)
  join_id ← gets (λ s, default 0%N (thread_to_id s !! thread_obj));
  modify (λ s, set_thread_to_id (<[thread_obj := join_id]> (thread_to_id s)) s);;
  (* thread_vc[tid] |= thread_vc[join_id]; *)
  join_thread_vc tid join_id;;
  (* ++thread_vc[join_id][join_id]; *)
  incr_thread_clock join_id.

Definition print (msg : Message) : M unit :=
  modify (λ s, set_out (out s ++ [msg]) s).

(** [CheckOverflow], called before every instrumented memory access; [tid]
    is what [PIN_ThreadId()] returns to it. *)
Definition CheckOverflow (tid : THREADID) (ins_addr mem_addr : ADDRINT)
    (is_write : bool) : M unit :=
  registered ← gets (λ s, bool_decide (is_Some (read_vc s !! mem_addr)));
  if (registered : bool) then
    (if is_write then
       Write tid mem_addr;;
       ok ← NoRaceForWrite tid mem_addr;
       if (ok : bool) then mret ()
       else
         C ← thread_vc_sub tid;
         R ← read_vc_sub mem_addr;
         W ← write_vc_sub mem_addr;
         print (WriteRace tid C mem_addr R W)
     else
       Read tid mem_addr;;
       ok ← NoRaceForRead tid mem_addr;
       if (ok : bool) then mret ()
       else
         C ← thread_vc_sub tid;
         W ← write_vc_sub mem_addr;
         print (ReadRace tid C mem_addr W));;
    print (Found is_write tid mem_addr ins_addr)
  else mret ().

(** The wrappers around [std::mutex::lock]/[unlock] and the [std::thread]
    constructor and [join]; the call into the application is not part of the
    analysis state. *)
Definition MutexLockWrapper (tid : THREADID) (m : ADDRINT) : M unit :=
  watched ← gets (λ s, bool_decide (is_Some (lock_vc s !! m)));
  if (watched : bool) then Aquire tid m else mret ().

Definition MutexUnlockWrapper (tid : THREADID) (m : ADDRINT) : M unit :=
  watched ← gets (λ s, bool_decide (is_Some (lock_vc s !! m)));
  if (watched : bool) then Release tid m else mret ().

Definition ThreadCtorWrapper (tid : THREADID) (t : N) : M unit :=
  modify (λ s, set_cout (cout s ++ [ThreadCtorBy tid]) s);;
  Fork tid t.

Definition ThreadJoinWrapper (tid : THREADID) (t : N) : M unit :=
  modify (λ s, set_cout (cout s ++ [ThreadJoinBy tid]) s);;
  Join tid t.

(** The loop of [LoadSymbolAddrFromTargetBinary] over the symbols of the
    target: object symbols named in a watch set get empty clocks.
    [ELF64_ST_TYPE] and [STT_OBJECT] are those of [<elf.h>]. *)
Record Elf64_Sym : Set := { st_info : N; st_value : N }.

Definition ELF64_ST_TYPE (info : N) : N := N.land info 15.
Definition STT_OBJECT : N := 1.

Definition load_symbol (watch_vars watch_locks : gset string)
    (s : State) (sym : string * Elf64_Sym) : State :=
  if decide (ELF64_ST_TYPE (st_info sym.2) = STT_OBJECT) then
    let addr := st_value sym.2 in
    if decide (sym.1 ∈ watch_vars) then
      set_write_vc (<[addr := ∅]> (write_vc s))
        (set_read_vc (<[addr := ∅]> (read_vc s)) s)
    else if decide (sym.1 ∈ watch_locks) then
      set_lock_vc (<[addr := ∅]> (lock_vc s)) s
    else s
  else s.

Definition load_symbols (watch_vars watch_locks : gset string)
    (syms : list (string * Elf64_Sym)) (s : State) : State :=
  foldl (load_symbol watch_vars watch_locks) s syms.

(** *** Event sequences *)

Inductive Event : Set :=
  | mem_access (tid : THREADID) (ins_addr mem_addr : ADDRINT) (is_write : bool)
  | mutex_lock (tid : THREADID) (m : ADDRINT)
  | mutex_unlock (tid : THREADID) (m : ADDRINT)
  | thread_ctor (tid : THREADID) (t : N)
  | thread_join (tid : THREADID) (t : N).

Definition step (e : Event) : M unit :=
  match e with
  | mem_access tid ins_addr mem_addr is_write => CheckOverflow tid ins_addr mem_addr is_write
  | mutex_lock tid m => MutexLockWrapper tid m
  | mutex_unlock tid m => MutexUnlockWrapper tid m
  | thread_ctor tid t => ThreadCtorWrapper tid t
  | thread_join tid t => ThreadJoinWrapper tid t
  end.

Fixpoint run (es : list Event) : M unit :=
  match es with
  | [] => mret ()
  | e :: es' => step e;; run es'
  end.

Definition actor (e : Event) : THREADID :=
  match e with
  | mem_access tid _ _ _ | mutex_lock tid _ | mutex_unlock tid _
  | thread_ctor tid _ | thread_join tid _ => tid
  end.

(** States left by routine calls made one after another, once the symbols
    are loaded. *)
Inductive reachable : State → Prop :=
  | reachable_loaded syms :
      reachable (load_symbols {["x"]} {["m"]} syms initial)
  | reachable_step e s s' :
      reachable s → step e s = Ok ((), s') → reachable s'.

(** *** Notions used to state the properties *)

(** The logical time of thread [t] in a clock; a thread without an entry has
    time 0. *)
Definition time (vc : VC) (t : THREADID) : Z := default 0 (vc !! t).

(** What [thread_vc[tid]] denotes: the stored clock, or the clock
    [{tid ↦ 1}] the first access creates. *)
Definition thread_clock_of (s : State) (tid : THREADID) : VC :=
  default {[tid := 1]} (thread_vc s !! tid).

(** [C[tid][tid]] *)
Definition own_clock (s : State) (tid : THREADID) : Z :=
  time (thread_clock_of s tid) tid.

Definition is_thread_ctor (e : Event) : bool :=
  match e with
  | thread_ctor _ _ => true
  | _ => false
  end.

(** States reached by event streams in which every acting thread is the
    main thread 0 or a thread id handed out by [Fork], and in which
    [last_id] has not wrapped around. *)
Inductive reachable_forked : State → Prop :=
  | reachable_forked_loaded syms :
      reachable_forked (load_symbols {["x"]} {["m"]} syms initial)
  | reachable_forked_step e s s' :
      reachable_forked s →
      (actor e ≤ last_id s)%N →
      (is_thread_ctor e = true → (last_id s + 1 < 2 ^ 32)%N) →
      step e s = Ok ((), s') →
      reachable_forked s'.

(** Clocks over thread ids up to [b] with positive entries. *)
Definition vc_ok (b : N) (vc : VC) : Prop :=
  ∀ j v, vc !! j = Some v → (j ≤ b)%N ∧ 1 ≤ v.

Definition thread_vc_ok (b : N) (k : THREADID) (vc : VC) : Prop :=
  (k ≤ b)%N ∧ is_Some (vc !! k) ∧ vc_ok b vc.

Record ForkInv (s : State) : Prop := {
  fork_inv_thread : ∀ k vc, thread_vc s !! k = Some vc → thread_vc_ok (last_id s) k vc;
  fork_inv_lock : ∀ k vc, lock_vc s !! k = Some vc → vc_ok (last_id s) vc;
  fork_inv_handle : ∀ h u, thread_to_id s !! h = Some u → (u ≤ last_id s)%N
}.

(** [L[m]], where a lock without an entry stands for the empty clock. *)
Definition lock_clock_of (s : State) (m : ADDRINT) : VC :=
  default ∅ (lock_vc s !! m).

(** The relations between the clocks that every event keeps: a thread's own
    component is ahead of what any other thread or any lock knows of it,
    and not behind what any access clock recorded. *)
Record ClockInv (s : State) : Prop := {
  clock_inv_own : ∀ t, 1 ≤ own_clock s t;
  clock_inv_thread : ∀ u t ct,
    thread_vc s !! u = Some ct → u ≠ t → time ct t < own_clock s t;
  clock_inv_lock : ∀ m l t, lock_vc s !! m = Some l → time l t < own_clock s t;
  clock_inv_read : ∀ x r t, read_vc s !! x = Some r → time r t ≤ own_clock s t;
  clock_inv_write : ∀ x w t, write_vc s !! x = Some w → time w t ≤ own_clock s t
}.

(** [ForkInv] at a known value of [last_id]. *)
Definition inv (b : N) (s : State) : Prop := last_id s = b ∧ ForkInv s.

(** Partial correctness of a routine. *)
Definition hoare {A} (P : State → Prop) (m : M A) (Q : A → State → Prop) : Prop :=
  ∀ s a s', P s → m s = Ok (a, s') → Q a s'.

(** The tool after loading a target whose symbols [x] and [m] are objects at
    addresses 100 and 200. *)
Definition loaded : State :=
  load_symbols {["x"]} {["m"]}
    [("x", {| st_info := 17; st_value := 100 |});
     ("m", {| st_info := 17; st_value := 200 |})] initial.

(** ... and after thread 1 has unlocked [m]. *)
Definition after_unlock_by_1 : State :=
  match MutexUnlockWrapper 1 200 loaded with
  | Ok (_, s) => s
  | Err _ => loaded
  end.


(** ... then thread 2 has locked [m], and then thread 1 has written [x]. *)
Definition after_lock_by_2 : State :=
  match MutexLockWrapper 2 200 after_unlock_by_1 with
  | Ok (_, s) => s
  | Err _ => after_unlock_by_1
  end.

Definition after_write_by_1 : State :=
  match CheckOverflow 1 4096 100 true after_lock_by_2 with
  | Ok (_, s) => s
  | Err _ => after_lock_by_2
  end.

(** The loaded tool after thread 0 has constructed a thread with handle 77,
    and after it has joined it. *)
Definition after_fork_by_0 : State :=
  match ThreadCtorWrapper 0 77 loaded with
  | Ok (_, s) => s
  | Err _ => loaded
  end.

Definition after_join_by_0 : State :=
  match ThreadJoinWrapper 0 77 after_fork_by_0 with
  | Ok (_, s) => s
  | Err _ => after_fork_by_0
  end.

(** *** Finding the target binary

    The scan of [LoadSymbolAddrFromTargetBinary] over the command line:
    [[
      for (int i = argc - 2; i > 0; --i)
        if (strcmp(argv[i], "--") == 0) { target_bin_path = argv[i + 1]; break; }
    ]]
    [argv] holds the [argc] arguments. *)
Fixpoint find_target (argv : list string) (i : nat) : option string :=
  match i with
  | O => None
  | S i' =>
      if decide (argv !! i = Some "--") then argv !! (i + 1)%nat
      else find_target argv i'
  end.

Definition target_bin_path (argv : list string) : option string :=
  find_target argv (length argv - 2).

(** [LoadSymbolAddrFromTargetBinary]: [true] (nothing loaded) when there is
    no target on the command line or [GetSymbols] fails on it, otherwise the
    symbols are loaded and the result is [false].  [GetSymbols] is the ELF
    reader of [Elf.cpp], taken as given. *)
Definition LoadSymbolAddrFromTargetBinary
    (GetSymbols : string → option (list (string * Elf64_Sym)))
    (argv : list string) (watch_vars watch_locks : gset string)
    (s : State) : bool * State :=
  match target_bin_path argv with
  | None => (true, s)
  | Some path =>
      match GetSymbols path with
      | None => (true, s)
      | Some syms => (false, load_symbols watch_vars watch_locks syms s)
      end
  end.

(** *** What every run keeps of the tables *)

(** Clocks whose entries are all at least 1. *)
Definition positive (vc : VC) : Prop := ∀ k v, vc !! k = Some v → 1 ≤ v.

(** The stored clocks have positive entries only, a thread's clock has the
    thread's own entry, and the watched variables [X] and locks [L] are the
    keys of the access and lock tables. *)
Record Sound (X L : gset N) (s : State) : Prop := {
  sound_thread : ∀ k vc, thread_vc s !! k = Some vc → is_Some (vc !! k) ∧ positive vc;
  sound_lock : ∀ k vc, lock_vc s !! k = Some vc → positive vc;
  sound_read : ∀ k vc, read_vc s !! k = Some vc → positive vc;
  sound_write : ∀ k vc, write_vc s !! k = Some vc → positive vc;
  sound_read_dom : dom (read_vc s) = X;
  sound_write_dom : dom (write_vc s) = X;
  sound_lock_dom : dom (lock_vc s) = L
}.

(** A routine that, started where [P] holds, returns with [Q] or stops at
    one of the faults [F], and at nothing else. *)
Definition total {A} (F : fault → Prop) (P : State → Prop) (m : M A)
    (Q : A → State → Prop) : Prop :=
  ∀ s, P s → match m s with
             | Ok (a, s') => Q a s'
             | Err e => F e
             end.

End Pintool.

(** ** The heap-overflow detector ([Overflow.cpp])

    The Pin tool that records the objects [malloc] returns and checks every
    instrumented memory access against them. *)

Module Overflow.

Abbreviation ADDRINT := N.

(** [struct HeapObject { ADDRINT addr; size_t size; }] *)
Record HeapObject : Set := mkHeapObject { addr : ADDRINT; size : N }.

(** The lines written to [*out]. *)
Inductive Message : Set :=
  | FoundOutOfBounds (is_write : bool) (mem_addr ins_addr : ADDRINT)
  | Rule
  | HeapObjectsTitle
  | HeapObjectLine (addr size : N).

(** The globals [heap_objs] and [main_started], and what [*out] received. *)
Record State : Set := mkState {
  heap_objs : list HeapObject;
  main_started : bool;
  out : list Message
}.

Definition initial : State := mkState [] false [].

(** [heap_obj.addr <= mem_addr && mem_addr < heap_obj.addr + heap_obj.size],
    the sum being one of 64-bit unsigned integers. *)
Definition inside (heap_obj : HeapObject) (mem_addr : ADDRINT) : bool :=
  bool_decide (addr heap_obj ≤ mem_addr)%N &&
  bool_decide (mem_addr < (addr heap_obj + size heap_obj) `mod` 2 ^ 64)%N.

(** The loop of [CheckOverflow]: [out_of_bound] starts [true] and the first
    object the address is inside of makes it [false]. *)
Fixpoint out_of_bound (objs : list HeapObject) (mem_addr : ADDRINT) : bool :=
  match objs with
  | [] => true
  | heap_obj :: objs' =>
      if inside heap_obj mem_addr then false else out_of_bound objs' mem_addr
  end.

Definition CheckOverflow (ins_addr mem_addr : ADDRINT) (is_write : bool)
    (s : State) : State :=
  if out_of_bound (heap_objs s) mem_addr then
    mkState (heap_objs s) (main_started s)
            (out s ++ [FoundOutOfBounds is_write mem_addr ins_addr])
  else s.

Definition OnMainStarted (s : State) : State :=
  mkState (heap_objs s) true (out s).

(** [JitMalloc]; [ret] is what the application's [malloc] returned. *)
Definition JitMalloc (ret : ADDRINT) (size : N) (s : State) : State :=
  if main_started s then
    mkState (heap_objs s ++ [mkHeapObject ret size]) (main_started s) (out s)
  else s.

Definition Fini (s : State) : State :=
  mkState (heap_objs s) (main_started s)
          (out s ++ [Rule; HeapObjectsTitle]
                 ++ ((λ o, HeapObjectLine (addr o) (size o)) <$> heap_objs s)
                 ++ [Rule]).

(** What the instrumented application makes the tool do. *)
Inductive Event : Set :=
  | mem_access (ins_addr mem_addr : ADDRINT) (is_write : bool)
  | main_start
  | malloc (ret : ADDRINT) (size : N).

Definition step (s : State) (e : Event) : State :=
  match e with
  | mem_access ins_addr mem_addr is_write => CheckOverflow ins_addr mem_addr is_write s
  | main_start => OnMainStarted s
  | malloc ret size => JitMalloc ret size s
  end.

Definition run (es : list Event) (s : State) : State := foldl step s es.

(** The objects the [malloc]s of a run return, in order. *)
Definition mallocs (es : list Event) : list HeapObject :=
  omap (λ e, match e with
             | malloc ret size => Some (mkHeapObject ret size)
             | _ => None
             end) es.

End Overflow.

(** * Properties *)

Lemma bind_Ok_inv {A B} (f : A → result B) (r : result A) (b : B) :
  r ≫= f = Ok b → ∃ a, r = Ok a ∧ f a = Ok b.
Proof. destruct r as [a|e]; simpl; [eauto | discriminate]. Qed.

Lemma to_size_t_small (t : Z) : 0 ≤ t < 2 ^ 64 → to_size_t t = Z.to_N t.
Proof. intros H. unfold to_size_t. by rewrite Z.mod_small. Qed.

(** An [int] outside [0, n) converts to a [size_t] outside it as well, as
    long as [n] stays below [2^64 - 2^31]. *)
Lemma to_size_t_in_range (t : Z) (n : nat) :
  INT_MIN ≤ t ≤ INT_MAX → Z.of_nat n ≤ 2 ^ 63 →
  (to_size_t t < N.of_nat n)%N ↔ 0 ≤ t < Z.of_nat n.
Proof.
  unfold INT_MIN, INT_MAX, to_size_t. intros Ht Hn.
  destruct (decide (0 ≤ t)) as [Hpos|Hneg].
  - rewrite Z.mod_small by lia. lia.
  - assert (t `mod` 2 ^ 64 = t + 2 ^ 64) as ->.
    { symmetry. apply (Z.mod_unique_pos _ _ (-1)); lia. }
    lia.
Qed.

Module FixedProofs.
Import Fixed.

(** ** Array accesses *)

Lemma index_Ok {A} (arr : list A) (i : N) (v : A) :
  index arr i = Ok v ↔ arr !! N.to_nat i = Some v.
Proof.
  unfold index. split.
  - case_decide; [|done]. by destruct (arr !! N.to_nat i); intros [= ->].
  - intros Hv. pose proof (lookup_lt_Some _ _ _ Hv).
    rewrite decide_True by lia. by rewrite Hv.
Qed.

Lemma index_of_nat {A} (arr : list A) (i : nat) (v : A) :
  arr !! i = Some v → index arr (N.of_nat i) = Ok v.
Proof. intros Hv. apply index_Ok. by rewrite Nat2N.id. Qed.

Lemma assign_of_nat {A} (arr : list A) (i : nat) (v : A) :
  (i < length arr)%nat → assign arr (N.of_nat i) v = Ok (<[i := v]> arr).
Proof. intros Hi. unfold assign. rewrite decide_True by lia. by rewrite Nat2N.id. Qed.

Section WithNThread.
Context (NThread : nat).

Lemma length_zero : length (zero NThread) = NThread.
Proof. apply length_replicate. Qed.

Lemma lookup_zero (u : nat) (v : Z) : zero NThread !! u = Some v → v = 0.
Proof. unfold zero. by intros [-> _]%lookup_replicate. Qed.

(** ** The loops of [operator |=] and [operator <=] stay in bounds *)

Lemma join_loop_spec (rhs : FixedVectorClock) (n i : nat) (lhs : FixedVectorClock) :
  (i + n)%nat = length lhs → length rhs = length lhs →
  ∃ r, join_loop lhs rhs (N.of_nat i) n = Ok r ∧ length r = length lhs ∧
       (∀ j, (j < i)%nat → r !! j = lhs !! j) ∧
       (∀ j, (i ≤ j)%nat → r !! j = zip_with Z.max lhs rhs !! j).
Proof.
  revert i lhs. induction n as [|n IH]; intros i lhs Hi Hlen; simpl.
  - exists lhs. split_and!; [done..|]. intros j Hj.
    rewrite lookup_zip_with. rewrite !lookup_ge_None_2 by lia. done.
  - destruct (lookup_lt_is_Some_2 lhs i) as [l Hl]; [lia|].
    destruct (lookup_lt_is_Some_2 rhs i) as [r Hr]; [lia|].
    rewrite (index_of_nat _ _ _ Hl), (index_of_nat _ _ _ Hr); simpl.
    rewrite assign_of_nat by lia; simpl. rewrite <-Nat2N.inj_succ.
    destruct (IH (S i) (<[i := Z.max l r]> lhs)) as (res & -> & Hlen' & Hlt & Hge).
    { rewrite length_insert. lia. }
    { by rewrite length_insert. }
    exists res. rewrite length_insert in Hlen'. split_and!; [done..| |].
    + intros j Hj. rewrite Hlt by lia. apply list_lookup_insert_ne. lia.
    + intros j Hj. destruct (decide (j = i)) as [->|Hne].
      * rewrite Hlt by lia. rewrite list_lookup_insert_eq by lia.
        by rewrite lookup_zip_with, Hl, Hr.
      * rewrite Hge by lia. rewrite !lookup_zip_with.
        by rewrite list_lookup_insert_ne by lia.
Qed.

Lemma vc_join_spec (lhs rhs : FixedVectorClock) :
  length lhs = NThread → length rhs = NThread →
  vc_join NThread lhs rhs = Ok (zip_with Z.max lhs rhs).
Proof.
  intros Hl Hr. unfold vc_join.
  destruct (join_loop_spec rhs NThread 0 lhs) as (r & Hres & Hlen & _ & Hge);
    [lia..|]. change (N.of_nat 0) with 0%N in Hres. rewrite Hres. f_equal.
  apply list_eq. intros j. apply Hge. lia.
Qed.

Lemma le_loop_spec (lhs rhs : FixedVectorClock) (n i : nat) :
  (i + n)%nat = length lhs → length rhs = length lhs →
  ∃ b : bool, le_loop lhs rhs (N.of_nat i) n = Ok b ∧
    (b ↔ ∀ j l r, (i ≤ j)%nat → lhs !! j = Some l → rhs !! j = Some r → l ≤ r).
Proof.
  revert i. induction n as [|n IH]; intros i Hi Hlen; simpl.
  - exists true. split; [done|]. split; [|done]. intros _ j l r Hj Hl.
    apply lookup_lt_Some in Hl. lia.
  - destruct (lookup_lt_is_Some_2 lhs i) as [l Hl]; [lia|].
    destruct (lookup_lt_is_Some_2 rhs i) as [r Hr]; [lia|].
    rewrite (index_of_nat _ _ _ Hl), (index_of_nat _ _ _ Hr); simpl.
    case_decide as Hlt.
    + exists false. split; [done|]. split; [done|]. intros Hall.
      specialize (Hall i l r ltac:(lia) Hl Hr). lia.
    + rewrite <-Nat2N.inj_succ.
      destruct (IH (S i)) as (b & -> & Hb); [lia|done|].
      exists b. split; [done|]. rewrite Hb. split.
      * intros Hall j l' r' Hj Hl' Hr'.
        destruct (decide (j = i)) as [->|]; [|apply (Hall j); [lia|done..]].
        simplify_eq. lia.
      * intros Hall j l' r' Hj. apply Hall. lia.
Qed.

Lemma vc_le_spec (lhs rhs : FixedVectorClock) :
  length lhs = NThread → length rhs = NThread →
  vc_le NThread lhs rhs = Ok (vc_leb lhs rhs).
Proof.
  intros Hl Hr. unfold vc_le.
  destruct (le_loop_spec lhs rhs NThread 0) as (b & Hres & Hb); [lia..|].
  change (N.of_nat 0) with 0%N in Hres. rewrite Hres. f_equal. unfold vc_leb.
  assert (b ↔ Forall2 Z.le lhs rhs) as Hiff.
  { rewrite Hb, Forall2_lookup. split.
    - intros Hall j.
      destruct (lhs !! j) as [l|] eqn:Hlj, (rhs !! j) as [r|] eqn:Hrj.
      + constructor. apply (Hall j); [lia|done..].
      + apply lookup_lt_Some in Hlj. apply lookup_ge_None in Hrj. lia.
      + apply lookup_lt_Some in Hrj. apply lookup_ge_None in Hlj. lia.
      + constructor.
    - intros Hall j l r _ Hlj Hrj. specialize (Hall j).
      rewrite Hlj, Hrj in Hall. by inversion Hall. }
  symmetry. destruct b.
  - apply bool_decide_eq_true. by apply Hiff.
  - apply bool_decide_eq_false. intros HF. by apply Hiff in HF.
Qed.

Lemma vc_gt_spec (lhs rhs : FixedVectorClock) :
  length lhs = NThread → length rhs = NThread →
  vc_gt NThread lhs rhs = Ok (negb (vc_leb lhs rhs)).
Proof. intros Hl Hr. unfold vc_gt. by rewrite vc_le_spec. Qed.

(** ** Closed forms of the four event operations

    In a state satisfying [Inv], with thread index [i] in range, no array
    access faults and the operations compute the following. *)

Lemma length_subscript (m : gmap string FixedVectorClock) (k : string) :
  (∀ k' vc, m !! k' = Some vc → length vc = NThread) →
  length (subscript NThread m k) = NThread.
Proof.
  intros Hm. unfold subscript. destruct (m !! k) as [vc|] eqn:Hk; simpl.
  - by eapply Hm.
  - apply length_zero.
Qed.

Section Closed.
Context (a : Analyzer) (HI : Inv NThread a).
Context (t : Z) (i : nat) (Hi : to_size_t t = N.of_nat i).
Context (ct : FixedVectorClock) (Hct : thread_vc_ a !! i = Some ct).
Context (c : Z) (Hc : ct !! i = Some c).

Lemma closed_length_ct : length ct = NThread.
Proof. by destruct (inv_thread_vc _ _ HI i ct Hct). Qed.

Lemma closed_i_lt : (i < NThread)%nat.
Proof. rewrite <-closed_length_ct. by eapply lookup_lt_Some. Qed.

Lemma Read_eq (x : Variable_) :
  let rx := <[i := c]> (subscript NThread (read_vc_ a) (var_name x)) in
  let wx := subscript NThread (write_vc_ a) (var_name x) in
  Read NThread t x a =
    Ok (set_write_vc_ (<[var_name x := wx]> (write_vc_ a))
          (set_read_vc_ (<[var_name x := rx]> (read_vc_ a)) a),
        if negb (vc_leb wx ct) && on_read_violated_ a
        then [ReadViolated t x] else []).
Proof.
  intros rx wx. unfold Read. rewrite Hi.
  rewrite (index_of_nat _ _ _ Hct); simpl.
  rewrite (index_of_nat _ _ _ Hc); simpl.
  pose proof closed_i_lt as Hlt. pose proof closed_length_ct as Hlen.
  rewrite assign_of_nat; simpl.
  2:{ rewrite length_subscript; [done|]. intros k' vc Hk. by eapply inv_read. }
  rewrite (index_of_nat _ _ _ Hct); simpl.
  rewrite vc_gt_spec; [done| |done].
  apply length_subscript. intros k' vc Hk. by eapply inv_write.
Qed.

Lemma Write_eq (x : Variable_) :
  let wx := <[i := c]> (subscript NThread (write_vc_ a) (var_name x)) in
  let rx := subscript NThread (read_vc_ a) (var_name x) in
  let a1 := set_write_vc_ (<[var_name x := wx]> (write_vc_ a)) a in
  Write NThread t x a =
    Ok (if vc_leb wx ct
        then (set_read_vc_ (<[var_name x := rx]> (read_vc_ a)) a1,
              if negb (vc_leb rx ct) && on_write_violated_ a
              then [WriteViolated t x] else [])
        else (a1, if on_write_violated_ a then [WriteViolated t x] else [])).
Proof.
  intros wx rx a1. subst a1. unfold Write. rewrite Hi.
  rewrite (index_of_nat _ _ _ Hct); simpl.
  rewrite (index_of_nat _ _ _ Hc); simpl.
  pose proof closed_i_lt as Hlt. pose proof closed_length_ct as Hlen.
  assert (length (subscript NThread (write_vc_ a) (var_name x)) = NThread) as Hw.
  { apply length_subscript. intros k' vc Hk. by eapply inv_write. }
  rewrite assign_of_nat by lia; simpl.
  rewrite (index_of_nat _ _ _ Hct); simpl.
  fold wx.
  rewrite (vc_gt_spec wx ct); [|by unfold wx; rewrite length_insert|done]. simpl.
  destruct (vc_leb wx ct); simpl; [|done].
  fold rx.
  rewrite (vc_gt_spec rx ct); [done| |done].
  apply length_subscript. intros k' vc Hk. by eapply inv_read.
Qed.

Lemma Acquire_eq (m : Lock) :
  let lm := subscript NThread (lock_vc_ a) (lock_name m) in
  Acquire NThread t m a =
    Ok (set_thread_vc_ (<[i := zip_with Z.max ct lm]> (thread_vc_ a))
          (set_lock_vc_ (<[lock_name m := lm]> (lock_vc_ a)) a), []).
Proof.
  intros lm. unfold Acquire. rewrite Hi. simpl.
  rewrite (index_of_nat _ _ _ Hct); simpl.
  pose proof closed_i_lt as Hlt. pose proof closed_length_ct as Hlen.
  rewrite vc_join_spec; [|done|]; simpl.
  2:{ apply length_subscript. intros k' vc Hk. by eapply inv_lock. }
  rewrite assign_of_nat; [done|]. by rewrite (inv_threads _ _ HI).
Qed.

Lemma Release_eq (m : Lock) :
  c < INT_MAX →
  let ct' := <[i := c + 1]> ct in
  Release t m a =
    Ok (set_lock_vc_ (<[lock_name m := ct']> (lock_vc_ a))
          (set_thread_vc_ (<[i := ct']> (thread_vc_ a)) a), []).
Proof.
  intros Hmax ct'. unfold Release. rewrite Hi.
  rewrite (index_of_nat _ _ _ Hct); simpl.
  rewrite (index_of_nat _ _ _ Hc); simpl.
  pose proof closed_i_lt as Hlt. pose proof closed_length_ct as Hlen.
  unfold incr_int. rewrite decide_True by done. simpl.
  rewrite assign_of_nat by lia; simpl.
  rewrite assign_of_nat by (rewrite (inv_threads _ _ HI); lia); simpl.
  rewrite (index_of_nat (<[i := ct']> (thread_vc_ a)) i ct'); [done|].
  apply list_lookup_insert_eq. rewrite (inv_threads _ _ HI). lia.
Qed.

Lemma Release_overflow (m : Lock) :
  ¬ c < INT_MAX → Release t m a = Err SignedOverflow.
Proof.
  intros Hmax. unfold Release. rewrite Hi.
  rewrite (index_of_nat _ _ _ Hct); simpl.
  rewrite (index_of_nat _ _ _ Hc); simpl.
  unfold incr_int. by rewrite decide_False by done.
Qed.

End Closed.

(** Every in-range thread has a clock with an own component. *)
Lemma thread_lookup (a : Analyzer) (i : nat) :
  Inv NThread a → (i < NThread)%nat →
  ∃ ct c, thread_vc_ a !! i = Some ct ∧ ct !! i = Some c ∧ clock a i = c.
Proof.
  intros HI Hi.
  destruct (lookup_lt_is_Some_2 (thread_vc_ a) i) as [ct Hct].
  { by rewrite (inv_threads _ _ HI). }
  destruct (inv_thread_vc _ _ HI i ct Hct) as [Hlen _].
  destruct (lookup_lt_is_Some_2 ct i) as [c Hc]; [lia|].
  exists ct, c. split_and!; [done..|]. unfold clock. by rewrite Hct; simpl; rewrite Hc.
Qed.

(** An operation that returns went through in-range accesses. *)
Lemma index_thread_inv (a : Analyzer) (t : Z) (ct : FixedVectorClock) :
  index (thread_vc_ a) (to_size_t t) = Ok ct →
  ∃ i, to_size_t t = N.of_nat i ∧ thread_vc_ a !! i = Some ct.
Proof.
  intros H%index_Ok. exists (N.to_nat (to_size_t t)). by rewrite N2Nat.id.
Qed.

(** ** The invariant holds in every reachable state *)

Lemma dominated_mono (a a' : Analyzer) (vc : FixedVectorClock) :
  (∀ u, clock a u ≤ clock a' u) → dominated a vc → dominated a' vc.
Proof. intros Hle Hd u v Hv. specialize (Hd u v Hv). specialize (Hle u). lia. Qed.

Lemma good_mono (a a' : Analyzer) (vc : FixedVectorClock) :
  (∀ u, clock a u ≤ clock a' u) → good NThread a vc → good NThread a' vc.
Proof. intros Hle [Hlen Hd]. split; [done|]. by eapply dominated_mono. Qed.

Lemma good_zero (a : Analyzer) : Inv NThread a → good NThread a (zero NThread).
Proof.
  intros HI. split; [apply length_zero|]. intros u v Hv.
  pose proof (lookup_lt_Some _ _ _ Hv) as Hu. rewrite length_zero in Hu.
  apply lookup_zero in Hv as ->. pose proof (inv_own _ _ HI u Hu). lia.
Qed.

Lemma good_subscript (a : Analyzer) (m : gmap string FixedVectorClock) (k : string) :
  Inv NThread a → (∀ k' vc, m !! k' = Some vc → good NThread a vc) →
  good NThread a (subscript NThread m k).
Proof.
  intros HI Hm. unfold subscript. destruct (m !! k) as [vc|] eqn:Hk; simpl.
  - by eapply Hm.
  - by apply good_zero.
Qed.

Lemma good_stamp (a : Analyzer) (vc : FixedVectorClock) (i : nat) :
  good NThread a vc → good NThread a (<[i := clock a i]> vc).
Proof.
  intros [Hlen Hd]. split; [by rewrite length_insert|]. intros u v.
  destruct (decide (u = i)) as [->|Hne].
  - intros Hv. pose proof (lookup_lt_Some _ _ _ Hv) as Hlt.
    rewrite length_insert in Hlt. rewrite list_lookup_insert_eq in Hv by done.
    by injection Hv as <-.
  - rewrite list_lookup_insert_ne by done. apply Hd.
Qed.

Lemma table_insert_good (a : Analyzer) (m : gmap string FixedVectorClock)
    (k : string) (vc : FixedVectorClock) :
  (∀ k' vc', m !! k' = Some vc' → good NThread a vc') → good NThread a vc →
  ∀ k' vc', <[k := vc]> m !! k' = Some vc' → good NThread a vc'.
Proof.
  intros Hm Hvc k' vc'. rewrite lookup_insert. case_decide; [|apply Hm].
  by intros [= <-].
Qed.

Lemma Inv_set_read (a : Analyzer) (k : string) (vc : FixedVectorClock) :
  Inv NThread a → good NThread a vc →
  Inv NThread (set_read_vc_ (<[k := vc]> (read_vc_ a)) a).
Proof.
  intros [] Hvc. split; simpl; try done.
  - by apply table_insert_good.
  - intros x Hx. destruct (inv_variables0 x Hx) as [Hr Hw]. split; [|done].
    rewrite lookup_insert_is_Some. destruct (decide (k = var_name x)); auto.
Qed.

Lemma Inv_set_write (a : Analyzer) (k : string) (vc : FixedVectorClock) :
  Inv NThread a → good NThread a vc →
  Inv NThread (set_write_vc_ (<[k := vc]> (write_vc_ a)) a).
Proof.
  intros [] Hvc. split; simpl; try done.
  - by apply table_insert_good.
  - intros x Hx. destruct (inv_variables0 x Hx) as [Hr Hw]. split; [done|].
    rewrite lookup_insert_is_Some. destruct (decide (k = var_name x)); auto.
Qed.

Lemma Inv_set_lock (a : Analyzer) (k : string) (vc : FixedVectorClock) :
  Inv NThread a → good NThread a vc →
  Inv NThread (set_lock_vc_ (<[k := vc]> (lock_vc_ a)) a).
Proof.
  intros [] Hvc. split; simpl; try done.
  - by apply table_insert_good.
  - intros m Hm. specialize (inv_locks0 m Hm).
    rewrite lookup_insert_is_Some. destruct (decide (k = lock_name m)); auto.
Qed.

Lemma clock_set_thread (a : Analyzer) (i : nat) (ct' : FixedVectorClock) (u : nat) :
  (i < length (thread_vc_ a))%nat →
  clock (set_thread_vc_ (<[i := ct']> (thread_vc_ a)) a) u =
    if decide (u = i) then default 0 (ct' !! i) else clock a u.
Proof.
  intros Hi. unfold clock; simpl. case_decide as Hu.
  - subst u. by rewrite list_lookup_insert_eq by done.
  - by rewrite list_lookup_insert_ne by done.
Qed.

(** Replacing thread [i]'s clock by one whose own component did not go back
    and whose other components are dominated. *)
Lemma Inv_set_thread (a : Analyzer) (i : nat) (ct ct' : FixedVectorClock) (c c' : Z) :
  Inv NThread a →
  thread_vc_ a !! i = Some ct → ct !! i = Some c →
  length ct' = NThread → ct' !! i = Some c' → c ≤ c' →
  (∀ u v, u ≠ i → ct' !! u = Some v → v ≤ clock a u) →
  Inv NThread (set_thread_vc_ (<[i := ct']> (thread_vc_ a)) a).
Proof.
  intros HI Hct Hc Hlen Hc' Hle Hother.
  pose proof (lookup_lt_Some _ _ _ Hct) as Hi.
  set (a' := set_thread_vc_ (<[i := ct']> (thread_vc_ a)) a).
  assert (clock a i = c) as Hci.
  { unfold clock. by rewrite Hct; simpl; rewrite Hc. }
  assert (∀ u, clock a u ≤ clock a' u) as Hmono.
  { intros u. unfold a'. rewrite clock_set_thread by done.
    case_decide; [|lia]. subst u. rewrite Hc'. simpl. lia. }
  assert (good NThread a' ct') as Hgood'.
  { split; [done|]. intros u v Hv. unfold a'. rewrite clock_set_thread by done.
    case_decide as Hu.
    - subst u. rewrite Hc'; simpl. rewrite Hc' in Hv. injection Hv as <-. lia.
    - by eapply Hother. }
  destruct HI. split; simpl.
  - by rewrite length_insert.
  - intros u cu. destruct (decide (u = i)) as [->|Hne].
    + rewrite list_lookup_insert_eq by done. by intros [= <-].
    + rewrite list_lookup_insert_ne by done. intros Hcu.
      eapply good_mono; [exact Hmono|]. by eapply inv_thread_vc0.
  - intros u Hu. specialize (inv_own0 u Hu). specialize (Hmono u). lia.
  - intros k vc Hk. eapply good_mono; [exact Hmono|]. by eapply inv_read0.
  - intros k vc Hk. eapply good_mono; [exact Hmono|]. by eapply inv_write0.
  - intros k vc Hk. eapply good_mono; [exact Hmono|]. by eapply inv_lock0.
  - done.
  - done.
Qed.

Lemma Inv_new : Inv NThread (Analyzer_new NThread).
Proof.
  assert (∀ u cu, thread_vc_ (Analyzer_new NThread) !! u = Some cu →
                  (u < NThread)%nat ∧ cu = <[u := 1]> (zero NThread)) as Hlook.
  { intros u cu. simpl. rewrite list_lookup_fmap.
    destruct (seq 0 NThread !! u) as [j|] eqn:Hj; [|done].
    apply lookup_seq in Hj as [-> Hu]. simpl. by intros [= <-]. }
  assert (∀ u, (u < NThread)%nat → clock (Analyzer_new NThread) u = 1) as Hclock.
  { intros u Hu. unfold clock; simpl. rewrite list_lookup_fmap.
    rewrite lookup_seq_lt by done. simpl.
    rewrite list_lookup_insert_eq; [done|]. by rewrite length_zero. }
  split; simpl; try done.
  - by rewrite length_fmap, length_seq.
  - intros u cu [Hu ->]%Hlook. split.
    + by rewrite length_insert, length_zero.
    + intros w v Hv. pose proof (lookup_lt_Some _ _ _ Hv) as Hw.
      rewrite length_insert, length_zero in Hw. rewrite Hclock by done.
      destruct (decide (w = u)) as [->|Hne].
      * rewrite list_lookup_insert_eq in Hv by (by rewrite length_zero).
        injection Hv as <-. done.
      * rewrite list_lookup_insert_ne in Hv by done.
        apply lookup_zero in Hv as ->. done.
  - intros u Hu. by rewrite Hclock.
  - intros x Hx. by apply elem_of_nil in Hx.
  - intros m Hm. by apply elem_of_nil in Hm.
Qed.

Lemma clock_eq (a : Analyzer) (i : nat) (ct : FixedVectorClock) (c : Z) :
  thread_vc_ a !! i = Some ct → ct !! i = Some c → clock a i = c.
Proof. intros Hct Hc. unfold clock. by rewrite Hct; simpl; rewrite Hc. Qed.

Lemma Read_Inv (a a' : Analyzer) (t : Z) (x : Variable_) (cb : list Callback) :
  Inv NThread a → Read NThread t x a = Ok (a', cb) → Inv NThread a'.
Proof.
  intros HI Hrd. pose proof Hrd as Hrd'. unfold Read in Hrd'.
  apply bind_Ok_inv in Hrd' as (ct & (i & Hi & Hct)%index_thread_inv & Hrd').
  apply bind_Ok_inv in Hrd' as (c & Hc%index_Ok & _).
  rewrite Hi, Nat2N.id in Hc.
  rewrite (Read_eq a HI t i Hi ct Hct c Hc) in Hrd. injection Hrd as <- _.
  assert (Inv NThread (set_read_vc_
    (<[var_name x := <[i := c]> (subscript NThread (read_vc_ a) (var_name x))]>
       (read_vc_ a)) a)) as HI1.
  { apply Inv_set_read; [done|]. rewrite <-(clock_eq a i ct c) by done.
    apply good_stamp, good_subscript; [done|]. by destruct HI. }
  apply (Inv_set_write (set_read_vc_ _ a)); [done|].
  apply good_subscript; [done|]. by destruct HI1.
Qed.

Lemma Write_Inv (a a' : Analyzer) (t : Z) (x : Variable_) (cb : list Callback) :
  Inv NThread a → Write NThread t x a = Ok (a', cb) → Inv NThread a'.
Proof.
  intros HI Hwr. pose proof Hwr as Hwr'. unfold Write in Hwr'.
  apply bind_Ok_inv in Hwr' as (ct & (i & Hi & Hct)%index_thread_inv & Hwr').
  apply bind_Ok_inv in Hwr' as (c & Hc%index_Ok & _).
  rewrite Hi, Nat2N.id in Hc.
  rewrite (Write_eq a HI t i Hi ct Hct c Hc) in Hwr.
  assert (Inv NThread (set_write_vc_
    (<[var_name x := <[i := c]> (subscript NThread (write_vc_ a) (var_name x))]>
       (write_vc_ a)) a)) as HI1.
  { apply Inv_set_write; [done|]. rewrite <-(clock_eq a i ct c) by done.
    apply good_stamp, good_subscript; [done|]. by destruct HI. }
  destruct (vc_leb _ ct); injection Hwr as <- _; [|done].
  apply (Inv_set_read (set_write_vc_ _ a)); [done|].
  apply good_subscript; [done|]. by destruct HI1.
Qed.

Lemma Acquire_Inv (a a' : Analyzer) (t : Z) (m : Lock) (cb : list Callback) :
  Inv NThread a → Acquire NThread t m a = Ok (a', cb) → Inv NThread a'.
Proof.
  intros HI Hacq. pose proof Hacq as Hacq'. unfold Acquire in Hacq'.
  apply bind_Ok_inv in Hacq' as (ct & (i & Hi & Hct)%index_thread_inv & _).
  simpl in Hct.
  destruct (inv_thread_vc _ _ HI i ct Hct) as [Hlen Hdom].
  destruct (lookup_lt_is_Some_2 ct i) as [c Hc].
  { rewrite Hlen, <-(inv_threads _ _ HI). by eapply lookup_lt_Some. }
  rewrite (Acquire_eq a HI t i Hi ct Hct c Hc) in Hacq. injection Hacq as <- _.
  set (lm := subscript NThread (lock_vc_ a) (lock_name m)).
  assert (good NThread a lm) as [Hlenm Hdomm].
  { apply good_subscript; [done|]. by destruct HI. }
  destruct (lookup_lt_is_Some_2 lm i) as [l Hl].
  { rewrite Hlenm, <-Hlen. by eapply lookup_lt_Some. }
  apply (Inv_set_thread (set_lock_vc_ _ a) i ct (zip_with Z.max ct lm) c (Z.max c l)).
  - apply Inv_set_lock; [done|]. by split.
  - done.
  - done.
  - rewrite length_zip_with. lia.
  - by rewrite lookup_zip_with, Hc, Hl.
  - lia.
  - intros u v _. rewrite lookup_zip_with.
    destruct (ct !! u) as [cu|] eqn:Hcu; [|done].
    destruct (lm !! u) as [lu|] eqn:Hlu; [|done]. simpl. intros [= <-].
    specialize (Hdom u cu Hcu). specialize (Hdomm u lu Hlu).
    change (clock (set_lock_vc_ _ a) u) with (clock a u). lia.
Qed.

Lemma Release_Inv (a a' : Analyzer) (t : Z) (m : Lock) (cb : list Callback) :
  Inv NThread a → Release t m a = Ok (a', cb) → Inv NThread a'.
Proof.
  intros HI Hrel. pose proof Hrel as Hrel'. unfold Release in Hrel'.
  apply bind_Ok_inv in Hrel' as (ct & (i & Hi & Hct)%index_thread_inv & Hrel').
  apply bind_Ok_inv in Hrel' as (c & Hc%index_Ok & Hrel').
  rewrite Hi, Nat2N.id in Hc.
  apply bind_Ok_inv in Hrel' as (c' & Hc' & _).
  unfold incr_int in Hc'. case_decide as Hmax; [|done]. clear Hc'.
  rewrite (Release_eq a HI t i Hi ct Hct c Hc m Hmax) in Hrel.
  injection Hrel as <- _.
  destruct (inv_thread_vc _ _ HI i ct Hct) as [Hlen Hdom].
  pose proof (lookup_lt_Some _ _ _ Hct) as Hlt.
  pose proof (lookup_lt_Some _ _ _ Hc) as Hlt'.
  assert (Inv NThread (set_thread_vc_ (<[i := <[i := c + 1]> ct]> (thread_vc_ a)) a))
    as HI1.
  { apply (Inv_set_thread _ i ct _ c (c + 1)); try done.
    - by rewrite length_insert.
    - by apply list_lookup_insert_eq.
    - lia.
    - intros u v Hu. rewrite list_lookup_insert_ne by done. apply Hdom. }
  apply (Inv_set_lock (set_thread_vc_ _ a)); [done|].
  apply (inv_thread_vc _ _ HI1 i). simpl. by apply list_lookup_insert_eq.
Qed.

Lemma emplace_zero_good (a : Analyzer) (m : gmap string FixedVectorClock) (k : string) :
  Inv NThread a → (∀ k' vc, m !! k' = Some vc → good NThread a vc) →
  ∀ k' vc, emplace k (zero NThread) m !! k' = Some vc → good NThread a vc.
Proof.
  intros HI Hm. unfold emplace. destruct (m !! k); [done|].
  apply table_insert_good; [done|]. by apply good_zero.
Qed.

Lemma emplace_is_Some (m : gmap string FixedVectorClock) (k k' : string)
    (v : FixedVectorClock) :
  k = k' ∨ is_Some (m !! k') → is_Some (emplace k v m !! k').
Proof.
  unfold emplace. destruct (m !! k) as [w|] eqn:Hk.
  - intros [Heq|HS]; [|done]. subst k'. by exists w.
  - rewrite lookup_insert_is_Some. destruct (decide (k = k')); [by left|].
    intros [?|?]; [done|by right].
Qed.

Lemma RegisterVariable_Inv (a : Analyzer) (x : Variable_) :
  Inv NThread a → Inv NThread (RegisterVariable NThread x a).
Proof.
  intros HI. pose proof HI as []. split; simpl; try done.
  - intros k vc Hk. apply (emplace_zero_good a) in Hk; done.
  - intros k vc Hk. apply (emplace_zero_good a) in Hk; done.
  - intros y [Hy| ->%list_elem_of_singleton]%elem_of_app.
    + destruct (inv_variables0 y Hy). split; apply emplace_is_Some; by right.
    + split; apply emplace_is_Some; by left.
Qed.

Lemma RegisterLock_Inv (a : Analyzer) (m : Lock) :
  Inv NThread a → Inv NThread (RegisterLock NThread m a).
Proof.
  intros HI. pose proof HI as []. split; simpl; try done.
  - intros k vc Hk. apply (emplace_zero_good a) in Hk; done.
  - intros y [Hy| ->%list_elem_of_singleton]%elem_of_app.
    + apply emplace_is_Some. right. by apply inv_locks0.
    + apply emplace_is_Some. by left.
Qed.

Lemma step_Inv (e : Event) (a a' : Analyzer) (cb : list Callback) :
  Inv NThread a → step NThread e a = Ok (a', cb) → Inv NThread a'.
Proof.
  intros HI. destruct e as [t x|t x|t m|t m|x|m|f|f]; simpl.
  - by apply Read_Inv.
  - by apply Write_Inv.
  - by apply Acquire_Inv.
  - by apply Release_Inv.
  - intros [= <- _]. by apply RegisterVariable_Inv.
  - intros [= <- _]. by apply RegisterLock_Inv.
  - intros [= <- _]. by destruct HI.
  - intros [= <- _]. by destruct HI.
Qed.

Lemma reachable_Inv (a : Analyzer) : reachable NThread a → Inv NThread a.
Proof.
  induction 1 as [|e a a' cb _ IH Hstep]; [apply Inv_new|].
  by eapply step_Inv.
Qed.

Lemma run_reachable (es : list Event) (a a' : Analyzer) (cb : list Callback) :
  reachable NThread a → run NThread es a = Ok (a', cb) → reachable NThread a'.
Proof.
  revert a cb. induction es as [|e es IH]; intros a cb Ha; simpl.
  - by intros [= <- _].
  - intros Hrun. apply bind_Ok_inv in Hrun as ([a1 cb1] & Hstep & Hrun).
    apply bind_Ok_inv in Hrun as ([a2 cb2] & Hrun & [= <- _]).
    eapply IH; [|done]. by eapply reachable_step.
Qed.

(** A thread id in range indexes its own clock. *)
Lemma thread_in_range (a : Analyzer) (t : Z) :
  Inv NThread a → is_int t → 0 ≤ t < Z.of_nat NThread →
  ∃ i ct c, to_size_t t = N.of_nat i ∧ i = Z.to_nat t ∧ (i < NThread)%nat ∧
            thread_vc_ a !! i = Some ct ∧ ct !! i = Some c ∧ clock a i = c.
Proof.
  intros HI [_ Hmax] Ht. unfold INT_MAX in Hmax.
  destruct (thread_lookup a (Z.to_nat t) HI) as (ct & c & Hct & Hc & Hcl); [lia|].
  exists (Z.to_nat t), ct, c. split_and!; [|done|lia|done..].
  rewrite to_size_t_small by lia. lia.
Qed.

(** ** Quantified invariants *)

(** C3. In every reachable state, for every variable [x] with clocks and
    every thread [t], [R[x][t] ≤ C[t][t]] and [W[x][t] ≤ C[t][t]]. *)
Theorem access_clocks_bounded (a : Analyzer) (x : Variable_) (t : Z)
    (vc ct : FixedVectorClock) (v c : Z) :
  reachable NThread a →
  GetReadVC x a = Ok vc ∨ GetWriteVC x a = Ok vc →
  GetThreadVC t a = Ok ct →
  index vc (to_size_t t) = Ok v →
  index ct (to_size_t t) = Ok c →
  v ≤ c.
Proof.
  intros HI%reachable_Inv Hvc Hct Hv%index_Ok Hc%index_Ok.
  unfold GetThreadVC in Hct. case_decide; [|done].
  destruct (thread_vc_ a !! N.to_nat (to_size_t t)) as [ct'|] eqn:Hct';
    [|done]. injection Hct as ->.
  assert (good NThread a vc) as [_ Hdom].
  { unfold GetReadVC, GetWriteVC in Hvc. destruct Hvc as [Hvc|Hvc].
    - destruct (read_vc_ a !! var_name x) as [vc'|] eqn:Hx; [|done].
      injection Hvc as ->. by eapply inv_read.
    - destruct (write_vc_ a !! var_name x) as [vc'|] eqn:Hx; [|done].
      injection Hvc as ->. by eapply inv_write. }
  specialize (Hdom _ _ Hv). by rewrite (clock_eq a _ ct c) in Hdom.
Qed.

(** C4. A release that returns leaves [L[m][t]] strictly greater than it
    was, and a release returns whenever the thread's own component can still
    be incremented. *)
Theorem Release_monotonic (a : Analyzer) (t : Z) (m : Lock) :
  reachable NThread a → is_int t → 0 ≤ t < Z.of_nat NThread →
  (clock a (Z.to_nat t) < INT_MAX → ∃ a', Release t m a = Ok (a', [])) ∧
  (∀ a' cb, Release t m a = Ok (a', cb) →
     lock_time NThread a m (Z.to_nat t) < lock_time NThread a' m (Z.to_nat t)).
Proof.
  intros HI%reachable_Inv Hint Ht.
  destruct (thread_in_range a t HI Hint Ht) as (i & ct & c & Hi & -> & Hlt & Hct & Hc & Hcl).
  rewrite Hcl. split.
  - intros Hmax. eexists. by apply (Release_eq a HI t _ Hi ct Hct c Hc).
  - intros a' cb Hrel.
    destruct (decide (c < INT_MAX)) as [Hmax|Hmax]; last first.
    { by rewrite (Release_overflow a t _ Hi ct Hct c Hc) in Hrel. }
    rewrite (Release_eq a HI t _ Hi ct Hct c Hc m Hmax) in Hrel.
    injection Hrel as <- _.
    assert (lock_time NThread a m (Z.to_nat t) ≤ c) as Hold.
    { unfold lock_time.
      destruct (good_subscript a (lock_vc_ a) (lock_name m) HI) as [Hlen Hdom].
      { by destruct HI. }
      destruct (subscript NThread (lock_vc_ a) (lock_name m) !! Z.to_nat t)
        as [l|] eqn:Hl; simpl.
      - rewrite <-Hcl. by apply Hdom.
      - pose proof (inv_own _ _ HI _ Hlt). lia. }
    unfold lock_time at 2. unfold subscript; simpl.
    rewrite lookup_insert_eq; simpl.
    rewrite list_lookup_insert_eq by (by eapply lookup_lt_Some). simpl. lia.
Qed.

(** ** Read after write, registration, bounds *)

Lemma not_Forall2_le (l k : list Z) :
  length l = length k →
  ¬ Forall2 Z.le l k ↔ ∃ u v w, l !! u = Some v ∧ k !! u = Some w ∧ w < v.
Proof.
  revert k. induction l as [|v l IH]; intros [|w k] Hlen; try done.
  - split; [intros []; constructor|]. by intros (u & ? & ? & ? & _).
  - injection Hlen as Hlen. rewrite Forall2_cons. split.
    + intros Hnot. destruct (decide (v ≤ w)) as [Hvw|Hvw].
      * assert (¬ Forall2 Z.le l k) as Hrec by tauto.
        apply (IH k Hlen) in Hrec as (u & v' & w' & Hv & Hw & Hlt).
        by exists (S u), v', w'.
      * exists 0%nat, v, w. split_and!; [done..|lia].
    + intros ([|u] & v' & w' & Hv & Hw & Hlt) [Hvw Hall]; simpl in *.
      * simplify_eq. lia.
      * apply (IH k Hlen); [|done]. by exists u, v', w'.
Qed.

(** C2, as the code has it.  After [Write(t, x)], an immediate [Read(t, x)]
    calls the read-violation handler exactly when a handler is installed and
    some other thread [u ≠ t] has [W[x][u] > C[t][u]]; the write the thread
    has just made never triggers the call. *)
Theorem read_after_write (a : Analyzer) (t : Z) (x : Variable_) :
  reachable NThread a → is_int t → 0 ≤ t < Z.of_nat NThread →
  ∃ a1 cb1 a2 cb2,
    Write NThread t x a = Ok (a1, cb1) ∧ Read NThread t x a1 = Ok (a2, cb2) ∧
    (ReadViolated t x ∈ cb2 ↔
       on_read_violated_ a = true ∧
       ∃ u w cu, u ≠ Z.to_nat t ∧
         subscript NThread (write_vc_ a) (var_name x) !! u = Some w ∧
         thread_vc_ a !! Z.to_nat t ≫= (.!! u) = Some cu ∧ cu < w).
Proof.
  intros HI%reachable_Inv Hint Ht.
  destruct (thread_in_range a t HI Hint Ht)
    as (i & ct & c & Hi & -> & Hlt & Hct & Hc & Hcl).
  set (wx0 := subscript NThread (write_vc_ a) (var_name x)).
  set (wx := <[Z.to_nat t := c]> wx0).
  destruct (Write NThread t x a) as [[a1 cb1]|] eqn:Hwr.
  2:{ rewrite (Write_eq a HI t _ Hi ct Hct c Hc) in Hwr. done. }
  pose proof (Write_Inv a a1 t x cb1 HI Hwr) as HI1.
  rewrite (Write_eq a HI t _ Hi ct Hct c Hc) in Hwr. fold wx0 wx in Hwr.
  assert (thread_vc_ a1 = thread_vc_ a ∧ on_read_violated_ a1 = on_read_violated_ a ∧
          write_vc_ a1 !! var_name x = Some wx) as (HT & HH & HW).
  { destruct (vc_leb wx ct); injection Hwr as <- _; simpl;
      by rewrite lookup_insert_eq. }
  rewrite <-HT in Hct.
  exists a1, cb1. eexists. eexists. split; [done|].
  split; [apply (Read_eq a1 HI1 t _ Hi ct Hct c Hc)|].
  unfold subscript at 1. rewrite HW, HH. simpl.
  rewrite HT in Hct. rewrite Hct. simpl.
  destruct (good_subscript a (write_vc_ a) (var_name x) HI) as [Hlen0 _].
  { by destruct HI. }
  fold wx0 in Hlen0.
  destruct (inv_thread_vc _ _ HI _ ct Hct) as [Hlenc _].
  assert (vc_leb wx ct = false ↔
          ∃ u w cu, u ≠ Z.to_nat t ∧ wx0 !! u = Some w ∧ ct !! u = Some cu ∧ cu < w)
    as Hleb.
  { unfold vc_leb. rewrite bool_decide_eq_false.
    rewrite not_Forall2_le by (unfold wx; rewrite length_insert; lia).
    split.
    - intros (u & w & cu & Hw & Hcu & Hlt'). exists u, w, cu.
      destruct (decide (u = Z.to_nat t)) as [->|Hne].
      + unfold wx in Hw. rewrite list_lookup_insert_eq in Hw by lia.
        simplify_eq. lia.
      + unfold wx in Hw. by rewrite list_lookup_insert_ne in Hw by done.
    - intros (u & w & cu & Hne & Hw & Hcu & Hlt'). exists u, w, cu.
      unfold wx. by rewrite list_lookup_insert_ne by done. }
  rewrite <-Hleb.
  destruct (vc_leb wx ct), (on_read_violated_ a); simpl;
    (split; [intros Hin|intros [? ?]]); try done;
    try (by apply elem_of_nil in Hin); by constructor.
Qed.

(** What [Register] does for an entity registered before: both [emplace]
    calls find the key, [push_back] appends all the same. *)
Lemma Register_registered (a : Analyzer) :
  Inv NThread a →
  (∀ x, x ∈ variables_ a →
     RegisterVariable NThread x a = set_variables_ (variables_ a ++ [x]) a) ∧
  (∀ m, m ∈ locks_ a →
     RegisterLock NThread m a = set_locks_ (locks_ a ++ [m]) a).
Proof.
  intros HI. split.
  - intros x [[rx Hr] [wx Hw]]%(inv_variables _ _ HI).
    unfold RegisterVariable, emplace; simpl. by rewrite Hr, Hw.
  - intros m [lm Hl]%(inv_locks _ _ HI).
    unfold RegisterLock, emplace; simpl. by rewrite Hl.
Qed.

(** C5, as the code has it.  Registering a variable (a lock) that is already
    registered changes no member of the analyzer but the list
    [GetVariables()] ([GetLocks()]) returns: every clock, both handlers and
    the other list are as before. *)
Theorem Register_again (a : Analyzer) :
  reachable NThread a →
  (∀ x, x ∈ GetVariables a →
     set_variables_ (GetVariables a) (RegisterVariable NThread x a) = a) ∧
  (∀ m, m ∈ GetLocks a →
     set_locks_ (GetLocks a) (RegisterLock NThread m a) = a).
Proof.
  intros HI%reachable_Inv. destruct (Register_registered a HI) as [Hvar Hlock].
  unfold GetVariables, GetLocks. split.
  - intros x Hx. rewrite (Hvar x Hx). by destruct a.
  - intros m Hm. rewrite (Hlock m Hm). by destruct a.
Qed.

Lemma thread_out_of_range (a : Analyzer) (t : Z) :
  Inv NThread a → is_int t → Z.of_nat NThread ≤ 2 ^ 63 →
  ¬ 0 ≤ t < Z.of_nat NThread →
  index (thread_vc_ a) (to_size_t t) = Err OutOfBounds.
Proof.
  intros HI Hint HN Ht. unfold index. rewrite decide_False; [done|].
  rewrite (inv_threads _ _ HI). by rewrite to_size_t_in_range.
Qed.

(** C10.  The four event operations index [thread_vc_] and the clocks with
    the thread id they are given and check nothing: in a reachable state
    they stay clear of an out-of-bounds access exactly when
    [0 ≤ t < NThread]. *)
Theorem thread_index_in_bounds (a : Analyzer) (t : Z) (x : Variable_) (m : Lock) :
  reachable NThread a → is_int t → Z.of_nat NThread ≤ 2 ^ 63 →
  (0 ≤ t < Z.of_nat NThread ↔ Read NThread t x a ≠ Err OutOfBounds) ∧
  (0 ≤ t < Z.of_nat NThread ↔ Write NThread t x a ≠ Err OutOfBounds) ∧
  (0 ≤ t < Z.of_nat NThread ↔ Acquire NThread t m a ≠ Err OutOfBounds) ∧
  (0 ≤ t < Z.of_nat NThread ↔ Release t m a ≠ Err OutOfBounds).
Proof.
  intros HI%reachable_Inv Hint HN.
  destruct (decide (0 ≤ t < Z.of_nat NThread)) as [Ht|Ht].
  - destruct (thread_in_range a t HI Hint Ht)
      as (i & ct & c & Hi & _ & Hlt & Hct & Hc & Hcl).
    rewrite (Read_eq a HI t i Hi ct Hct c Hc).
    rewrite (Write_eq a HI t i Hi ct Hct c Hc).
    rewrite (Acquire_eq a HI t i Hi ct Hct c Hc).
    split_and!; (split; [intros _|done]); try done.
    destruct (decide (c < INT_MAX)) as [Hmax|Hmax].
    + by rewrite (Release_eq a HI t i Hi ct Hct c Hc m Hmax).
    + by rewrite (Release_overflow a t i Hi ct Hct c Hc m Hmax).
  - pose proof (thread_out_of_range a t HI Hint HN Ht) as Hoob.
    unfold Read, Write, Acquire, Release; simpl. rewrite Hoob; simpl.
    split_and!; (split; [done|by intros []]).
Qed.

End WithNThread.

(** ** The model of [main.cpp] *)

Lemma main_analyzer_reachable : reachable kNumThread main_analyzer.
Proof.
  apply (run_reachable kNumThread
           [set_rd_handler true; set_wr_handler true; reg_var x; reg_lock m]
           (Analyzer_new kNumThread) main_analyzer []).
  - apply reachable_new.
  - reflexivity.
Qed.

Lemma after_foreign_write_reachable : reachable kNumThread after_foreign_write.
Proof.
  apply (reachable_step kNumThread (wr 1 x) main_analyzer after_foreign_write []).
  - apply main_analyzer_reachable.
  - vm_compute. reflexivity.
Qed.

(** C1 (scenario S2).  From [C[0] = <1,0>], [C[1] = <0,1>],
    [R[x] = W[x] = L[m] = <0,0>], the lock-protected event sequence calls no
    violation handler and ends with [L[m] = <2,2>], [C[0] = <2,0>] and
    [C[1] = <2,2>]. *)
Theorem scenario_S2 :
  (GetThreadVC 0 main_analyzer = Ok [1; 0] ∧
   GetThreadVC 1 main_analyzer = Ok [0; 1] ∧
   GetReadVC x main_analyzer = Ok [0; 0] ∧
   GetWriteVC x main_analyzer = Ok [0; 0] ∧
   GetLockVC m main_analyzer = Ok [0; 0]) ∧
  ∃ a, run kNumThread protected_events main_analyzer = Ok (a, []) ∧
       GetLockVC m a = Ok [2; 2] ∧
       GetThreadVC 0 a = Ok [2; 0] ∧
       GetThreadVC 1 a = Ok [2; 2].
Proof.
  split; [by vm_compute|].
  eexists. split; [vm_compute; reflexivity|]. by vm_compute.
Qed.

(** C2 as stated fails: after thread 1 has written [x] without
    synchronisation, thread 0 writes [x] and then reads it at once, and the
    read is reported. *)
Lemma read_after_write_reported :
  ¬ ∀ (a a1 a2 : Analyzer) (t : Z) (x : Variable_) (cb1 cb2 : list Callback),
      reachable kNumThread a → x ∈ GetVariables a →
      Write kNumThread t x a = Ok (a1, cb1) →
      Read kNumThread t x a1 = Ok (a2, cb2) →
      ReadViolated t x ∉ cb2.
Proof.
  intros Hclaim.
  destruct (Write kNumThread 0 x after_foreign_write) as [[a1 cb1]|] eqn:Hwr;
    [|by vm_compute in Hwr].
  destruct (Read kNumThread 0 x a1) as [[a2 cb2]|] eqn:Hrd.
  - apply (Hclaim after_foreign_write a1 a2 0 x cb1 cb2);
      [apply after_foreign_write_reachable|by vm_compute; constructor|done..|].
    vm_compute in Hwr. injection Hwr as <- <-.
    vm_compute in Hrd. injection Hrd as <- <-. by constructor.
  - vm_compute in Hwr. injection Hwr as <- <-. by vm_compute in Hrd.
Qed.

Lemma read_after_write_witness :
  reachable kNumThread after_foreign_write ∧ is_int 0 ∧ 0 ≤ 0 < Z.of_nat kNumThread ∧
  ∃ a1 cb1 a2 cb2,
    Write kNumThread 0 x after_foreign_write = Ok (a1, cb1) ∧
    Read kNumThread 0 x a1 = Ok (a2, cb2) ∧
    (ReadViolated 0 x ∈ cb2 ↔
       on_read_violated_ after_foreign_write = true ∧
       ∃ u w cu, u ≠ Z.to_nat 0 ∧
         subscript kNumThread (write_vc_ after_foreign_write) (var_name x) !! u = Some w ∧
         thread_vc_ after_foreign_write !! Z.to_nat 0 ≫= (.!! u) = Some cu ∧ cu < w).
Proof.
  split; [apply after_foreign_write_reachable|].
  split; [by vm_compute|]. split; [by vm_compute|].
  apply (read_after_write kNumThread after_foreign_write 0 x).
  - apply after_foreign_write_reachable.
  - by vm_compute.
  - by vm_compute.
Defined.

Lemma written_and_released_by_0_reachable :
  reachable kNumThread written_and_released_by_0.
Proof.
  apply (run_reachable kNumThread [wr 0 x; rel 0 m] main_analyzer
           written_and_released_by_0 []).
  - apply main_analyzer_reachable.
  - vm_compute. reflexivity.
Qed.

Lemma access_clocks_bounded_witness :
  reachable kNumThread written_and_released_by_0 ∧
  (GetReadVC x written_and_released_by_0 = Ok [1; 0] ∨
   GetWriteVC x written_and_released_by_0 = Ok [1; 0]) ∧
  GetThreadVC 0 written_and_released_by_0 = Ok [2; 0] ∧
  index [1; 0] (to_size_t 0) = Ok 1 ∧
  index [2; 0] (to_size_t 0) = Ok 2 ∧
  1 ≤ 2.
Proof.
  assert (GetReadVC x written_and_released_by_0 = Ok [1; 0] ∨
          GetWriteVC x written_and_released_by_0 = Ok [1; 0]) as Hvc
    by (right; reflexivity).
  split_and!; [apply written_and_released_by_0_reachable|done|reflexivity..|].
  apply (access_clocks_bounded kNumThread written_and_released_by_0 x 0
           [1; 0] [2; 0] 1 2).
  - apply written_and_released_by_0_reachable.
  - exact Hvc.
  - reflexivity.
  - reflexivity.
  - reflexivity.
Defined.

Lemma Release_monotonic_witness :
  reachable kNumThread main_analyzer ∧ is_int 0 ∧ 0 ≤ 0 < Z.of_nat kNumThread ∧
  (clock main_analyzer (Z.to_nat 0) < INT_MAX →
     ∃ a', Release 0 m main_analyzer = Ok (a', [])) ∧
  (∀ a' cb, Release 0 m main_analyzer = Ok (a', cb) →
     lock_time kNumThread main_analyzer m (Z.to_nat 0)
       < lock_time kNumThread a' m (Z.to_nat 0)).
Proof.
  split; [apply main_analyzer_reachable|].
  split; [by vm_compute|]. split; [by vm_compute|].
  apply (Release_monotonic kNumThread main_analyzer 0 m).
  - apply main_analyzer_reachable.
  - by vm_compute.
  - by vm_compute.
Defined.

(** C5 as stated fails: registering [x] a second time changes what
    [GetVariables()] returns. *)
Lemma Register_again_changes_state :
  ¬ ∀ (a : Analyzer) (x : Variable_),
      reachable kNumThread a → x ∈ GetVariables a →
      RegisterVariable kNumThread x a = a.
Proof.
  intros Hclaim.
  specialize (Hclaim main_analyzer x main_analyzer_reachable).
  assert (GetVariables (RegisterVariable kNumThread x main_analyzer)
          = GetVariables main_analyzer) as Heq.
  { rewrite Hclaim; [done|]. by vm_compute; constructor. }
  by vm_compute in Heq.
Qed.

Lemma Register_again_witness :
  reachable kNumThread main_analyzer ∧
  (∀ x, x ∈ GetVariables main_analyzer →
     set_variables_ (GetVariables main_analyzer)
       (RegisterVariable kNumThread x main_analyzer) = main_analyzer) ∧
  (∀ m, m ∈ GetLocks main_analyzer →
     set_locks_ (GetLocks main_analyzer)
       (RegisterLock kNumThread m main_analyzer) = main_analyzer).
Proof.
  split; [apply main_analyzer_reachable|].
  apply (Register_again kNumThread main_analyzer).
  apply main_analyzer_reachable.
Defined.

Lemma thread_index_in_bounds_witness :
  reachable kNumThread main_analyzer ∧ is_int 2 ∧ Z.of_nat kNumThread ≤ 2 ^ 63 ∧
  (0 ≤ 2 < Z.of_nat kNumThread ↔ Read kNumThread 2 x main_analyzer ≠ Err OutOfBounds) ∧
  (0 ≤ 2 < Z.of_nat kNumThread ↔ Write kNumThread 2 x main_analyzer ≠ Err OutOfBounds) ∧
  (0 ≤ 2 < Z.of_nat kNumThread ↔ Acquire kNumThread 2 m main_analyzer ≠ Err OutOfBounds) ∧
  (0 ≤ 2 < Z.of_nat kNumThread ↔ Release 2 m main_analyzer ≠ Err OutOfBounds).
Proof.
  split; [apply main_analyzer_reachable|].
  split; [by vm_compute|]. split; [by vm_compute|].
  apply (thread_index_in_bounds kNumThread main_analyzer 2 x m).
  - apply main_analyzer_reachable.
  - by vm_compute.
  - by vm_compute.
Defined.

End FixedProofs.

Module PintoolProofs.
Import Pintool.

(** ** Sparse clocks *)

Lemma entries_Permutation (vc : VC) : entries vc ≡ₚ map_to_list vc.
Proof. apply merge_sort_Permutation. Qed.

Lemma elem_of_entries (vc : VC) (k : N) (v : Z) :
  (k, v) ∈ entries vc ↔ vc !! k = Some v.
Proof. by rewrite entries_Permutation, elem_of_map_to_list. Qed.

Lemma NoDup_entries (vc : VC) : NoDup (entries vc).*1.
Proof. rewrite entries_Permutation. apply NoDup_fst_map_to_list. Qed.

Lemma list_to_map_entries (vc : VC) : list_to_map (entries vc) = vc.
Proof.
  rewrite <-(list_to_map_to_list vc) at 2.
  apply list_to_map_proper; [apply NoDup_entries|apply entries_Permutation].
Qed.

(** C6.  On [a = {0 ↦ 0}] and [b = {}] the comparison [a <= b] reads
    [it->second] of the [end()] iterator instead of returning [true]. *)
Theorem vc_le_deref_end : vc_le {[0%N := 0]} ∅ = Err DerefEnd.
Proof. reflexivity. Qed.

(** Where [a <= b] does return, it returns the pointwise comparison, as long
    as [b] holds no negative time. *)
Lemma le_loop_sound (es : list (N * Z)) (rhs : VC) (r : bool) :
  le_loop es rhs = Ok r →
  (r = true ↔ ∀ k v, (k, v) ∈ es → v ≤ time rhs k).
Proof.
  induction es as [|[k v] es IH]; simpl.
  - intros [= <-]. split; [|done]. by intros _ k v ?%elem_of_nil.
  - unfold time in *. destruct (rhs !! k) as [w|] eqn:Hk.
    + case_decide as Hlt.
      * intros [= <-]. split; [done|]. intros Hall.
        specialize (Hall k v ltac:(by left)). rewrite Hk in Hall. simpl in Hall. lia.
      * intros Hr. rewrite (IH Hr). split.
        -- intros Hall k' v' [[= -> ->]|Hin]%elem_of_cons; [|by apply Hall].
           rewrite Hk. simpl. lia.
        -- intros Hall k' v' Hin. apply Hall. by right.
    + case_decide as Hpos; [|done].
      intros [= <-]. split; [done|]. intros Hall.
      specialize (Hall k v ltac:(by left)). rewrite Hk in Hall. simpl in Hall. lia.
Qed.

Lemma vc_le_sound (lhs rhs : VC) (r : bool) :
  (∀ k w, rhs !! k = Some w → 0 ≤ w) →
  vc_le lhs rhs = Ok r →
  (r = true ↔ ∀ t, time lhs t ≤ time rhs t).
Proof.
  intros Hpos Hr. rewrite (le_loop_sound _ _ _ Hr). split.
  - intros Hall t. unfold time at 1. destruct (lhs !! t) as [v|] eqn:Ht; simpl.
    + apply Hall. by apply elem_of_entries.
    + unfold time. destruct (rhs !! t) as [w|] eqn:Hw; simpl; [|done].
      by eapply Hpos.
  - intros Hall k v Hin%elem_of_entries. specialize (Hall k).
    unfold time at 1 in Hall. by rewrite Hin in Hall.
Qed.

(** [a <= b] returns as soon as every entry of [a] that [b] lacks is
    positive. *)
Lemma le_loop_defined (es : list (N * Z)) (rhs : VC) :
  (∀ k v, (k, v) ∈ es → rhs !! k = None → 0 < v) →
  ∃ r, le_loop es rhs = Ok r.
Proof.
  induction es as [|[k v] es IH]; simpl; intros Hes; [by eexists|].
  destruct (rhs !! k) as [w|] eqn:Hk.
  - case_decide; [by eexists|]. apply IH. intros k' v' Hin. apply Hes. by right.
  - rewrite decide_True; [by eexists|]. apply (Hes k v); [by left|done].
Qed.

Lemma vc_le_defined (lhs rhs : VC) :
  (∀ k v, lhs !! k = Some v → 0 < v) → ∃ r, vc_le lhs rhs = Ok r.
Proof.
  intros Hpos. apply le_loop_defined. intros k v Hin%elem_of_entries _.
  by eapply Hpos.
Qed.

(** [operator |=], entry by entry. *)
Lemma join_step_lookup (lhs : VC) (k0 : N) (v0 : Z) (k : N) :
  join_step lhs (k0, v0) !! k =
    if decide (k = k0) then Some (Z.max (time lhs k0) v0) else lhs !! k.
Proof.
  unfold join_step, vc_sub, time; simpl.
  destruct (lhs !! k0) as [c|] eqn:Hk0; simpl.
  - case_decide as Hlt.
    + rewrite lookup_insert. destruct (decide (k0 = k)) as [->|];
        [rewrite decide_True by done; f_equal; lia|by rewrite decide_False].
    + case_decide as Hk; [|done]. subst k. rewrite Hk0. f_equal. lia.
  - case_decide as Hlt.
    + rewrite lookup_insert. destruct (decide (k0 = k)) as [->|].
      * rewrite decide_True by done. f_equal. lia.
      * rewrite decide_False by done. by rewrite lookup_insert_ne.
    + rewrite lookup_insert. destruct (decide (k0 = k)) as [->|].
      * rewrite decide_True by done. f_equal. lia.
      * by rewrite decide_False.
Qed.

Lemma foldl_join_step_lookup (es : list (N * Z)) (lhs : VC) (k : N) :
  NoDup es.*1 →
  foldl join_step lhs es !! k =
    match (list_to_map es : VC) !! k with
    | Some v => Some (Z.max (time lhs k) v)
    | None => lhs !! k
    end.
Proof.
  revert lhs. induction es as [|[k0 v0] es IH]; intros lhs Hnd; simpl.
  - by rewrite lookup_empty.
  - apply NoDup_cons in Hnd as [Hk0 Hnd]. rewrite (IH _ Hnd).
    rewrite lookup_insert. unfold time. rewrite !join_step_lookup.
    destruct (decide (k0 = k)) as [->|Hne].
    + rewrite decide_True by done.
      by rewrite (not_elem_of_list_to_map_1 (M := gmap N) es k Hk0).
    + rewrite decide_False by done. done.
Qed.

Lemma vc_join_lookup (lhs rhs : VC) (k : N) :
  vc_join lhs rhs !! k =
    match rhs !! k with
    | Some v => Some (Z.max (time lhs k) v)
    | None => lhs !! k
    end.
Proof.
  unfold vc_join. rewrite foldl_join_step_lookup by apply NoDup_entries.
  by rewrite list_to_map_entries.
Qed.

Lemma vc_join_idemp (vc : VC) : vc_join vc vc = vc.
Proof.
  apply map_eq. intros k. rewrite vc_join_lookup. unfold time.
  destruct (vc !! k) as [v|]; simpl; [f_equal; lia|done].
Qed.

(** ** Closed forms of the routines on thread clocks *)

Ltac unfold_M := unfold mbind, M_bind, mret, M_ret, gets, modify, lift.

Lemma set_thread_vc_id (s : State) : set_thread_vc (thread_vc s) s = s.
Proof. by destruct s. Qed.

Lemma thread_vc_sub_eq (tid : THREADID) (s : State) :
  thread_vc_sub tid s =
    Ok (thread_clock_of s tid,
        set_thread_vc (<[tid := thread_clock_of s tid]> (thread_vc s)) s).
Proof.
  unfold thread_vc_sub, thread_clock_of.
  destruct (thread_vc s !! tid) as [vc|] eqn:Hk; simpl; [|done].
  by rewrite insert_id, set_thread_vc_id.
Qed.

Lemma thread_clock_of_insert (s s' : State) (k k' : THREADID) (vc : VC) :
  thread_vc s' = <[k := vc]> (thread_vc s) →
  thread_clock_of s' k' = if decide (k = k') then vc else thread_clock_of s k'.
Proof.
  intros Heq. unfold thread_clock_of. rewrite Heq, lookup_insert.
  by case_decide.
Qed.

Lemma thread_clock_eq (tid : THREADID) (s : State) :
  thread_clock tid s =
    Ok (own_clock s tid,
        set_thread_vc (<[tid := <[tid := own_clock s tid]> (thread_clock_of s tid)]>
                         (thread_vc s)) s).
Proof.
  unfold thread_clock. unfold_M. rewrite thread_vc_sub_eq.
  unfold own_clock, time, vc_sub, put_thread_vc, modify.
  destruct (thread_clock_of s tid !! tid) as [c|] eqn:Hc; simpl.
  - by rewrite insert_insert_eq, (insert_id (thread_clock_of s tid)).
  - by rewrite insert_insert_eq.
Qed.

Lemma incr_thread_clock_eq (tid : THREADID) (s : State) :
  incr_thread_clock tid s =
    if decide (own_clock s tid < INT_MAX) then
      Ok ((), set_thread_vc
                (<[tid := <[tid := own_clock s tid + 1]> (thread_clock_of s tid)]>
                   (thread_vc s)) s)
    else Err SignedOverflow.
Proof.
  unfold incr_thread_clock. unfold_M. rewrite thread_clock_eq.
  unfold incr_int. case_decide; [|done].
  rewrite thread_vc_sub_eq. unfold put_thread_vc, modify. simpl.
  unfold thread_clock_of at 1 2. simpl. rewrite lookup_insert_eq. simpl.
  by rewrite !insert_insert_eq.
Qed.

Lemma join_thread_vc_eq (lhs rhs : THREADID) (s : State) :
  join_thread_vc lhs rhs s =
    Ok ((), set_thread_vc
              (<[lhs := vc_join (thread_clock_of s lhs) (thread_clock_of s rhs)]>
                 (<[rhs := thread_clock_of s rhs]> (thread_vc s))) s).
Proof.
  unfold join_thread_vc. unfold_M. rewrite !thread_vc_sub_eq.
  unfold put_thread_vc, modify. simpl. rewrite insert_insert_eq.
  rewrite (thread_clock_of_insert s _ rhs lhs (thread_clock_of s rhs)) by done.
  case_decide as Heq; [|done]. by subst lhs.
Qed.

(** ** Fork and join *)

Lemma Fork_closed (tid : THREADID) (thread_obj : N) (s : State) :
  let u := ((last_id s + 1) `mod` 2 ^ 32)%N in
  let Ct := thread_clock_of s tid in
  let Cu := thread_clock_of s u in
  let tv := <[u := vc_join Cu Ct]> (<[tid := Ct]> (thread_vc s)) in
  let Ct' := default {[tid := 1]} (tv !! tid) in
  Fork tid thread_obj s =
    if decide (time Ct' tid < INT_MAX) then
      Ok ((), mkState (<[tid := <[tid := time Ct' tid + 1]> Ct']> tv)
                      (read_vc s) (write_vc s) (lock_vc s)
                      (<[thread_obj := u]> (thread_to_id s)) u (out s) (cout s))
    else Err SignedOverflow.
Proof.
  intros u Ct Cu tv Ct'. unfold Fork. unfold_M. simpl.
  rewrite join_thread_vc_eq. simpl. rewrite incr_thread_clock_eq.
  unfold own_clock, thread_clock_of. simpl. fold u.
  change (default {[u := 1]} (thread_vc s !! u)) with Cu.
  change (default {[tid := 1]} (thread_vc s !! tid)) with Ct.
  fold tv. fold Ct'. by case_decide.
Qed.

Lemma vc_join_fresh (u : THREADID) (vc : VC) :
  vc !! u = None → (∀ k v, vc !! k = Some v → 0 ≤ v) →
  vc_join {[u := 1]} vc = <[u := 1]> vc.
Proof.
  intros Hu Hpos. apply map_eq. intros k. rewrite vc_join_lookup. unfold time.
  destruct (decide (k = u)) as [->|Hne].
  - by rewrite Hu, lookup_singleton_eq, lookup_insert_eq.
  - rewrite lookup_singleton_ne, lookup_insert_ne by done. simpl.
    destruct (vc !! k) as [v|] eqn:Hk; [|done].
    specialize (Hpos k v Hk). f_equal. lia.
Qed.

(** [Fork] when the id it takes has not been seen. *)
Lemma Fork_fresh (tid : THREADID) (thread_obj : N) (s : State) :
  let u := ((last_id s + 1) `mod` 2 ^ 32)%N in
  let Ct := thread_clock_of s tid in
  thread_vc s !! u = None → Ct !! u = None → tid ≠ u →
  (∀ k v, Ct !! k = Some v → 0 ≤ v) →
  own_clock s tid < INT_MAX →
  Fork tid thread_obj s =
    Ok ((), mkState (<[tid := <[tid := own_clock s tid + 1]> Ct]>
                       (<[u := <[u := 1]> Ct]> (thread_vc s)))
                    (read_vc s) (write_vc s) (lock_vc s)
                    (<[thread_obj := u]> (thread_to_id s)) u (out s) (cout s)).
Proof.
  intros u Ct Hfresh Hu Hne Hpos Hmax. rewrite Fork_closed. fold u. fold Ct.
  assert (thread_clock_of s u = {[u := 1]}) as ->.
  { unfold thread_clock_of. by rewrite Hfresh. }
  rewrite lookup_insert_ne, lookup_insert_eq by done. simpl.
  change (time Ct tid) with (own_clock s tid).
  rewrite decide_True by done. rewrite vc_join_fresh by done.
  do 2 f_equal. f_equal.
  rewrite (insert_insert_ne _ u tid) by done. by rewrite insert_insert_eq.
Qed.

Lemma Join_closed (tid : THREADID) (thread_obj : N) (s : State) :
  let join_id := default 0%N (thread_to_id s !! thread_obj) in
  let Ct := thread_clock_of s tid in
  let Cj := thread_clock_of s join_id in
  Join tid thread_obj s =
    if decide (own_clock s join_id < INT_MAX) then
      Ok ((), mkState (<[join_id := <[join_id := own_clock s join_id + 1]> Cj]>
                         (<[tid := vc_join Ct Cj]> (thread_vc s)))
                      (read_vc s) (write_vc s) (lock_vc s)
                      (<[thread_obj := join_id]> (thread_to_id s)) (last_id s)
                      (out s) (cout s))
    else Err SignedOverflow.
Proof.
  intros j Ct Cj. unfold Join. unfold_M. simpl. fold j.
  rewrite join_thread_vc_eq. simpl. rewrite incr_thread_clock_eq.
  unfold own_clock, thread_clock_of. simpl.
  change (default {[j := 1]} (thread_vc s !! j)) with Cj.
  change (default {[tid := 1]} (thread_vc s !! tid)) with Ct.
  destruct (decide (tid = j)) as [->|Hne].
  - rewrite lookup_insert_eq. simpl. subst Ct. rewrite vc_join_idemp.
    case_decide; [|done]. by rewrite !insert_insert_eq.
  - rewrite lookup_insert_ne, lookup_insert_eq by done. simpl.
    case_decide; [|done]. do 2 f_equal. f_equal.
    rewrite (insert_insert_ne _ tid j) by done. by rewrite insert_insert_eq.
Qed.

(** C8, as the code has it.  A join whose handle no fork has bound is not
    dropped: [thread_to_id[thread_obj]] binds the handle to thread id 0 and
    the join goes on as a join of thread 0, [C[t] ← C[t] ⊔ C[0]] and
    [C[0][0]] incremented; [Join] writes to neither output stream. *)
Theorem Join_unknown_handle (s : State) (tid : THREADID) (thread_obj : N) :
  thread_to_id s !! thread_obj = None →
  own_clock s 0 < INT_MAX →
  ∃ s', Join tid thread_obj s = Ok ((), s') ∧
    thread_to_id s' = <[thread_obj := 0%N]> (thread_to_id s) ∧
    thread_vc s' =
      <[0%N := <[0%N := own_clock s 0 + 1]> (thread_clock_of s 0)]>
        (<[tid := vc_join (thread_clock_of s tid) (thread_clock_of s 0)]>
           (thread_vc s)) ∧
    read_vc s' = read_vc s ∧ write_vc s' = write_vc s ∧
    lock_vc s' = lock_vc s ∧ last_id s' = last_id s ∧
    out s' = out s ∧ cout s' = cout s.
Proof.
  intros Hh Hmax. rewrite Join_closed, Hh. simpl.
  rewrite decide_True by done. eexists. split; [done|]. by simpl.
Qed.

(** ** Event streams whose thread ids come from [Fork] *)

Lemma hoare_bind {A B} (P : State → Prop) (m : M A) (Q : A → State → Prop)
    (f : A → M B) (R : B → State → Prop) :
  hoare P m Q → (∀ a, hoare (Q a) (f a) R) → hoare P (m ≫= f) R.
Proof.
  intros Hm Hf s b s' HP. unfold mbind, M_bind.
  destruct (m s) as [[a s1]|] eqn:Hms; [|done].
  intros Hfs. eapply Hf; [|done]. by eapply Hm.
Qed.

Lemma hoare_ret {A} (P : State → Prop) (a : A) (Q : A → State → Prop) :
  (∀ s, P s → Q a s) → hoare P (mret a) Q.
Proof. intros HPQ s a' s' HP [= <- <-]. by apply HPQ. Qed.

Lemma hoare_gets {A} (P : State → Prop) (f : State → A) (Q : A → State → Prop) :
  (∀ s, P s → Q (f s) s) → hoare P (gets f) Q.
Proof. intros HPQ s a' s' HP [= <- <-]. by apply HPQ. Qed.

Lemma hoare_modify (P : State → Prop) (f : State → State) (Q : unit → State → Prop) :
  (∀ s, P s → Q () (f s)) → hoare P (modify f) Q.
Proof. intros HPQ s a' s' HP [= <- <-]. by apply HPQ. Qed.

Lemma hoare_lift {A} (P : State → Prop) (r : result A) (Q : A → State → Prop) :
  (∀ s a, P s → r = Ok a → Q a s) → hoare P (lift r) Q.
Proof.
  intros HPQ s a' s' HP. unfold lift. destruct r as [a|]; [|done].
  intros [= <- <-]. by apply HPQ.
Qed.

Lemma hoare_weaken {A} (P P' : State → Prop) (m : M A) (Q Q' : A → State → Prop) :
  hoare P' m Q' → (∀ s, P s → P' s) → (∀ a s, Q' a s → Q a s) → hoare P m Q.
Proof. intros Hm HP HQ s a s' Hs Hms. apply HQ. eapply Hm; [|done]. by apply HP. Qed.

Lemma vc_ok_mono (b b' : N) (vc : VC) : (b ≤ b')%N → vc_ok b vc → vc_ok b' vc.
Proof. intros Hb Hvc j v Hj. destruct (Hvc j v Hj). split; [lia|done]. Qed.

Lemma thread_vc_ok_mono (b b' : N) (k : THREADID) (vc : VC) :
  (b ≤ b')%N → thread_vc_ok b k vc → thread_vc_ok b' k vc.
Proof.
  intros Hb (Hk & Hown & Hvc). split_and!; [lia|done|by eapply vc_ok_mono].
Qed.

Lemma thread_vc_ok_new (b : N) (k : THREADID) :
  (k ≤ b)%N → thread_vc_ok b k {[k := 1]}.
Proof.
  intros Hk. split_and!; [done|by rewrite lookup_singleton_eq|].
  intros j v [-> <-]%lookup_singleton_Some. done.
Qed.

Lemma thread_clock_of_ok (b : N) (s : State) (tid : THREADID) :
  inv b s → (tid ≤ b)%N → thread_vc_ok b tid (thread_clock_of s tid).
Proof.
  intros [<- HI] Htid. unfold thread_clock_of.
  destruct (thread_vc s !! tid) as [vc|] eqn:Hvc; simpl.
  - by eapply fork_inv_thread.
  - by apply thread_vc_ok_new.
Qed.

Lemma vc_join_ok (b : N) (k : THREADID) (lhs rhs : VC) :
  thread_vc_ok b k lhs → vc_ok b rhs → thread_vc_ok b k (vc_join lhs rhs).
Proof.
  intros (Hk & [c Hown] & Hl) Hr. split_and!; [done| |].
  - rewrite vc_join_lookup, Hown. by destruct (rhs !! k).
  - intros j v. rewrite vc_join_lookup. unfold time.
    destruct (rhs !! j) as [w|] eqn:Hw; [|apply Hl].
    intros [= <-]. destruct (Hr j w Hw) as [Hj Hpos]. split; [done|lia].
Qed.

Lemma incr_ok (b : N) (k : THREADID) (vc : VC) :
  thread_vc_ok b k vc → thread_vc_ok b k (<[k := time vc k + 1]> vc).
Proof.
  intros (Hk & [c Hown] & Hvc). split_and!; [done|by rewrite lookup_insert_eq|].
  intros j v. rewrite lookup_insert. case_decide as Hj; [|apply Hvc].
  subst j. intros [= <-]. unfold time. rewrite Hown. simpl.
  destruct (Hvc k c Hown). split; [done|lia].
Qed.

Lemma inv_set_thread (b : N) (s : State) (tid : THREADID) (vc : VC) :
  inv b s → thread_vc_ok b tid vc →
  inv b (set_thread_vc (<[tid := vc]> (thread_vc s)) s).
Proof.
  intros [<- [Ht Hl Hh]] Hvc. split; [done|]. split; simpl; [|done..].
  intros k vc'. rewrite lookup_insert. case_decide as Hk; [|apply Ht].
  subst k. by intros [= <-].
Qed.

Lemma inv_set_lock (b : N) (s : State) (m : ADDRINT) (vc : VC) :
  inv b s → vc_ok b vc → inv b (set_lock_vc (<[m := vc]> (lock_vc s)) s).
Proof.
  intros [<- [Ht Hl Hh]] Hvc. split; [done|]. split; simpl; [done| |done].
  intros k vc'. rewrite lookup_insert. case_decide as Hk; [|apply Hl].
  by intros [= <-].
Qed.

Lemma hoare_thread_vc_sub (b : N) (tid : THREADID) :
  (tid ≤ b)%N →
  hoare (inv b) (thread_vc_sub tid) (λ vc s, inv b s ∧ thread_vc_ok b tid vc).
Proof.
  intros Htid s vc s' HI. rewrite thread_vc_sub_eq. intros [= <- <-].
  pose proof (thread_clock_of_ok b s tid HI Htid). split; [|done].
  by apply inv_set_thread.
Qed.

Lemma hoare_lock_vc_sub (b : N) (m : ADDRINT) :
  hoare (inv b) (lock_vc_sub m) (λ vc s, inv b s ∧ vc_ok b vc).
Proof.
  intros s vc s' HI. unfold lock_vc_sub, table_sub.
  destruct (lock_vc s !! m) as [vc'|] eqn:Hm; intros [= <- <-].
  - split; [by destruct s|]. destruct HI as [<- HI]. by eapply fork_inv_lock.
  - split; [by apply inv_set_lock|done].
Qed.

Lemma hoare_read_vc_sub (b : N) (x : ADDRINT) :
  hoare (inv b) (read_vc_sub x) (λ _ s, inv b s).
Proof.
  intros s vc s' [<- [Ht Hl Hh]]. unfold read_vc_sub.
  destruct (table_sub (read_vc s) x) as [m vc']. by intros [= <- <-].
Qed.

Lemma hoare_write_vc_sub (b : N) (x : ADDRINT) :
  hoare (inv b) (write_vc_sub x) (λ _ s, inv b s).
Proof.
  intros s vc s' [<- [Ht Hl Hh]]. unfold write_vc_sub.
  destruct (table_sub (write_vc s) x) as [m vc']. by intros [= <- <-].
Qed.

Lemma hoare_put_thread_vc (b : N) (tid : THREADID) (vc : VC) :
  thread_vc_ok b tid vc → hoare (inv b) (put_thread_vc tid vc) (λ _ s, inv b s).
Proof. intros Hvc. apply hoare_modify. intros s HI. by apply inv_set_thread. Qed.

Lemma hoare_put_lock_vc (b : N) (m : ADDRINT) (vc : VC) :
  vc_ok b vc → hoare (inv b) (put_lock_vc m vc) (λ _ s, inv b s).
Proof. intros Hvc. apply hoare_modify. intros s HI. by apply inv_set_lock. Qed.

Lemma hoare_put_read_vc (b : N) (x : ADDRINT) (vc : VC) :
  hoare (inv b) (put_read_vc x vc) (λ _ s, inv b s).
Proof. apply hoare_modify. by intros s [<- [Ht Hl Hh]]. Qed.

Lemma hoare_put_write_vc (b : N) (x : ADDRINT) (vc : VC) :
  hoare (inv b) (put_write_vc x vc) (λ _ s, inv b s).
Proof. apply hoare_modify. by intros s [<- [Ht Hl Hh]]. Qed.

Lemma hoare_print (b : N) (msg : Message) :
  hoare (inv b) (print msg) (λ _ s, inv b s).
Proof. apply hoare_modify. by intros s [<- [Ht Hl Hh]]. Qed.

Lemma hoare_thread_clock (b : N) (tid : THREADID) :
  (tid ≤ b)%N → hoare (inv b) (thread_clock tid) (λ _ s, inv b s).
Proof.
  intros Htid s c s' HI. rewrite thread_clock_eq. intros [= <- <-].
  apply inv_set_thread; [done|].
  destruct (thread_clock_of_ok b s tid HI Htid) as (Hk & [c Hown] & Hvc).
  unfold own_clock, time. rewrite Hown. simpl. rewrite insert_id by done.
  split_and!; [done|by exists c|done].
Qed.

Lemma hoare_incr_thread_clock (b : N) (tid : THREADID) :
  (tid ≤ b)%N → hoare (inv b) (incr_thread_clock tid) (λ _ s, inv b s).
Proof.
  intros Htid s [] s' HI. rewrite incr_thread_clock_eq.
  case_decide; [|done]. intros [= <-].
  apply inv_set_thread; [done|]. by apply incr_ok, thread_clock_of_ok.
Qed.

Lemma hoare_join_thread_vc (b : N) (lhs rhs : THREADID) :
  (lhs ≤ b)%N → (rhs ≤ b)%N →
  hoare (inv b) (join_thread_vc lhs rhs) (λ _ s, inv b s).
Proof.
  intros Hl Hr s [] s' HI. rewrite join_thread_vc_eq. intros [= <-].
  pose proof (thread_clock_of_ok b s lhs HI Hl) as Hlhs.
  pose proof (thread_clock_of_ok b s rhs HI Hr) as Hrhs.
  apply (inv_set_thread b (set_thread_vc _ s)).
  - by apply inv_set_thread.
  - apply vc_join_ok; [done|]. by destruct Hrhs as (_ & _ & ?).
Qed.

Lemma hoare_Read (b : N) (tid : THREADID) (x : ADDRINT) :
  (tid ≤ b)%N → hoare (inv b) (Read tid x) (λ _ s, inv b s).
Proof.
  intros Htid. unfold Read.
  eapply hoare_bind; [by apply hoare_thread_clock|intros c].
  eapply hoare_bind; [apply hoare_read_vc_sub|intros rx].
  apply hoare_put_read_vc.
Qed.

Lemma hoare_Write (b : N) (tid : THREADID) (x : ADDRINT) :
  (tid ≤ b)%N → hoare (inv b) (Write tid x) (λ _ s, inv b s).
Proof.
  intros Htid. unfold Write.
  eapply hoare_bind; [by apply hoare_thread_clock|intros c].
  eapply hoare_bind; [apply hoare_write_vc_sub|intros wx].
  apply hoare_put_write_vc.
Qed.

Lemma hoare_drop {A} (b : N) (m : M A) (P : A → State → Prop) :
  hoare (inv b) m (λ a s, inv b s ∧ P a s) → hoare (inv b) m (λ _ s, inv b s).
Proof. intros Hm. eapply hoare_weaken; [exact Hm|done|]. by intros a s [? _]. Qed.

Lemma hoare_any {A} (b : N) (r : result A) :
  hoare (inv b) (lift r) (λ _ s, inv b s).
Proof. apply hoare_lift. by intros. Qed.

Lemma hoare_NoRaceForWrite (b : N) (tid : THREADID) (x : ADDRINT) :
  (tid ≤ b)%N → hoare (inv b) (NoRaceForWrite tid x) (λ _ s, inv b s).
Proof.
  intros Htid. unfold NoRaceForWrite.
  eapply hoare_bind; [apply hoare_read_vc_sub|intros rx].
  eapply hoare_bind; [by eapply hoare_drop, hoare_thread_vc_sub|intros ct].
  eapply hoare_bind; [apply hoare_any|intros [|]].
  - eapply hoare_bind; [apply hoare_write_vc_sub|intros wx].
    eapply hoare_bind; [by eapply hoare_drop, hoare_thread_vc_sub|intros ct'].
    apply hoare_any.
  - by apply hoare_ret.
Qed.

Lemma hoare_NoRaceForRead (b : N) (tid : THREADID) (x : ADDRINT) :
  (tid ≤ b)%N → hoare (inv b) (NoRaceForRead tid x) (λ _ s, inv b s).
Proof.
  intros Htid. unfold NoRaceForRead.
  eapply hoare_bind; [apply hoare_write_vc_sub|intros wx].
  eapply hoare_bind; [by eapply hoare_drop, hoare_thread_vc_sub|intros ct].
  apply hoare_any.
Qed.

Lemma hoare_CheckOverflow (b : N) (tid : THREADID) (ins_addr mem_addr : ADDRINT)
    (is_write : bool) :
  (tid ≤ b)%N →
  hoare (inv b) (CheckOverflow tid ins_addr mem_addr is_write) (λ _ s, inv b s).
Proof.
  intros Htid. unfold CheckOverflow.
  eapply hoare_bind with (Q := λ _ s, inv b s);
    [by apply hoare_gets|intros [|]]; [|by apply hoare_ret].
  eapply hoare_bind; [|intros ?; apply hoare_print].
  destruct is_write.
  - eapply hoare_bind; [by apply hoare_Write|intros ?].
    eapply hoare_bind; [by apply hoare_NoRaceForWrite|intros [|]];
      [by apply hoare_ret|].
    eapply hoare_bind; [by eapply hoare_drop, hoare_thread_vc_sub|intros C].
    eapply hoare_bind; [apply hoare_read_vc_sub|intros R].
    eapply hoare_bind; [apply hoare_write_vc_sub|intros W].
    apply hoare_print.
  - eapply hoare_bind; [by apply hoare_Read|intros ?].
    eapply hoare_bind; [by apply hoare_NoRaceForRead|intros [|]];
      [by apply hoare_ret|].
    eapply hoare_bind; [by eapply hoare_drop, hoare_thread_vc_sub|intros C].
    eapply hoare_bind; [apply hoare_write_vc_sub|intros W].
    apply hoare_print.
Qed.

Lemma hoare_Aquire (b : N) (tid : THREADID) (m : ADDRINT) :
  (tid ≤ b)%N → hoare (inv b) (Aquire tid m) (λ _ s, inv b s).
Proof.
  intros Htid. unfold Aquire.
  eapply hoare_bind; [apply hoare_lock_vc_sub|intros lm].
  intros s a s' [HI Hlm]. revert s a s' HI.
  change (hoare (inv b)
            (ct ← thread_vc_sub tid; put_thread_vc tid (vc_join ct lm))
            (λ _ s, inv b s)).
  eapply hoare_bind; [by apply hoare_thread_vc_sub|intros ct].
  intros s a s' [HI Hct]. revert s a s' HI.
  apply hoare_put_thread_vc. by apply vc_join_ok.
Qed.

Lemma hoare_Release (b : N) (tid : THREADID) (m : ADDRINT) :
  (tid ≤ b)%N → hoare (inv b) (Release tid m) (λ _ s, inv b s).
Proof.
  intros Htid. unfold Release.
  eapply hoare_bind; [by apply hoare_thread_vc_sub|intros ct].
  intros s a s' [HI (_ & _ & Hct)]. revert s a s' HI.
  change (hoare (inv b)
            (lock_vc_sub m;; put_lock_vc m ct;; incr_thread_clock tid)
            (λ _ s, inv b s)).
  eapply hoare_bind; [eapply hoare_drop, hoare_lock_vc_sub|intros ?].
  eapply hoare_bind; [by apply hoare_put_lock_vc|intros ?].
  by apply hoare_incr_thread_clock.
Qed.

Lemma hoare_Join (b : N) (tid : THREADID) (thread_obj : N) :
  (tid ≤ b)%N → hoare (inv b) (Join tid thread_obj) (λ _ s, inv b s).
Proof.
  intros Htid s [] s' HI. rewrite Join_closed. case_decide; [|done]. intros [= <-].
  set (j := default 0%N (thread_to_id s !! thread_obj)).
  assert (j ≤ b)%N as Hj.
  { unfold j. destruct HI as [<- HI].
    destruct (thread_to_id s !! thread_obj) as [u|] eqn:Hu; simpl; [|lia].
    by eapply fork_inv_handle. }
  pose proof (thread_clock_of_ok b s tid HI Htid) as Hct.
  pose proof (thread_clock_of_ok b s j HI Hj) as Hcj.
  assert (inv b (set_thread_to_id (<[thread_obj := j]> (thread_to_id s)) s)) as HI1.
  { destruct HI as [<- [Ht Hl Hh]]. split; [done|]. split; simpl; [done..|].
    intros h u. rewrite lookup_insert. case_decide; [|apply Hh]. by intros [= <-]. }
  apply (inv_set_thread b (set_thread_vc _ (set_thread_to_id _ s))).
  - apply (inv_set_thread b (set_thread_to_id _ s)); [done|].
    apply vc_join_ok; [done|]. by destruct Hcj as (_ & _ & ?).
  - by apply incr_ok.
Qed.

Lemma hoare_Fork (b : N) (tid : THREADID) (thread_obj : N) :
  (tid ≤ b)%N → (b + 1 < 2 ^ 32)%N →
  hoare (inv b) (Fork tid thread_obj) (λ _ s, inv (b + 1) s).
Proof.
  intros Htid Hb. unfold Fork.
  eapply hoare_bind with (Q := λ _ s, inv (b + 1) s).
  { apply hoare_modify. intros s [<- [Ht Hl Hh]].
    rewrite N.mod_small by done. split; [done|]. split; simpl.
    - intros k vc Hk. eapply thread_vc_ok_mono; [|by apply Ht]. lia.
    - intros k vc Hk. eapply vc_ok_mono; [|by eapply Hl]. lia.
    - intros h u Hu. specialize (Hh h u Hu). lia. }
  intros [].
  eapply hoare_bind with (Q := λ u s, inv (b + 1) s ∧ u = (b + 1)%N).
  { apply hoare_gets. by intros s [<- HI]. }
  intros u s a s' [HI ->]. revert s a s' HI.
  eapply hoare_bind with (Q := λ _ s, inv (b + 1) s).
  { apply hoare_modify. intros s [Hlast [Ht Hl Hh]]. split; [done|].
    split; simpl; [done..|]. intros h u. rewrite lookup_insert.
    case_decide; [|apply Hh]. intros [= <-]. lia. }
  intros [].
  eapply hoare_bind; [apply hoare_join_thread_vc; lia|intros []].
  apply hoare_incr_thread_clock. lia.
Qed.

Lemma hoare_cout (b : N) (tr : Trace) :
  hoare (inv b) (modify (λ s, set_cout (cout s ++ [tr]) s)) (λ _ s, inv b s).
Proof. apply hoare_modify. by intros s [<- [Ht Hl Hh]]. Qed.

Lemma step_inv (e : Event) (s s' : State) :
  ForkInv s → (actor e ≤ last_id s)%N →
  (is_thread_ctor e = true → (last_id s + 1 < 2 ^ 32)%N) →
  step e s = Ok ((), s') → ForkInv s'.
Proof.
  intros HI Hact Hctor Hstep.
  assert (inv (last_id s) s) as Hinv by done.
  destruct e as [tid ins_addr mem_addr is_write|tid m|tid m|tid t|tid t];
    simpl in *.
  - by eapply (hoare_CheckOverflow (last_id s)).
  - revert Hstep. unfold MutexLockWrapper, mbind, M_bind, gets.
    destruct (bool_decide _); [|by intros [= <-]].
    intros Hstep. by eapply (hoare_Aquire (last_id s)).
  - revert Hstep. unfold MutexUnlockWrapper, mbind, M_bind, gets.
    destruct (bool_decide _); [|by intros [= <-]].
    intros Hstep. by eapply (hoare_Release (last_id s)).
  - assert (hoare (inv (last_id s)) (ThreadCtorWrapper tid t)
                   (λ _ s', inv (last_id s + 1) s')) as Hh.
    { eapply hoare_bind; [apply hoare_cout|intros []].
      apply hoare_Fork; [done|by apply Hctor]. }
    by destruct (Hh s () s' Hinv Hstep).
  - assert (hoare (inv (last_id s)) (ThreadJoinWrapper tid t)
                   (λ _ s', inv (last_id s) s')) as Hh.
    { eapply hoare_bind; [apply hoare_cout|intros []]. by apply hoare_Join. }
    by destruct (Hh s () s' Hinv Hstep).
Qed.

Lemma load_symbols_inv (syms : list (string * Elf64_Sym)) (s : State) :
  thread_vc s = ∅ → thread_to_id s = ∅ →
  (∀ k vc, lock_vc s !! k = Some vc → vc = ∅) →
  let s' := load_symbols {["x"]} {["m"]} syms s in
  thread_vc s' = ∅ ∧ thread_to_id s' = ∅ ∧ last_id s' = last_id s ∧
  (∀ k vc, lock_vc s' !! k = Some vc → vc = ∅).
Proof.
  revert s. induction syms as [|sym syms IH]; intros s Ht Hh Hl; simpl; [done|].
  destruct (IH (load_symbol {["x"]} {["m"]} s sym)) as (? & ? & Hlast & ?).
  - unfold load_symbol. by repeat case_decide.
  - unfold load_symbol. by repeat case_decide.
  - unfold load_symbol. repeat case_decide; simpl; try done.
    intros k vc. rewrite lookup_insert. case_decide; [by intros [= <-]|apply Hl].
  - split_and!; [done..| |done]. rewrite Hlast.
    unfold load_symbol. by repeat case_decide.
Qed.

Lemma reachable_forked_inv (s : State) : reachable_forked s → ForkInv s.
Proof.
  induction 1 as [syms|e s s' _ IH Hact Hctor Hstep].
  - destruct (load_symbols_inv syms initial) as (Ht & Hh & _ & Hl); [done..|].
    split.
    + intros k vc. by rewrite Ht.
    + intros k vc ->%Hl. by intros j v.
    + intros h u. by rewrite Hh.
  - by eapply step_inv.
Qed.

(** C7, as the code has it.  [Fork] takes [u = last_id + 1] from a counter
    that is only incremented and checks it against nothing.  When every
    thread seen so far is thread 0 or has an id handed out by [Fork] (and
    the counter has not wrapped), [u] is fresh: no thread clock is stored
    for it, no thread or lock clock has a component for it and no handle is
    bound to it.  Then [C[u]] becomes [C[t]] with [C[u][u] = 1], [C[t][t]]
    is incremented, the handle is bound to [u], and no other clock
    changes. *)
Theorem Fork_allocates_fresh (s : State) (tid : THREADID) (thread_obj : N) :
  reachable_forked s → (tid ≤ last_id s)%N → (last_id s + 1 < 2 ^ 32)%N →
  own_clock s tid < INT_MAX →
  let u := (last_id s + 1)%N in
  let Ct := thread_clock_of s tid in
  (thread_vc s !! u = None ∧
   (∀ k vc, thread_vc s !! k = Some vc → vc !! u = None) ∧
   (∀ k vc, lock_vc s !! k = Some vc → vc !! u = None) ∧
   (∀ h u', thread_to_id s !! h = Some u' → u' ≠ u)) ∧
  ∃ s', Fork tid thread_obj s = Ok ((), s') ∧
    last_id s' = u ∧
    thread_to_id s' = <[thread_obj := u]> (thread_to_id s) ∧
    thread_vc s' =
      <[tid := <[tid := own_clock s tid + 1]> Ct]>
        (<[u := <[u := 1]> Ct]> (thread_vc s)) ∧
    read_vc s' = read_vc s ∧ write_vc s' = write_vc s ∧ lock_vc s' = lock_vc s.
Proof.
  intros HI%reachable_forked_inv Htid Hwrap Hmax u Ct.
  assert (∀ vc, vc_ok (last_id s) vc → vc !! u = None) as Hnone.
  { intros vc Hvc. destruct (vc !! u) as [v|] eqn:Hu; [|done].
    destruct (Hvc u v Hu) as [Hle _]. unfold u in Hle. lia. }
  assert (thread_vc s !! u = None) as Hfresh.
  { destruct (thread_vc s !! u) as [vc|] eqn:Hu; [|done].
    destruct (fork_inv_thread _ HI u vc Hu) as (Hle & _). unfold u in Hle. lia. }
  destruct (thread_clock_of_ok (last_id s) s tid) as (_ & _ & HCt); [done..|].
  split.
  - split_and!; [done| | |].
    + intros k vc Hk. apply Hnone. by destruct (fork_inv_thread _ HI k vc Hk) as (_ & _ & ?).
    + intros k vc Hk. apply Hnone. by eapply fork_inv_lock.
    + intros h u' Hh. pose proof (fork_inv_handle _ HI h u' Hh). unfold u. lia.
  - eexists. split.
    + pose proof (Fork_fresh tid thread_obj s) as Hfork. simpl in Hfork.
      rewrite N.mod_small in Hfork by done. apply Hfork; try done.
      * by apply Hnone.
      * unfold u. lia.
      * intros k v Hk. destruct (HCt k v Hk). lia.
    + by simpl.
Qed.

(** ** The clock invariant of the Pin tool *)

Lemma time_insert (vc : VC) (k j : THREADID) (v : Z) :
  time (<[k := v]> vc) j = if decide (k = j) then v else time vc j.
Proof. unfold time. rewrite lookup_insert. by case_decide. Qed.

Lemma time_empty (t : THREADID) : time ∅ t = 0.
Proof. unfold time. by rewrite lookup_empty. Qed.

Lemma time_singleton (k j : THREADID) (v : Z) :
  time {[k := v]} j = if decide (k = j) then v else 0.
Proof. unfold time. rewrite lookup_singleton. by case_decide. Qed.

Lemma time_vc_join (lhs rhs : VC) (k : THREADID) :
  time lhs k ≤ time (vc_join lhs rhs) k ≤ Z.max (time lhs k) (time rhs k).
Proof.
  unfold time. rewrite vc_join_lookup. unfold time.
  destruct (rhs !! k) as [v|], (lhs !! k) as [w|]; simpl; lia.
Qed.

Lemma set_lock_vc_id (s : State) : set_lock_vc (lock_vc s) s = s.
Proof. by destruct s. Qed.

Lemma Read_closed (tid : THREADID) (mem_addr : ADDRINT) (s : State) :
  Read tid mem_addr s =
    Ok ((), set_read_vc
              (<[mem_addr := <[tid := own_clock s tid]>
                                (default ∅ (read_vc s !! mem_addr))]> (read_vc s))
              (set_thread_vc
                 (<[tid := <[tid := own_clock s tid]> (thread_clock_of s tid)]>
                    (thread_vc s)) s)).
Proof.
  unfold Read. unfold_M. rewrite thread_clock_eq.
  unfold read_vc_sub, table_sub, put_read_vc, modify. simpl.
  destruct (read_vc s !! mem_addr) as [rx|] eqn:Hx; simpl; [done|].
  by rewrite insert_insert_eq.
Qed.

Lemma Write_closed (tid : THREADID) (mem_addr : ADDRINT) (s : State) :
  Write tid mem_addr s =
    Ok ((), set_write_vc
              (<[mem_addr := <[tid := own_clock s tid]>
                                (default ∅ (write_vc s !! mem_addr))]> (write_vc s))
              (set_thread_vc
                 (<[tid := <[tid := own_clock s tid]> (thread_clock_of s tid)]>
                    (thread_vc s)) s)).
Proof.
  unfold Write. unfold_M. rewrite thread_clock_eq.
  unfold write_vc_sub, table_sub, put_write_vc, modify. simpl.
  destruct (write_vc s !! mem_addr) as [wx|] eqn:Hx; simpl; [done|].
  by rewrite insert_insert_eq.
Qed.

Lemma Aquire_closed (tid : THREADID) (m : ADDRINT) (s : State) :
  Aquire tid m s =
    Ok ((), set_thread_vc
              (<[tid := vc_join (thread_clock_of s tid) (lock_clock_of s m)]>
                 (thread_vc s))
              (set_lock_vc (<[m := lock_clock_of s m]> (lock_vc s)) s)).
Proof.
  unfold Aquire. unfold_M. unfold lock_vc_sub, table_sub, lock_clock_of.
  destruct (lock_vc s !! m) as [lm|] eqn:Hm; simpl.
  - rewrite thread_vc_sub_eq. unfold put_thread_vc, modify. simpl.
    rewrite insert_insert_eq, (insert_id (lock_vc s)) by done.
    by rewrite set_lock_vc_id.
  - rewrite thread_vc_sub_eq. unfold put_thread_vc, modify. simpl.
    by rewrite insert_insert_eq.
Qed.

Lemma Release_closed (tid : THREADID) (m : ADDRINT) (s : State) :
  Release tid m s =
    if decide (own_clock s tid < INT_MAX) then
      Ok ((), set_thread_vc
                (<[tid := <[tid := own_clock s tid + 1]> (thread_clock_of s tid)]>
                   (thread_vc s))
                (set_lock_vc (<[m := thread_clock_of s tid]> (lock_vc s)) s))
    else Err SignedOverflow.
Proof.
  unfold Release. unfold_M. rewrite thread_vc_sub_eq.
  unfold lock_vc_sub, table_sub, put_lock_vc, modify. simpl.
  assert (∀ lv, incr_thread_clock tid
            (set_lock_vc lv
               (set_thread_vc (<[tid := thread_clock_of s tid]> (thread_vc s)) s)) =
          if decide (own_clock s tid < INT_MAX) then
            Ok ((), set_thread_vc
                      (<[tid := <[tid := own_clock s tid + 1]> (thread_clock_of s tid)]>
                         (thread_vc s)) (set_lock_vc lv s))
          else Err SignedOverflow) as Hincr.
  { intros lv. rewrite incr_thread_clock_eq.
    unfold own_clock, thread_clock_of. simpl. rewrite lookup_insert_eq. simpl.
    case_decide; [|done]. by rewrite insert_insert_eq. }
  destruct (lock_vc s !! m) as [lm|] eqn:Hm; simpl.
  - rewrite Hincr. by destruct s.
  - rewrite insert_insert_eq. apply Hincr.
Qed.

Lemma own_clock_set_thread (s : State) (t k : THREADID) (vc : VC) :
  own_clock (set_thread_vc (<[t := vc]> (thread_vc s)) s) k =
    if decide (t = k) then time vc t else own_clock s k.
Proof.
  unfold own_clock, thread_clock_of. simpl. rewrite lookup_insert.
  case_decide as Hk; [by subst k|done].
Qed.

(** Replacing thread [t]'s clock by one whose own component did not go back
    and whose other components are behind their owners. *)
Lemma ClockInv_set_thread (s : State) (t : THREADID) (vc : VC) :
  ClockInv s → own_clock s t ≤ time vc t →
  (∀ k, k ≠ t → time vc k < own_clock s k) →
  ClockInv (set_thread_vc (<[t := vc]> (thread_vc s)) s).
Proof.
  intros [Hown Hth Hl Hr Hw] Hge Hother.
  set (s' := set_thread_vc (<[t := vc]> (thread_vc s)) s).
  assert (∀ k, own_clock s k ≤ own_clock s' k) as Hmono.
  { intros k. unfold s'. rewrite own_clock_set_thread. case_decide; [subst k|]; lia. }
  split.
  - intros k. specialize (Hown k). specialize (Hmono k). lia.
  - intros u k ct. simpl. rewrite lookup_insert. case_decide as Hu.
    + subst u. intros [= <-] Hk. specialize (Hother k ltac:(done)).
      specialize (Hmono k). lia.
    + intros Hct Hk. specialize (Hth u k ct Hct Hk). specialize (Hmono k). lia.
  - intros m l k Hm. specialize (Hl m l k Hm). specialize (Hmono k). lia.
  - intros x r k Hx. specialize (Hr x r k Hx). specialize (Hmono k). lia.
  - intros x w k Hx. specialize (Hw x w k Hx). specialize (Hmono k). lia.
Qed.

Lemma ClockInv_touch (s : State) (t : THREADID) :
  ClockInv s →
  ClockInv (set_thread_vc (<[t := thread_clock_of s t]> (thread_vc s)) s).
Proof.
  intros HI. apply ClockInv_set_thread; [done|done|].
  intros k Hk. unfold thread_clock_of.
  destruct (thread_vc s !! t) as [ct|] eqn:Ht; simpl.
  - by eapply clock_inv_thread.
  - rewrite time_singleton, decide_False by done.
    pose proof (clock_inv_own _ HI k). lia.
Qed.

Lemma ClockInv_set_lock (s : State) (m : ADDRINT) (vc : VC) :
  ClockInv s → (∀ k, time vc k < own_clock s k) →
  ClockInv (set_lock_vc (<[m := vc]> (lock_vc s)) s).
Proof.
  intros [Hown Hth Hl Hr Hw] Hvc. split; simpl; try done.
  intros m' l k. rewrite lookup_insert. case_decide; [|apply Hl].
  intros [= <-]. apply Hvc.
Qed.

Lemma ClockInv_set_read (s : State) (x : ADDRINT) (vc : VC) :
  ClockInv s → (∀ k, time vc k ≤ own_clock s k) →
  ClockInv (set_read_vc (<[x := vc]> (read_vc s)) s).
Proof.
  intros [Hown Hth Hl Hr Hw] Hvc. split; simpl; try done.
  intros x' r k. rewrite lookup_insert. case_decide; [|apply Hr].
  intros [= <-]. apply Hvc.
Qed.

Lemma ClockInv_set_write (s : State) (x : ADDRINT) (vc : VC) :
  ClockInv s → (∀ k, time vc k ≤ own_clock s k) →
  ClockInv (set_write_vc (<[x := vc]> (write_vc s)) s).
Proof.
  intros [Hown Hth Hl Hr Hw] Hvc. split; simpl; try done.
  intros x' r k. rewrite lookup_insert. case_decide; [|apply Hw].
  intros [= <-]. apply Hvc.
Qed.

(** What thread [t] knows of another thread [k] is behind [k]'s own time. *)
Lemma thread_clock_of_behind (s : State) (t k : THREADID) :
  ClockInv s → k ≠ t → time (thread_clock_of s t) k < own_clock s k.
Proof.
  intros HI Hk. unfold thread_clock_of.
  destruct (thread_vc s !! t) as [ct|] eqn:Ht; simpl.
  - by eapply clock_inv_thread.
  - rewrite time_singleton, decide_False by done.
    pose proof (clock_inv_own _ HI k). lia.
Qed.

Lemma lock_clock_of_behind (s : State) (m : ADDRINT) (k : THREADID) :
  ClockInv s → time (lock_clock_of s m) k < own_clock s k.
Proof.
  intros HI. unfold lock_clock_of.
  destruct (lock_vc s !! m) as [l|] eqn:Hm; simpl.
  - by eapply clock_inv_lock.
  - rewrite time_empty. pose proof (clock_inv_own _ HI k). lia.
Qed.

Lemma ClockInv_ext (s s' : State) :
  thread_vc s' = thread_vc s → lock_vc s' = lock_vc s →
  read_vc s' = read_vc s → write_vc s' = write_vc s →
  ClockInv s → ClockInv s'.
Proof.
  intros Ht Hl Hr Hw [Hown Hth Hlk Hrd Hwr].
  assert (∀ t, own_clock s' t = own_clock s t) as Heq.
  { intros t. unfold own_clock, thread_clock_of. by rewrite Ht. }
  split.
  - intros t. rewrite Heq. apply Hown.
  - intros u t ct. rewrite Ht, Heq. apply Hth.
  - intros m l t. rewrite Hl, Heq. apply Hlk.
  - intros x r t. rewrite Hr, Heq. apply Hrd.
  - intros x w t. rewrite Hw, Heq. apply Hwr.
Qed.

Lemma time_stamp_own (s : State) (t k : THREADID) (c : Z) :
  k ≠ t → time (<[t := c]> (thread_clock_of s t)) k = time (thread_clock_of s t) k.
Proof. intros Hk. by rewrite time_insert, decide_False. Qed.

Lemma ClockInv_advance (s : State) (t : THREADID) (c : Z) :
  ClockInv s → own_clock s t ≤ c →
  ClockInv (set_thread_vc (<[t := <[t := c]> (thread_clock_of s t)]> (thread_vc s)) s).
Proof.
  intros HI Hc. apply ClockInv_set_thread; [done| |].
  - by rewrite time_insert, decide_True.
  - intros k Hk. rewrite time_stamp_own by done. by apply thread_clock_of_behind.
Qed.

Lemma hoare_ClockInv_thread_vc_sub (tid : THREADID) :
  hoare ClockInv (thread_vc_sub tid) (λ _ s, ClockInv s).
Proof.
  intros s vc s' HI. rewrite thread_vc_sub_eq. intros [= <- <-].
  by apply ClockInv_touch.
Qed.

Lemma hoare_ClockInv_read_vc_sub (x : ADDRINT) :
  hoare ClockInv (read_vc_sub x) (λ _ s, ClockInv s).
Proof.
  intros s vc s' HI. unfold read_vc_sub, table_sub.
  destruct (read_vc s !! x) as [rx|] eqn:Hx; intros [= <- <-].
  - by destruct s.
  - apply ClockInv_set_read; [done|]. intros k. rewrite time_empty.
    pose proof (clock_inv_own _ HI k). lia.
Qed.

Lemma hoare_ClockInv_write_vc_sub (x : ADDRINT) :
  hoare ClockInv (write_vc_sub x) (λ _ s, ClockInv s).
Proof.
  intros s vc s' HI. unfold write_vc_sub, table_sub.
  destruct (write_vc s !! x) as [wx|] eqn:Hx; intros [= <- <-].
  - by destruct s.
  - apply ClockInv_set_write; [done|]. intros k. rewrite time_empty.
    pose proof (clock_inv_own _ HI k). lia.
Qed.

Lemma hoare_ClockInv_print (msg : Message) :
  hoare ClockInv (print msg) (λ _ s, ClockInv s).
Proof. apply hoare_modify. intros s HI. by apply (ClockInv_ext s). Qed.

Lemma hoare_ClockInv_Read (tid : THREADID) (x : ADDRINT) :
  hoare ClockInv (Read tid x) (λ _ s, ClockInv s).
Proof.
  intros s [] s' HI. rewrite Read_closed. intros [= <-].
  pose proof (ClockInv_advance s tid (own_clock s tid) HI ltac:(lia)) as HI1.
  apply (ClockInv_set_read (set_thread_vc _ s)); [done|].
  intros k. rewrite own_clock_set_thread, time_insert.
  destruct (decide (tid = k)) as [->|Hk].
  - by rewrite time_insert, decide_True.
  - destruct (read_vc s !! x) as [rx|] eqn:Hx; simpl.
    + by eapply clock_inv_read.
    + rewrite time_empty. pose proof (clock_inv_own _ HI k). lia.
Qed.

Lemma hoare_ClockInv_Write (tid : THREADID) (x : ADDRINT) :
  hoare ClockInv (Write tid x) (λ _ s, ClockInv s).
Proof.
  intros s [] s' HI. rewrite Write_closed. intros [= <-].
  pose proof (ClockInv_advance s tid (own_clock s tid) HI ltac:(lia)) as HI1.
  apply (ClockInv_set_write (set_thread_vc _ s)); [done|].
  intros k. rewrite own_clock_set_thread, time_insert.
  destruct (decide (tid = k)) as [->|Hk].
  - by rewrite time_insert, decide_True.
  - destruct (write_vc s !! x) as [wx|] eqn:Hx; simpl.
    + by eapply clock_inv_write.
    + rewrite time_empty. pose proof (clock_inv_own _ HI k). lia.
Qed.

Lemma hoare_ClockInv_Aquire (tid : THREADID) (m : ADDRINT) :
  hoare ClockInv (Aquire tid m) (λ _ s, ClockInv s).
Proof.
  intros s [] s' HI. rewrite Aquire_closed. intros [= <-].
  apply (ClockInv_set_thread (set_lock_vc _ s)).
  - apply ClockInv_set_lock; [done|]. intros k. by apply lock_clock_of_behind.
  - apply time_vc_join.
  - intros k Hk.
    pose proof (time_vc_join (thread_clock_of s tid) (lock_clock_of s m) k) as [_ Hle].
    pose proof (thread_clock_of_behind s tid k HI Hk).
    pose proof (lock_clock_of_behind s m k HI).
    change (own_clock (set_lock_vc _ s) k) with (own_clock s k). lia.
Qed.

Lemma hoare_ClockInv_Release (tid : THREADID) (m : ADDRINT) :
  hoare ClockInv (Release tid m) (λ _ s, ClockInv s).
Proof.
  intros s [] s' HI. rewrite Release_closed. case_decide; [|done]. intros [= <-].
  pose proof (ClockInv_advance s tid (own_clock s tid + 1) HI ltac:(lia)) as HI1.
  set (s1 := set_thread_vc _ s) in HI1.
  change (ClockInv (set_lock_vc (<[m := thread_clock_of s tid]> (lock_vc s1)) s1)).
  apply ClockInv_set_lock; [done|].
  intros k. unfold s1. rewrite own_clock_set_thread, time_insert.
  destruct (decide (tid = k)) as [->|Hk].
  - rewrite decide_True by done. unfold own_clock. lia.
  - by apply thread_clock_of_behind.
Qed.

Lemma hoare_ClockInv_Join (tid : THREADID) (thread_obj : N) :
  hoare ClockInv (Join tid thread_obj) (λ _ s, ClockInv s).
Proof.
  intros s [] s' HI. rewrite Join_closed. case_decide; [|done]. intros [= <-].
  set (j := default 0%N (thread_to_id s !! thread_obj)).
  set (Ct := thread_clock_of s tid). set (Cj := thread_clock_of s j).
  pose proof (ClockInv_advance s j (own_clock s j + 1) HI ltac:(lia)) as HI1.
  fold Cj in HI1.
  destruct (decide (tid = j)) as [Heq|Hne].
  - eapply ClockInv_ext; [..|exact HI1]; simpl; try done.
    rewrite Heq. by rewrite insert_insert_eq.
  - set (s1 := set_thread_vc (<[j := <[j := own_clock s j + 1]> Cj]> (thread_vc s)) s).
    assert (ClockInv (set_thread_vc (<[tid := vc_join Ct Cj]> (thread_vc s1)) s1)) as HI2.
    { apply ClockInv_set_thread; [done| |].
      - unfold s1. rewrite own_clock_set_thread, decide_False by done.
        apply time_vc_join.
      - intros k Hk. pose proof (time_vc_join Ct Cj k) as [_ Hle].
        pose proof (thread_clock_of_behind s tid k HI Hk).
        unfold s1. rewrite own_clock_set_thread, time_insert.
        destruct (decide (j = k)) as [->|Hjk].
        + rewrite decide_True by done. fold Ct in H0.
          change (own_clock s k) with (time Cj k) in *. lia.
        + pose proof (thread_clock_of_behind s j k HI ltac:(done)).
          fold Ct in H0. fold Cj in H1. lia. }
    eapply ClockInv_ext; [..|exact HI2]; simpl; try done.
    by rewrite insert_insert_ne.
Qed.

Lemma hoare_ClockInv_Fork (tid : THREADID) (thread_obj : N) :
  hoare ClockInv (Fork tid thread_obj) (λ _ s, ClockInv s).
Proof.
  intros s [] s' HI. rewrite Fork_closed.
  set (u := ((last_id s + 1) `mod` 2 ^ 32)%N).
  set (Ct := thread_clock_of s tid). set (Cu := thread_clock_of s u).
  pose proof (ClockInv_advance s tid (own_clock s tid + 1) HI ltac:(lia)) as HI1.
  fold Ct in HI1.
  destruct (decide (u = tid)) as [Heq|Hne].
  - rewrite Heq, insert_insert_eq, lookup_insert_eq. simpl.
    unfold Cu. rewrite Heq. fold Ct. rewrite vc_join_idemp.
    case_decide; [|done]. intros [= <-].
    eapply ClockInv_ext; [..|exact HI1]; simpl; try done.
    by rewrite insert_insert_eq.
  - rewrite lookup_insert_ne, lookup_insert_eq by done. simpl.
    case_decide; [|done]. intros [= <-].
    set (s1 := set_thread_vc (<[tid := <[tid := own_clock s tid + 1]> Ct]> (thread_vc s)) s).
    assert (ClockInv (set_thread_vc (<[u := vc_join Cu Ct]> (thread_vc s1)) s1)) as HI2.
    { apply ClockInv_set_thread; [done| |].
      - unfold s1. rewrite own_clock_set_thread, decide_False by done.
        apply time_vc_join.
      - intros k Hk. pose proof (time_vc_join Cu Ct k) as [_ Hle].
        pose proof (thread_clock_of_behind s u k HI Hk) as Hu. fold Cu in Hu.
        unfold s1. rewrite own_clock_set_thread, time_insert.
        destruct (decide (tid = k)) as [->|Htk].
        + rewrite decide_True by done.
          change (own_clock s k) with (time Ct k) in *. lia.
        + pose proof (thread_clock_of_behind s tid k HI ltac:(done)) as Ht.
          fold Ct in Ht. lia. }
    eapply ClockInv_ext; [..|exact HI2]; simpl; try done.
    rewrite (insert_insert_ne _ tid u) by congruence. by rewrite insert_insert_eq.
Qed.

Lemma hoare_ClockInv_lift {A} (r : result A) :
  hoare ClockInv (lift r) (λ _ s, ClockInv s).
Proof. apply hoare_lift. by intros. Qed.

Lemma hoare_ClockInv_NoRaceForWrite (tid : THREADID) (x : ADDRINT) :
  hoare ClockInv (NoRaceForWrite tid x) (λ _ s, ClockInv s).
Proof.
  unfold NoRaceForWrite.
  eapply hoare_bind; [apply hoare_ClockInv_read_vc_sub|intros rx].
  eapply hoare_bind; [apply hoare_ClockInv_thread_vc_sub|intros ct].
  eapply hoare_bind; [apply hoare_ClockInv_lift|intros [|]].
  - eapply hoare_bind; [apply hoare_ClockInv_write_vc_sub|intros wx].
    eapply hoare_bind; [apply hoare_ClockInv_thread_vc_sub|intros ct'].
    apply hoare_ClockInv_lift.
  - by apply hoare_ret.
Qed.

Lemma hoare_ClockInv_NoRaceForRead (tid : THREADID) (x : ADDRINT) :
  hoare ClockInv (NoRaceForRead tid x) (λ _ s, ClockInv s).
Proof.
  unfold NoRaceForRead.
  eapply hoare_bind; [apply hoare_ClockInv_write_vc_sub|intros wx].
  eapply hoare_bind; [apply hoare_ClockInv_thread_vc_sub|intros ct].
  apply hoare_ClockInv_lift.
Qed.

Lemma hoare_ClockInv_CheckOverflow (tid : THREADID) (ins_addr mem_addr : ADDRINT)
    (is_write : bool) :
  hoare ClockInv (CheckOverflow tid ins_addr mem_addr is_write) (λ _ s, ClockInv s).
Proof.
  unfold CheckOverflow.
  eapply hoare_bind with (Q := λ _ s, ClockInv s);
    [by apply hoare_gets|intros [|]]; [|by apply hoare_ret].
  eapply hoare_bind; [|intros ?; apply hoare_ClockInv_print].
  destruct is_write.
  - eapply hoare_bind; [apply hoare_ClockInv_Write|intros ?].
    eapply hoare_bind; [apply hoare_ClockInv_NoRaceForWrite|intros [|]];
      [by apply hoare_ret|].
    eapply hoare_bind; [apply hoare_ClockInv_thread_vc_sub|intros C].
    eapply hoare_bind; [apply hoare_ClockInv_read_vc_sub|intros R].
    eapply hoare_bind; [apply hoare_ClockInv_write_vc_sub|intros W].
    apply hoare_ClockInv_print.
  - eapply hoare_bind; [apply hoare_ClockInv_Read|intros ?].
    eapply hoare_bind; [apply hoare_ClockInv_NoRaceForRead|intros [|]];
      [by apply hoare_ret|].
    eapply hoare_bind; [apply hoare_ClockInv_thread_vc_sub|intros C].
    eapply hoare_bind; [apply hoare_ClockInv_write_vc_sub|intros W].
    apply hoare_ClockInv_print.
Qed.

Lemma hoare_ClockInv_cout (tr : Trace) :
  hoare ClockInv (modify (λ s, set_cout (cout s ++ [tr]) s)) (λ _ s, ClockInv s).
Proof. apply hoare_modify. intros s HI. by apply (ClockInv_ext s). Qed.

Lemma hoare_ClockInv_step (e : Event) :
  hoare ClockInv (step e) (λ _ s, ClockInv s).
Proof.
  destruct e as [tid ins_addr mem_addr is_write|tid m|tid m|tid t|tid t]; simpl.
  - apply hoare_ClockInv_CheckOverflow.
  - unfold MutexLockWrapper.
    eapply hoare_bind with (Q := λ _ s, ClockInv s);
      [by apply hoare_gets|intros [|]]; [|by apply hoare_ret].
    apply hoare_ClockInv_Aquire.
  - unfold MutexUnlockWrapper.
    eapply hoare_bind with (Q := λ _ s, ClockInv s);
      [by apply hoare_gets|intros [|]]; [|by apply hoare_ret].
    apply hoare_ClockInv_Release.
  - eapply hoare_bind; [apply hoare_ClockInv_cout|intros []].
    apply hoare_ClockInv_Fork.
  - eapply hoare_bind; [apply hoare_ClockInv_cout|intros []].
    apply hoare_ClockInv_Join.
Qed.

Lemma load_symbols_empty_clocks (syms : list (string * Elf64_Sym)) (s : State) :
  thread_vc s = ∅ →
  (∀ k vc, lock_vc s !! k = Some vc → vc = ∅) →
  (∀ k vc, read_vc s !! k = Some vc → vc = ∅) →
  (∀ k vc, write_vc s !! k = Some vc → vc = ∅) →
  let s' := load_symbols {["x"]} {["m"]} syms s in
  thread_vc s' = ∅ ∧
  (∀ k vc, lock_vc s' !! k = Some vc → vc = ∅) ∧
  (∀ k vc, read_vc s' !! k = Some vc → vc = ∅) ∧
  (∀ k vc, write_vc s' !! k = Some vc → vc = ∅).
Proof.
  revert s. induction syms as [|sym syms IH]; intros s Ht Hl Hr Hw; simpl; [done|].
  assert (∀ (m : gmap N VC) (a : N),
            (∀ k vc, m !! k = Some vc → vc = ∅) →
            ∀ k vc, <[a := ∅]> m !! k = Some vc → vc = ∅) as Hins.
  { intros m a Hm k vc. rewrite lookup_insert.
    case_decide; [by intros [= <-]|apply Hm]. }
  apply IH; unfold load_symbol; repeat case_decide; simpl;
    try done; by apply Hins.
Qed.

Lemma ClockInv_loaded (syms : list (string * Elf64_Sym)) :
  ClockInv (load_symbols {["x"]} {["m"]} syms initial).
Proof.
  destruct (load_symbols_empty_clocks syms initial) as (Ht & Hl & Hr & Hw);
    [done..|].
  assert (∀ t, own_clock (load_symbols {["x"]} {["m"]} syms initial) t = 1) as Hown.
  { intros t. unfold own_clock, thread_clock_of. rewrite Ht, lookup_empty. simpl.
    by rewrite time_singleton, decide_True. }
  split.
  - intros t. by rewrite Hown.
  - intros u t ct. by rewrite Ht.
  - intros m l t ->%Hl. by rewrite Hown, time_empty.
  - intros x r t ->%Hr. by rewrite Hown, time_empty.
  - intros x w t ->%Hw. by rewrite Hown, time_empty.
Qed.

Lemma reachable_ClockInv (s : State) : reachable s → ClockInv s.
Proof.
  induction 1 as [syms|e s s' _ IH Hstep]; [apply ClockInv_loaded|].
  by eapply (hoare_ClockInv_step e s).
Qed.

(** The Pin tool keeps the bound of C3: in every reachable state
    [R[x][t] ≤ C[t][t]] and [W[x][t] ≤ C[t][t]]. *)
Lemma pintool_access_clocks_bounded (s : State) (x : ADDRINT) (vc : VC) (t : THREADID) :
  reachable s → read_vc s !! x = Some vc ∨ write_vc s !! x = Some vc →
  time vc t ≤ own_clock s t.
Proof.
  intros HI%reachable_ClockInv [Hr|Hw].
  - by eapply clock_inv_read.
  - by eapply clock_inv_write.
Qed.

(** The Pin tool's [Release] publishes [C[t]] before it increments
    [C[t][t]]; it is strictly monotonic in [L[m][t]] all the same, and
    returns unless the increment overflows. *)
Lemma pintool_Release_monotonic (s : State) (tid : THREADID) (m : ADDRINT) :
  reachable s →
  (own_clock s tid < INT_MAX → ∃ s', Release tid m s = Ok ((), s')) ∧
  (∀ s', Release tid m s = Ok ((), s') →
     time (lock_clock_of s m) tid < time (lock_clock_of s' m) tid).
Proof.
  intros HI%reachable_ClockInv. rewrite Release_closed. split.
  - intros Hmax. rewrite decide_True by done. by eexists.
  - intros s'. case_decide; [|done]. intros [= <-].
    unfold lock_clock_of at 2. simpl. rewrite lookup_insert_eq. simpl.
    by apply lock_clock_of_behind.
Qed.

(** The Pin tool reports a read that follows the thread's own write, too,
    when another thread's write is unordered: threads 0 and 1 write the
    watched address, then thread 1 reads it. *)
Lemma pintool_read_after_write_reported :
  ∃ s C W, run [mem_access 0 4096 100 true; mem_access 1 4096 100 true;
                 mem_access 1 4096 100 false] loaded = Ok ((), s) ∧
           ReadRace 1 C 100 W ∈ out s.
Proof.
  eexists _, _, _. split; [vm_compute; reflexivity|].
  do 3 apply list_elem_of_further. apply list_elem_of_here.
Qed.

(** ** Unwatched addresses *)

(** C9.  A memory access at an address without read clock (not in the watch
    set) returns at once: the state, including both output streams, is
    unchanged. *)
Theorem unwatched_access_ignored (s : State) (tid : THREADID)
    (ins_addr mem_addr : ADDRINT) (is_write : bool) :
  read_vc s !! mem_addr = None →
  CheckOverflow tid ins_addr mem_addr is_write s = Ok ((), s).
Proof.
  intros Hx. unfold CheckOverflow, mbind, M_bind, gets.
  rewrite Hx. by rewrite bool_decide_eq_false_2 by (by intros [? ?]).
Qed.


(** ** Concrete runs *)

Lemma loaded_reachable : reachable loaded.
Proof. apply reachable_loaded. Qed.

Lemma loaded_reachable_forked : reachable_forked loaded.
Proof. apply reachable_forked_loaded. Qed.

Lemma after_unlock_by_1_reachable : reachable after_unlock_by_1.
Proof.
  apply (reachable_step (mutex_unlock 1 200) loaded after_unlock_by_1).
  - apply loaded_reachable.
  - vm_compute. reflexivity.
Qed.

(** C7 as stated fails: thread 1 has unlocked [m], so it has a clock, and
    the first fork then hands out id 1 again and joins the parent's clock
    into the existing [C[1] = {1 ↦ 2}]. *)
Lemma Fork_reuses_thread_id :
  ¬ ∀ (s s' : State) (tid : THREADID) (thread_obj : N),
      reachable s → Fork tid thread_obj s = Ok ((), s') →
      thread_vc s !! last_id s' = None ∨
      thread_vc s' !! last_id s' = Some (<[last_id s' := 1]> (thread_clock_of s tid)).
Proof.
  intros Hclaim.
  destruct (Fork 0 77 after_unlock_by_1) as [[[] s']|] eqn:Hfork;
    [|by vm_compute in Hfork].
  destruct (Hclaim after_unlock_by_1 s' 0%N 77%N after_unlock_by_1_reachable Hfork)
    as [Hfresh|Hcopy].
  - vm_compute in Hfork. injection Hfork as <-. by vm_compute in Hfresh.
  - apply (f_equal (λ o, o ≫= (.!! 1%N))) in Hcopy.
    vm_compute in Hfork. injection Hfork as <-. by vm_compute in Hcopy.
Qed.

Lemma Fork_allocates_fresh_witness :
  reachable_forked loaded ∧ (0 ≤ last_id loaded)%N ∧
  (last_id loaded + 1 < 2 ^ 32)%N ∧ own_clock loaded 0 < INT_MAX ∧
  (thread_vc loaded !! 1%N = None ∧
   (∀ k vc, thread_vc loaded !! k = Some vc → vc !! 1%N = None) ∧
   (∀ k vc, lock_vc loaded !! k = Some vc → vc !! 1%N = None) ∧
   (∀ h u', thread_to_id loaded !! h = Some u' → u' ≠ 1%N)) ∧
  ∃ s', Fork 0 77 loaded = Ok ((), s') ∧
    last_id s' = 1%N ∧
    thread_to_id s' = <[77%N := 1%N]> (thread_to_id loaded) ∧
    thread_vc s' =
      <[0%N := <[0%N := own_clock loaded 0 + 1]> (thread_clock_of loaded 0)]>
        (<[1%N := <[1%N := 1]> (thread_clock_of loaded 0)]> (thread_vc loaded)) ∧
    read_vc s' = read_vc loaded ∧ write_vc s' = write_vc loaded ∧
    lock_vc s' = lock_vc loaded.
Proof.
  split; [apply loaded_reachable_forked|].
  split; [by vm_compute|]. split; [by vm_compute|]. split; [by vm_compute|].
  apply (Fork_allocates_fresh loaded 0 77).
  - apply loaded_reachable_forked.
  - by vm_compute.
  - by vm_compute.
  - by vm_compute.
Defined.

(** C8 as stated fails: joining a handle no fork has bound changes the
    thread clocks and writes nothing. *)
Lemma Join_unknown_handle_not_dropped :
  ¬ ∀ (s s' : State) (tid : THREADID) (thread_obj : N),
      reachable s → thread_to_id s !! thread_obj = None →
      Join tid thread_obj s = Ok ((), s') →
      thread_vc s' = thread_vc s ∨ out s' ≠ out s ∨ cout s' ≠ cout s.
Proof.
  intros Hclaim.
  destruct (Join 1 77 loaded) as [[[] s']|] eqn:Hjoin; [|by vm_compute in Hjoin].
  destruct (Hclaim loaded s' 1%N 77%N loaded_reachable eq_refl Hjoin)
    as [Hsame|[Hout|Hcout]];
    vm_compute in Hjoin; injection Hjoin as <-.
  - apply (f_equal (λ tv, tv !! 0%N ≫= (.!! 0%N))) in Hsame.
    by vm_compute in Hsame.
  - by apply Hout.
  - by apply Hcout.
Qed.

Lemma Join_unknown_handle_witness :
  thread_to_id loaded !! 77%N = None ∧ own_clock loaded 0 < INT_MAX ∧
  ∃ s', Join 1 77 loaded = Ok ((), s') ∧
    thread_to_id s' = <[77%N := 0%N]> (thread_to_id loaded) ∧
    thread_vc s' =
      <[0%N := <[0%N := own_clock loaded 0 + 1]> (thread_clock_of loaded 0)]>
        (<[1%N := vc_join (thread_clock_of loaded 1) (thread_clock_of loaded 0)]>
           (thread_vc loaded)) ∧
    read_vc s' = read_vc loaded ∧ write_vc s' = write_vc loaded ∧
    lock_vc s' = lock_vc loaded ∧ last_id s' = last_id loaded ∧
    out s' = out loaded ∧ cout s' = cout loaded.
Proof.
  split; [reflexivity|]. split; [by vm_compute|].
  apply (Join_unknown_handle loaded 1 77).
  - reflexivity.
  - by vm_compute.
Defined.

Lemma unwatched_access_ignored_witness :
  read_vc loaded !! 300%N = None ∧
  CheckOverflow 0 4096 300 true loaded = Ok ((), loaded).
Proof.
  split; [reflexivity|].
  apply (unwatched_access_ignored loaded 0 4096 300 true). reflexivity.
Defined.

End PintoolProofs.

(** * Further properties of [fixed.hpp] *)

Module FixedMore.
Import Fixed FixedProofs.

Section WithNThread.
Context (NThread : nat).

(** ** The order and the join of fixed clocks *)

Lemma vc_le_true (lhs rhs : FixedVectorClock) :
  length lhs = NThread → length rhs = NThread →
  vc_le NThread lhs rhs = Ok true ↔ Forall2 Z.le lhs rhs.
Proof.
  intros Hl Hr. rewrite vc_le_spec by done. unfold vc_leb. split.
  - intros [= H]. by apply bool_decide_eq_true in H.
  - intros H. f_equal. by apply bool_decide_eq_true.
Qed.

(** X1. On clocks of [NThread] components, with [NThread ≤ INT_MAX],
    [operator <=] returns on every pair, its result is [true] exactly when
    no component on the left exceeds the one on the right, and the relation
    it decides is a partial order: reflexive, transitive and antisymmetric. *)
Theorem vc_le_partial_order (a b c : FixedVectorClock) :
  Z.of_nat NThread ≤ INT_MAX →
  length a = NThread → length b = NThread → length c = NThread →
  (∃ r, vc_le NThread a b = Ok r ∧
        (r = true ↔ ∀ i l r', a !! i = Some l → b !! i = Some r' → l ≤ r')) ∧
  vc_le NThread a a = Ok true ∧
  (vc_le NThread a b = Ok true → vc_le NThread b c = Ok true →
   vc_le NThread a c = Ok true) ∧
  (vc_le NThread a b = Ok true → vc_le NThread b a = Ok true → a = b).
Proof.
  intros _ Ha Hb Hc. split.
  { exists (vc_leb a b). split; [by apply vc_le_spec|].
    unfold vc_leb. rewrite bool_decide_eq_true. split.
    - intros Hab i l r' Hl Hr. by apply (Forall2_lookup_lr _ a b i).
    - intros Hab. apply Forall2_same_length_lookup. split; [congruence|].
      intros i l r' Hl Hr. by apply (Hab i). }
  rewrite !vc_le_true by done. split_and!.
  - apply Forall2_same_length_lookup. split; [done|].
    intros i x y Hx Hy. simplify_eq. lia.
  - intros Hab Hbc. eapply Forall2_trans; [|done..].
    intros x y z. simpl. lia.
  - intros Hab Hba. apply list_eq_same_length with NThread; [done..|].
    intros i x y Hi Hx Hy.
    pose proof (Forall2_lookup_lr _ _ _ _ _ _ Hab Hx Hy).
    pose proof (Forall2_lookup_lr _ _ _ _ _ _ Hba Hy Hx). lia.
Qed.

Lemma zip_max_le_l (a b : FixedVectorClock) :
  length a = length b → Forall2 Z.le a (zip_with Z.max a b).
Proof.
  intros Hlen. apply Forall2_same_length_lookup.
  split; [rewrite length_zip_with; lia|].
  intros i x y Hx. rewrite lookup_zip_with, Hx. simpl.
  destruct (b !! i) as [z|]; [|done]. simpl. intros [= <-]. lia.
Qed.

Lemma zip_max_le_r (a b : FixedVectorClock) :
  length a = length b → Forall2 Z.le b (zip_with Z.max a b).
Proof.
  intros Hlen. apply Forall2_same_length_lookup.
  split; [rewrite length_zip_with; lia|].
  intros i x y Hx. rewrite lookup_zip_with, Hx.
  destruct (a !! i) as [z|]; [|done]. simpl. intros [= <-]. lia.
Qed.

Lemma zip_max_lub (a b c : FixedVectorClock) :
  Forall2 Z.le a c → Forall2 Z.le b c → Forall2 Z.le (zip_with Z.max a b) c.
Proof.
  intros Hac Hbc. apply Forall2_same_length_lookup. split.
  - rewrite length_zip_with. apply Forall2_length in Hac, Hbc. lia.
  - intros i x y. rewrite lookup_zip_with.
    destruct (a !! i) as [u|] eqn:Hu; [|done].
    destruct (b !! i) as [v|] eqn:Hv; [|done]. simpl. intros [= <-] Hy.
    pose proof (Forall2_lookup_lr _ _ _ _ _ _ Hac Hu Hy).
    pose proof (Forall2_lookup_lr _ _ _ _ _ _ Hbc Hv Hy). lia.
Qed.

(** X2. On clocks of [NThread] components, with [NThread ≤ INT_MAX],
    [operator |] returns the least clock above both operands in the order
    of [operator <=]. *)
Theorem vc_or_least_upper_bound (a b : FixedVectorClock) :
  Z.of_nat NThread ≤ INT_MAX →
  length a = NThread → length b = NThread →
  ∃ j, vc_or NThread a b = Ok j ∧ length j = NThread ∧
       vc_le NThread a j = Ok true ∧ vc_le NThread b j = Ok true ∧
       ∀ c, length c = NThread →
            vc_le NThread a c = Ok true → vc_le NThread b c = Ok true →
            vc_le NThread j c = Ok true.
Proof.
  intros _ Ha Hb. exists (zip_with Z.max a b).
  assert (length (zip_with Z.max a b) = NThread) as Hj
    by (rewrite length_zip_with; lia).
  split; [by apply vc_join_spec|]. split; [done|].
  rewrite !vc_le_true by done. split_and!.
  - apply zip_max_le_l. lia.
  - apply zip_max_le_r. lia.
  - intros c Hc. rewrite !vc_le_true by done. apply zip_max_lub.
Qed.

(** X3. [operator |] is commutative, idempotent and associative. *)
Theorem vc_or_laws (a b c : FixedVectorClock) :
  length a = NThread → length b = NThread → length c = NThread →
  vc_or NThread a b = vc_or NThread b a ∧
  vc_or NThread a a = Ok a ∧
  (vc_or NThread a b ≫= λ j, vc_or NThread j c) =
  (vc_or NThread b c ≫= λ j, vc_or NThread a j).
Proof.
  intros Ha Hb Hc. unfold vc_or.
  rewrite !vc_join_spec by done. simpl.
  rewrite !vc_join_spec by (rewrite ?length_zip_with; lia).
  assert (∀ x y : FixedVectorClock, zip_with Z.max x y = zip_with Z.max y x) as Hcomm.
  { intros x y. apply list_eq. intros i. rewrite !lookup_zip_with.
    destruct (x !! i), (y !! i); simpl; f_equal; lia. }
  split_and!.
  - f_equal. apply Hcomm.
  - f_equal. apply list_eq. intros i. rewrite lookup_zip_with.
    destruct (a !! i); simpl; f_equal; lia.
  - f_equal. apply list_eq. intros i. rewrite !lookup_zip_with.
    destruct (a !! i), (b !! i), (c !! i); simpl; f_equal; lia.
Qed.

(** ** What the threads know of each other *)

Lemma GetThreadVC_Ok (a : Analyzer) (t : Z) (ct : FixedVectorClock) :
  GetThreadVC t a = Ok ct ↔ thread_vc_ a !! N.to_nat (to_size_t t) = Some ct.
Proof.
  unfold GetThreadVC. split.
  - case_decide; [|done].
    by destruct (thread_vc_ a !! N.to_nat (to_size_t t)); intros [= ->].
  - intros Hct. pose proof (lookup_lt_Some _ _ _ Hct).
    rewrite decide_True by lia. by rewrite Hct.
Qed.

Lemma at_Ok {A} (o : option A) (v : A) : at_ o = Ok v ↔ o = Some v.
Proof. destruct o; simpl; split; congruence. Qed.

(** X4. In every reachable state a thread's own time is at least 1, and neither
    another thread's clock nor a lock's clock is ahead of it:
    [C[u][t] ≤ C[t][t]] and [L[m][t] ≤ C[t][t]]. *)
Theorem own_time_leads (a : Analyzer) (t : Z) (ct : FixedVectorClock) (c : Z) :
  reachable NThread a →
  GetThreadVC t a = Ok ct → index ct (to_size_t t) = Ok c →
  1 ≤ c ∧
  (∀ u cu v, GetThreadVC u a = Ok cu → index cu (to_size_t t) = Ok v → v ≤ c) ∧
  (∀ m lm v, GetLockVC m a = Ok lm → index lm (to_size_t t) = Ok v → v ≤ c).
Proof.
  intros HI%reachable_Inv Hct%GetThreadVC_Ok Hc%index_Ok.
  pose proof (clock_eq a _ ct c Hct Hc) as Hcl.
  pose proof (lookup_lt_Some _ _ _ Hct) as Hlt.
  rewrite (inv_threads _ _ HI) in Hlt. split_and!.
  - rewrite <-Hcl. by apply (inv_own _ _ HI).
  - intros u cu v Hcu%GetThreadVC_Ok Hv%index_Ok.
    destruct (inv_thread_vc _ _ HI _ cu Hcu) as [_ Hdom].
    rewrite <-Hcl. by apply Hdom.
  - intros m lm v Hlm%at_Ok Hv%index_Ok.
    destruct (inv_lock _ _ HI _ lm Hlm) as [_ Hdom].
    rewrite <-Hcl. by apply Hdom.
Qed.

(** ** Components stay within [int] and clocks come in pairs *)

Lemma in_range_zero : in_range (zero NThread).
Proof. apply Forall_replicate. unfold INT_MAX. lia. Qed.

Lemma in_range_insert (vc : FixedVectorClock) (i : nat) (v : Z) :
  in_range vc → 0 ≤ v ≤ INT_MAX → in_range (<[i := v]> vc).
Proof. intros Hvc Hv. by apply Forall_insert. Qed.

Lemma in_range_lookup (vc : FixedVectorClock) (i : nat) (v : Z) :
  in_range vc → vc !! i = Some v → 0 ≤ v ≤ INT_MAX.
Proof. intros Hvc Hv. by eapply (Forall_lookup_1 _ vc i v Hvc). Qed.

Lemma in_range_zip_max (a b : FixedVectorClock) :
  in_range a → in_range b → in_range (zip_with Z.max a b).
Proof.
  intros Ha Hb. apply Forall_lookup. intros i v. rewrite lookup_zip_with.
  destruct (a !! i) as [x|] eqn:Hx; [|done].
  destruct (b !! i) as [y|] eqn:Hy; [|done]. simpl. intros [= <-].
  pose proof (in_range_lookup _ _ _ Ha Hx).
  pose proof (in_range_lookup _ _ _ Hb Hy). lia.
Qed.

Lemma in_range_subscript (m : gmap string FixedVectorClock) (k : string) :
  (∀ k' vc, m !! k' = Some vc → in_range vc) →
  in_range (subscript NThread m k).
Proof.
  intros Hm. unfold subscript. destruct (m !! k) as [vc|] eqn:Hk; simpl.
  - by eapply Hm.
  - apply in_range_zero.
Qed.

Lemma table_insert_in_range (m : gmap string FixedVectorClock) (k : string)
    (vc : FixedVectorClock) :
  (∀ k' vc', m !! k' = Some vc' → in_range vc') → in_range vc →
  ∀ k' vc', <[k := vc]> m !! k' = Some vc' → in_range vc'.
Proof.
  intros Hm Hvc k' vc'. rewrite lookup_insert. case_decide; [|apply Hm].
  by intros [= <-].
Qed.

(** The first write to a variable cannot trip on [W[x]]: the fresh clock
    holds the thread's own time and zeroes. *)
Lemma fresh_stamp_le (ct : FixedVectorClock) (i : nat) (c : Z) :
  length ct = NThread → in_range ct → ct !! i = Some c →
  vc_leb (<[i := c]> (zero NThread)) ct = true.
Proof.
  intros Hlen Hct Hc. apply bool_decide_eq_true.
  apply Forall2_same_length_lookup. split.
  - by rewrite length_insert, length_zero.
  - intros u v w Hv Hw. destruct (decide (u = i)) as [->|Hne].
    + rewrite list_lookup_insert_eq in Hv.
      * simplify_eq. lia.
      * rewrite length_zero, <-Hlen. by eapply lookup_lt_Some.
    + rewrite list_lookup_insert_ne in Hv by done.
      apply lookup_zero in Hv as ->. by apply (in_range_lookup ct u w).
Qed.

Lemma pairs_insert_both (r w : gmap string FixedVectorClock) (k : string)
    (rv wv : FixedVectorClock) :
  (∀ k', is_Some (r !! k') ↔ is_Some (w !! k')) →
  ∀ k', is_Some (<[k := rv]> r !! k') ↔ is_Some (<[k := wv]> w !! k').
Proof.
  intros Hp k'. rewrite !lookup_insert_is_Some. specialize (Hp k'). tauto.
Qed.

Lemma Read_Bounded (a a' : Analyzer) (t : Z) (x : Variable_) (cb : list Callback) :
  Inv NThread a → Bounded a →
  Read NThread t x a = Ok (a', cb) → Bounded a'.
Proof.
  intros HI HB Hrd. pose proof Hrd as Hrd'. unfold Read in Hrd'.
  apply bind_Ok_inv in Hrd' as (ct & (i & Hi & Hct)%index_thread_inv & Hrd').
  apply bind_Ok_inv in Hrd' as (c & Hc%index_Ok & _).
  rewrite Hi, Nat2N.id in Hc.
  rewrite (Read_eq NThread a HI t i Hi ct Hct c Hc) in Hrd. injection Hrd as <- _.
  destruct HB as [Ht Hr Hw Hl Hp].
  pose proof (in_range_lookup ct i c (Ht i ct Hct) Hc) as Hcr.
  split; simpl; try done.
  - apply table_insert_in_range; [done|].
    apply in_range_insert; [by apply in_range_subscript|done].
  - apply table_insert_in_range; [done|]. by apply in_range_subscript.
  - by apply pairs_insert_both.
Qed.

Lemma Write_Bounded (a a' : Analyzer) (t : Z) (x : Variable_) (cb : list Callback) :
  Inv NThread a → Bounded a →
  Write NThread t x a = Ok (a', cb) → Bounded a'.
Proof.
  intros HI HB Hwr. pose proof Hwr as Hwr'. unfold Write in Hwr'.
  apply bind_Ok_inv in Hwr' as (ct & (i & Hi & Hct)%index_thread_inv & Hwr').
  apply bind_Ok_inv in Hwr' as (c & Hc%index_Ok & _).
  rewrite Hi, Nat2N.id in Hc.
  rewrite (Write_eq NThread a HI t i Hi ct Hct c Hc) in Hwr.
  destruct HB as [Ht Hr Hw Hl Hp].
  pose proof (in_range_lookup ct i c (Ht i ct Hct) Hc) as Hcr.
  destruct (inv_thread_vc _ _ HI i ct Hct) as [Hlen _].
  set (wx := <[i := c]> (subscript NThread (write_vc_ a) (var_name x))) in *.
  assert (in_range wx) as Hwx
    by (apply in_range_insert; [by apply in_range_subscript|done]).
  destruct (vc_leb wx ct) eqn:Hleb; injection Hwr as <- _.
  - split; simpl; try done.
    + apply table_insert_in_range; [done|]. by apply in_range_subscript.
    + by apply table_insert_in_range.
    + by apply pairs_insert_both.
  - split; simpl; try done.
    + by apply table_insert_in_range.
    + intros k. rewrite lookup_insert_is_Some.
      destruct (decide (var_name x = k)) as [<-|Hne]; [|rewrite Hp; tauto].
      destruct (write_vc_ a !! var_name x) as [w0|] eqn:Hw0.
      * rewrite Hp, Hw0. split; [by left|by eexists].
      * exfalso. unfold wx, subscript in Hleb. rewrite Hw0 in Hleb. simpl in Hleb.
        rewrite fresh_stamp_le in Hleb by (by try apply Ht with i). done.
Qed.

Lemma Acquire_Bounded (a a' : Analyzer) (t : Z) (m : Lock) (cb : list Callback) :
  Inv NThread a → Bounded a →
  Acquire NThread t m a = Ok (a', cb) → Bounded a'.
Proof.
  intros HI HB Hacq. pose proof Hacq as Hacq'. unfold Acquire in Hacq'.
  apply bind_Ok_inv in Hacq' as (ct & (i & Hi & Hct)%index_thread_inv & _).
  simpl in Hct.
  destruct (inv_thread_vc _ _ HI i ct Hct) as [Hlen _].
  destruct (lookup_lt_is_Some_2 ct i) as [c Hc].
  { rewrite Hlen, <-(inv_threads _ _ HI). by eapply lookup_lt_Some. }
  rewrite (Acquire_eq NThread a HI t i Hi ct Hct c Hc) in Hacq.
  injection Hacq as <- _. destruct HB as [Ht Hr Hw Hl Hp].
  split; simpl; try done.
  - intros u cu. destruct (decide (u = i)) as [->|Hne].
    + rewrite list_lookup_insert_eq by (by eapply lookup_lt_Some).
      intros [= <-]. apply in_range_zip_max; [by eapply Ht|].
      by apply in_range_subscript.
    + rewrite list_lookup_insert_ne by done. apply Ht.
  - apply table_insert_in_range; [done|]. by apply in_range_subscript.
Qed.

Lemma Release_Bounded (a a' : Analyzer) (t : Z) (m : Lock) (cb : list Callback) :
  Inv NThread a → Bounded a →
  Release t m a = Ok (a', cb) → Bounded a'.
Proof.
  intros HI HB Hrel. pose proof Hrel as Hrel'. unfold Release in Hrel'.
  apply bind_Ok_inv in Hrel' as (ct & (i & Hi & Hct)%index_thread_inv & Hrel').
  apply bind_Ok_inv in Hrel' as (c & Hc%index_Ok & Hrel').
  rewrite Hi, Nat2N.id in Hc.
  apply bind_Ok_inv in Hrel' as (c' & Hc' & _).
  unfold incr_int in Hc'. case_decide as Hmax; [|done]. clear Hc'.
  rewrite (Release_eq NThread a HI t i Hi ct Hct c Hc m Hmax) in Hrel.
  injection Hrel as <- _. destruct HB as [Ht Hr Hw Hl Hp].
  pose proof (in_range_lookup ct i c (Ht i ct Hct) Hc) as Hcr.
  assert (in_range (<[i := c + 1]> ct)) as Hct'.
  { apply in_range_insert; [by eapply Ht|lia]. }
  split; simpl; try done.
  - intros u cu. destruct (decide (u = i)) as [->|Hne].
    + rewrite list_lookup_insert_eq by (by eapply lookup_lt_Some). by intros [= <-].
    + rewrite list_lookup_insert_ne by done. apply Ht.
  - by apply table_insert_in_range.
Qed.

Lemma emplace_zero_in_range (m : gmap string FixedVectorClock) (k : string) :
  (∀ k' vc, m !! k' = Some vc → in_range vc) →
  ∀ k' vc, emplace k (zero NThread) m !! k' = Some vc → in_range vc.
Proof.
  intros Hm. unfold emplace. destruct (m !! k); [done|].
  apply table_insert_in_range; [done|apply in_range_zero].
Qed.

Lemma emplace_is_Some_iff (m : gmap string FixedVectorClock) (k k' : string)
    (v : FixedVectorClock) :
  is_Some (emplace k v m !! k') ↔ k = k' ∨ is_Some (m !! k').
Proof.
  unfold emplace. destruct (m !! k) as [w|] eqn:Hk.
  - split; [by right|]. intros [<-|?]; [by exists w|done].
  - rewrite lookup_insert_is_Some. destruct (decide (k = k')); tauto.
Qed.

Lemma step_Bounded (e : Event) (a a' : Analyzer) (cb : list Callback) :
  Inv NThread a → Bounded a →
  step NThread e a = Ok (a', cb) → Bounded a'.
Proof.
  intros HI HB. destruct e as [t x|t x|t m|t m|x|m|f|f]; simpl.
  - by apply Read_Bounded.
  - by apply Write_Bounded.
  - by apply Acquire_Bounded.
  - by apply Release_Bounded.
  - intros [= <- _]. destruct HB as [Ht Hr Hw Hl Hp]. split; simpl; try done.
    + by apply emplace_zero_in_range.
    + by apply emplace_zero_in_range.
    + intros k. rewrite !emplace_is_Some_iff. specialize (Hp k). tauto.
  - intros [= <- _]. destruct HB as [Ht Hr Hw Hl Hp]. split; simpl; try done.
    by apply emplace_zero_in_range.
  - intros [= <- _]. by destruct HB.
  - intros [= <- _]. by destruct HB.
Qed.

Lemma Bounded_new : Bounded (Analyzer_new NThread).
Proof.
  split; simpl; try done.
  intros u cu. rewrite list_lookup_fmap.
  destruct (seq 0 NThread !! u) as [j|]; [|done]. simpl. intros [= <-].
  apply in_range_insert; [apply in_range_zero|]. unfold INT_MAX. lia.
Qed.

Lemma reachable_Bounded (a : Analyzer) : reachable NThread a → Bounded a.
Proof.
  induction 1 as [|e a a' cb Ha IH Hstep]; [apply Bounded_new|].
  eapply step_Bounded; [by apply reachable_Inv|done..].
Qed.

Lemma thread_slot (a : Analyzer) (t : Z) (ct : FixedVectorClock) :
  Inv NThread a → index (thread_vc_ a) (to_size_t t) = Ok ct →
  ∃ i c, to_size_t t = N.of_nat i ∧ thread_vc_ a !! i = Some ct ∧ ct !! i = Some c.
Proof.
  intros HI (i & Hi & Hct)%index_thread_inv.
  destruct (inv_thread_vc _ _ HI i ct Hct) as [Hlen _].
  destruct (lookup_lt_is_Some_2 ct i) as [c Hc].
  { rewrite Hlen, <-(inv_threads _ _ HI). by eapply lookup_lt_Some. }
  by exists i, c.
Qed.

Lemma index_Err {A} (arr : list A) (i : N) (f : fault) :
  index arr i = Err f → f = OutOfBounds.
Proof.
  unfold index. case_decide; [|congruence].
  destruct (arr !! N.to_nat i); congruence.
Qed.

Lemma step_overflow (a : Analyzer) (e : Event) :
  Inv NThread a → Bounded a →
  step NThread e a = Err SignedOverflow ↔
  ∃ t m ct, e = rel t m ∧ GetThreadVC t a = Ok ct ∧
            index ct (to_size_t t) = Ok INT_MAX.
Proof.
  intros HI HB. split.
  - destruct e as [t x|t x|t m|t m|x|m|f|f]; simpl; try done.
    + destruct (index (thread_vc_ a) (to_size_t t)) as [ct|f] eqn:Hidx.
      * destruct (thread_slot a t ct HI Hidx) as (i & c & Hi & Hct & Hc).
        by rewrite (Read_eq NThread a HI t i Hi ct Hct c Hc).
      * unfold Read. rewrite Hidx. simpl. intros [= ->]. by apply index_Err in Hidx.
    + destruct (index (thread_vc_ a) (to_size_t t)) as [ct|f] eqn:Hidx.
      * destruct (thread_slot a t ct HI Hidx) as (i & c & Hi & Hct & Hc).
        rewrite (Write_eq NThread a HI t i Hi ct Hct c Hc). by destruct (vc_leb _ ct).
      * unfold Write. rewrite Hidx. simpl. intros [= ->]. by apply index_Err in Hidx.
    + destruct (index (thread_vc_ a) (to_size_t t)) as [ct|f] eqn:Hidx.
      * destruct (thread_slot a t ct HI Hidx) as (i & c & Hi & Hct & Hc).
        by rewrite (Acquire_eq NThread a HI t i Hi ct Hct c Hc).
      * unfold Acquire. cbn [thread_vc_ set_lock_vc_]. rewrite Hidx. simpl.
        intros [= ->]. by apply index_Err in Hidx.
    + destruct (index (thread_vc_ a) (to_size_t t)) as [ct|f] eqn:Hidx.
      * destruct (thread_slot a t ct HI Hidx) as (i & c & Hi & Hct & Hc).
        destruct (decide (c < INT_MAX)) as [Hlt|Hge].
        { by rewrite (Release_eq NThread a HI t i Hi ct Hct c Hc m Hlt). }
        intros _. exists t, m, ct. split; [done|].
        pose proof (in_range_lookup ct i c (bounded_thread _ HB i ct Hct) Hc).
        assert (c = INT_MAX) as -> by lia. split.
        -- apply GetThreadVC_Ok. by rewrite Hi, Nat2N.id.
        -- rewrite Hi. by apply index_of_nat.
      * unfold Release. rewrite Hidx. simpl. intros [= ->]. by apply index_Err in Hidx.
  - intros (t & m & ct & -> & Hct%GetThreadVC_Ok & Hc%index_Ok). simpl.
    apply (Release_overflow a t (N.to_nat (to_size_t t))
             ltac:(by rewrite N2Nat.id) ct Hct INT_MAX Hc m). lia.
Qed.

(** X5. In every reachable state every component of every thread, read, write
    and lock clock lies in [0, INT_MAX]; and with at most [INT_MAX] threads
    an operation started there ends at the overflow of an [int] exactly
    when it is a [Release] by a thread whose own time is [INT_MAX]: the
    [++] of [Release] is the only place where an [int] can overflow. *)
Theorem clocks_within_int (a : Analyzer) :
  reachable NThread a →
  (∀ vc i v,
     (∃ t, GetThreadVC t a = Ok vc) ∨ (∃ x, GetReadVC x a = Ok vc) ∨
     (∃ x, GetWriteVC x a = Ok vc) ∨ (∃ m, GetLockVC m a = Ok vc) →
     vc !! i = Some v → 0 ≤ v ≤ INT_MAX) ∧
  (Z.of_nat NThread ≤ INT_MAX →
   ∀ e, step NThread e a = Err SignedOverflow ↔
        ∃ t m ct, e = rel t m ∧ GetThreadVC t a = Ok ct ∧
                  index ct (to_size_t t) = Ok INT_MAX).
Proof.
  intros Hr. pose proof (reachable_Bounded a Hr) as HB.
  pose proof (reachable_Inv NThread a Hr) as HI. split.
  - intros vc i v Hvc Hv. apply (in_range_lookup vc i v); [|done].
    destruct Hvc as [[t Ht%GetThreadVC_Ok]|[[x Hx%at_Ok]|[[x Hx%at_Ok]|[m Hm%at_Ok]]]].
    + by eapply bounded_thread.
    + by eapply bounded_read.
    + by eapply bounded_write.
    + by eapply bounded_lock.
  - intros _ e. by apply step_overflow.
Qed.

(** X6. Read and write clocks are created together: in every reachable state
    [GetReadVC(x)] throws exactly when [GetWriteVC(x)] does, and neither
    throws for a registered variable. *)
Theorem access_clocks_in_pairs (a : Analyzer) (x : Variable_) :
  reachable NThread a →
  (GetReadVC x a = Err OutOfRange ↔ GetWriteVC x a = Err OutOfRange) ∧
  (x ∈ GetVariables a →
   ∃ r w, GetReadVC x a = Ok r ∧ GetWriteVC x a = Ok w ∧
          length r = NThread ∧ length w = NThread).
Proof.
  intros Ha. pose proof (reachable_Inv _ _ Ha) as HI.
  pose proof (reachable_Bounded _ Ha) as HB.
  pose proof (bounded_pairs _ HB (var_name x)) as Hp.
  unfold GetReadVC, GetWriteVC. split.
  - destruct (read_vc_ a !! var_name x) as [r|], (write_vc_ a !! var_name x) as [w|];
      simpl; try done.
    + destruct Hp as [[? Hp] _]; [by eexists|done].
    + destruct Hp as [_ [? Hp]]; [by eexists|done].
  - intros [[r Hr] [w Hw]]%(inv_variables _ _ HI). exists r, w.
    rewrite Hr, Hw. split_and!; [done..| |].
    + by destruct (inv_read _ _ HI _ r Hr).
    + by destruct (inv_write _ _ HI _ w Hw).
Qed.

(** ** How the operations move the clocks *)

Lemma Forall2_le_refl (vc : FixedVectorClock) : Forall2 Z.le vc vc.
Proof. apply Forall_Forall2_diag, Forall_forall. intros; lia. Qed.

Lemma Forall2_le_insert (vc : FixedVectorClock) (i : nat) (v' : Z) :
  (∀ v, vc !! i = Some v → v ≤ v') → Forall2 Z.le vc (<[i := v']> vc).
Proof.
  intros Hv. apply Forall2_same_length_lookup. split; [by rewrite length_insert|].
  intros u x y Hx. destruct (decide (u = i)) as [->|Hne].
  - rewrite list_lookup_insert_eq by (by eapply lookup_lt_Some).
    intros [= <-]. by apply Hv.
  - rewrite list_lookup_insert_ne by done. intros Hy. simplify_eq. lia.
Qed.

Lemma table_insert_mono (m : gmap string FixedVectorClock) (k : string)
    (vc' : FixedVectorClock) :
  (∀ vc, m !! k = Some vc → Forall2 Z.le vc vc') →
  ∀ k0 vc, m !! k0 = Some vc →
    ∃ vc0, <[k := vc']> m !! k0 = Some vc0 ∧ Forall2 Z.le vc vc0.
Proof.
  intros Hk k0 vc Hvc. destruct (decide (k = k0)) as [->|Hne].
  - rewrite lookup_insert_eq. eexists. split; [done|]. by apply Hk.
  - rewrite lookup_insert_ne by done. exists vc. split; [done|apply Forall2_le_refl].
Qed.

Lemma table_same_mono (m : gmap string FixedVectorClock) :
  ∀ k0 vc, m !! k0 = Some vc → ∃ vc0, m !! k0 = Some vc0 ∧ Forall2 Z.le vc vc0.
Proof. intros k0 vc Hvc. exists vc. split; [done|apply Forall2_le_refl]. Qed.

Lemma subscript_present_mono (m : gmap string FixedVectorClock) (k : string) :
  ∀ vc, m !! k = Some vc → Forall2 Z.le vc (subscript NThread m k).
Proof. intros vc Hvc. unfold subscript. rewrite Hvc. apply Forall2_le_refl. Qed.

Lemma threads_insert_mono (tv : list FixedVectorClock) (i : nat)
    (ct ct' : FixedVectorClock) :
  tv !! i = Some ct → Forall2 Z.le ct ct' →
  ∀ u cu, tv !! u = Some cu →
    ∃ cu', <[i := ct']> tv !! u = Some cu' ∧ Forall2 Z.le cu cu'.
Proof.
  intros Hct Hle u cu Hcu. destruct (decide (u = i)) as [->|Hne].
  - rewrite list_lookup_insert_eq by (by eapply lookup_lt_Some).
    simplify_eq. by exists ct'.
  - rewrite list_lookup_insert_ne by done. exists cu.
    split; [done|apply Forall2_le_refl].
Qed.

(** X7. No operation takes a thread, read or write clock back, component by
    component, and none removes a clock of any kind. *)
Theorem clocks_never_go_back (e : Event) (a a' : Analyzer) (cb : list Callback) :
  reachable NThread a → step NThread e a = Ok (a', cb) →
  (∀ u cu, thread_vc_ a !! u = Some cu →
     ∃ cu', thread_vc_ a' !! u = Some cu' ∧ Forall2 Z.le cu cu') ∧
  (∀ k vc, read_vc_ a !! k = Some vc →
     ∃ vc', read_vc_ a' !! k = Some vc' ∧ Forall2 Z.le vc vc') ∧
  (∀ k vc, write_vc_ a !! k = Some vc →
     ∃ vc', write_vc_ a' !! k = Some vc' ∧ Forall2 Z.le vc vc') ∧
  (∀ k, is_Some (lock_vc_ a !! k) → is_Some (lock_vc_ a' !! k)).
Proof.
  intros HI%reachable_Inv Hstep.
  assert (∀ (i : nat) ct c vc,
            thread_vc_ a !! i = Some ct → ct !! i = Some c →
            good NThread a vc → ∀ v, vc !! i = Some v → v ≤ c) as Hstamp.
  { intros i ct c vc Hct Hc [_ Hdom] v Hv.
    rewrite <-(clock_eq a i ct c Hct Hc). by apply Hdom. }
  destruct e as [t x|t x|t m|t m|x|m|f|f]; simpl in Hstep.
  - pose proof Hstep as Hrd'. unfold Read in Hrd'.
    apply bind_Ok_inv in Hrd' as (ct & (i & Hi & Hct)%index_thread_inv & Hrd').
    apply bind_Ok_inv in Hrd' as (c & Hc%index_Ok & _).
    rewrite Hi, Nat2N.id in Hc.
    rewrite (Read_eq NThread a HI t i Hi ct Hct c Hc) in Hstep.
    injection Hstep as <- _. simpl. split_and!.
    + intros u cu Hcu. exists cu. split; [done|apply Forall2_le_refl].
    + apply table_insert_mono. intros vc Hvc. unfold subscript. rewrite Hvc. simpl.
      apply Forall2_le_insert. intros v Hv.
      eapply (Hstamp i ct c vc); [done..| |done]. by eapply inv_read.
    + apply table_insert_mono, subscript_present_mono.
    + done.
  - pose proof Hstep as Hwr'. unfold Write in Hwr'.
    apply bind_Ok_inv in Hwr' as (ct & (i & Hi & Hct)%index_thread_inv & Hwr').
    apply bind_Ok_inv in Hwr' as (c & Hc%index_Ok & _).
    rewrite Hi, Nat2N.id in Hc.
    rewrite (Write_eq NThread a HI t i Hi ct Hct c Hc) in Hstep.
    assert (∀ k vc, write_vc_ a !! k = Some vc →
              ∃ vc', <[var_name x := <[i := c]>
                         (subscript NThread (write_vc_ a) (var_name x))]>
                       (write_vc_ a) !! k = Some vc' ∧ Forall2 Z.le vc vc') as Hw.
    { apply table_insert_mono. intros vc Hvc. unfold subscript. rewrite Hvc. simpl.
      apply Forall2_le_insert. intros v Hv.
      eapply (Hstamp i ct c vc); [done..| |done]. by eapply inv_write. }
    destruct (vc_leb _ ct); injection Hstep as <- _; simpl; split_and!;
      first [ done
            | apply table_same_mono
            | apply table_insert_mono, subscript_present_mono
            | intros u cu Hcu; exists cu; split; [done|apply Forall2_le_refl] ].
  - pose proof Hstep as Hacq'. unfold Acquire in Hacq'.
    apply bind_Ok_inv in Hacq' as (ct & (i & Hi & Hct)%index_thread_inv & _).
    simpl in Hct. destruct (inv_thread_vc _ _ HI i ct Hct) as [Hlen _].
    destruct (lookup_lt_is_Some_2 ct i) as [c Hc].
    { rewrite Hlen, <-(inv_threads _ _ HI). by eapply lookup_lt_Some. }
    rewrite (Acquire_eq NThread a HI t i Hi ct Hct c Hc) in Hstep.
    injection Hstep as <- _. simpl. split_and!; try apply table_same_mono.
    + apply (threads_insert_mono _ i ct); [done|]. apply zip_max_le_l.
      rewrite Hlen. symmetry. apply length_subscript.
      intros k vc Hk. by eapply inv_lock.
    + intros k Hk. rewrite lookup_insert_is_Some.
      destruct (decide (lock_name m = k)); [by left|by right].
  - pose proof Hstep as Hrel'. unfold Release in Hrel'.
    apply bind_Ok_inv in Hrel' as (ct & (i & Hi & Hct)%index_thread_inv & Hrel').
    apply bind_Ok_inv in Hrel' as (c & Hc%index_Ok & Hrel').
    rewrite Hi, Nat2N.id in Hc.
    apply bind_Ok_inv in Hrel' as (c' & Hc' & _).
    unfold incr_int in Hc'. case_decide as Hmax; [|done]. clear Hc'.
    rewrite (Release_eq NThread a HI t i Hi ct Hct c Hc m Hmax) in Hstep.
    injection Hstep as <- _. simpl. split_and!; try apply table_same_mono.
    + apply (threads_insert_mono _ i ct); [done|]. apply Forall2_le_insert.
      intros v Hv. simplify_eq. lia.
    + intros k Hk. rewrite lookup_insert_is_Some.
      destruct (decide (lock_name m = k)); [by left|by right].
  - injection Hstep as <- _. simpl. split_and!.
    + intros u cu Hcu. exists cu. split; [done|apply Forall2_le_refl].
    + intros k vc Hvc. exists vc. split; [|apply Forall2_le_refl].
      unfold emplace. destruct (read_vc_ a !! var_name x) eqn:Hx; [done|].
      rewrite lookup_insert_ne; [done|]. intros <-. congruence.
    + intros k vc Hvc. exists vc. split; [|apply Forall2_le_refl].
      unfold emplace. destruct (write_vc_ a !! var_name x) eqn:Hx; [done|].
      rewrite lookup_insert_ne; [done|]. intros <-. congruence.
    + done.
  - injection Hstep as <- _. simpl. split_and!; try apply table_same_mono.
    + intros u cu Hcu. exists cu. split; [done|apply Forall2_le_refl].
    + intros k Hk. apply emplace_is_Some_iff. by right.
  - injection Hstep as <- _. simpl. split_and!; try apply table_same_mono; [|done].
    intros u cu Hcu. exists cu. split; [done|apply Forall2_le_refl].
  - injection Hstep as <- _. simpl. split_and!; try apply table_same_mono; [|done].
    intros u cu Hcu. exists cu. split; [done|apply Forall2_le_refl].
Qed.

(** X8. An acquire reports nothing and changes one clock, the acquiring
    thread's: the read and write clocks, the lists, the handlers and the
    other threads' clocks are as before, and every lock clock reads as
    before ([lock_vc_[m]] may come into being as the zero clock). *)
Theorem Acquire_changes_one_clock (a a' : Analyzer) (t : Z) (m : Lock)
    (cb : list Callback) :
  reachable NThread a → Acquire NThread t m a = Ok (a', cb) →
  cb = [] ∧
  read_vc_ a' = read_vc_ a ∧ write_vc_ a' = write_vc_ a ∧
  GetVariables a' = GetVariables a ∧ GetLocks a' = GetLocks a ∧
  on_read_violated_ a' = on_read_violated_ a ∧
  on_write_violated_ a' = on_write_violated_ a ∧
  (∀ m' u, lock_time NThread a' m' u = lock_time NThread a m' u) ∧
  (∀ u, u ≠ N.to_nat (to_size_t t) → thread_vc_ a' !! u = thread_vc_ a !! u).
Proof.
  intros HI%reachable_Inv Hacq. pose proof Hacq as Hacq'. unfold Acquire in Hacq'.
  apply bind_Ok_inv in Hacq' as (ct & (i & Hi & Hct)%index_thread_inv & _).
  simpl in Hct. destruct (inv_thread_vc _ _ HI i ct Hct) as [Hlen _].
  destruct (lookup_lt_is_Some_2 ct i) as [c Hc].
  { rewrite Hlen, <-(inv_threads _ _ HI). by eapply lookup_lt_Some. }
  rewrite (Acquire_eq NThread a HI t i Hi ct Hct c Hc) in Hacq.
  injection Hacq as <- <-. simpl. split_and!; try done.
  - intros m' u. unfold lock_time, subscript. simpl.
    destruct (decide (lock_name m = lock_name m')) as [Heq|Hne].
    + rewrite Heq, lookup_insert_eq. done.
    + by rewrite lookup_insert_ne.
  - intros u Hu. rewrite Hi, Nat2N.id in Hu. by rewrite list_lookup_insert_ne.
Qed.

(** X9. A read or a write touches no thread clock and no lock clock. *)
Theorem access_keeps_synchronisation (a a' : Analyzer) (t : Z) (x : Variable_)
    (cb : list Callback) :
  Read NThread t x a = Ok (a', cb) ∨ Write NThread t x a = Ok (a', cb) →
  thread_vc_ a' = thread_vc_ a ∧ lock_vc_ a' = lock_vc_ a ∧
  GetVariables a' = GetVariables a ∧ GetLocks a' = GetLocks a.
Proof.
  intros [Hrd|Hwr].
  - unfold Read in Hrd.
    apply bind_Ok_inv in Hrd as (ct & _ & Hrd).
    apply bind_Ok_inv in Hrd as (c & _ & Hrd).
    apply bind_Ok_inv in Hrd as (rx & _ & Hrd).
    apply bind_Ok_inv in Hrd as (ct' & _ & Hrd).
    apply bind_Ok_inv in Hrd as (v & _ & Hrd).
    by injection Hrd as <- _.
  - unfold Write in Hwr.
    apply bind_Ok_inv in Hwr as (ct & _ & Hwr).
    apply bind_Ok_inv in Hwr as (c & _ & Hwr).
    apply bind_Ok_inv in Hwr as (wx & _ & Hwr).
    apply bind_Ok_inv in Hwr as (ct' & _ & Hwr).
    apply bind_Ok_inv in Hwr as ([|] & _ & Hwr).
    + by injection Hwr as <- _.
    + apply bind_Ok_inv in Hwr as (ct'' & _ & Hwr).
      apply bind_Ok_inv in Hwr as (v & _ & Hwr).
      by injection Hwr as <- _.
Qed.

(** ** Synchronisation through a lock *)

Lemma Forall2_le_stamp (vc ct : FixedVectorClock) (i : nat) (c : Z) :
  Forall2 Z.le vc ct → ct !! i = Some c → Forall2 Z.le (<[i := c]> vc) ct.
Proof.
  intros Hle Hc. apply Forall2_same_length_lookup.
  pose proof (Forall2_length _ _ _ Hle) as Hlen.
  split; [by rewrite length_insert|].
  intros u x y Hx Hy. destruct (decide (u = i)) as [->|Hne].
  - rewrite list_lookup_insert_eq in Hx; [simplify_eq; lia|].
    rewrite Hlen. by eapply lookup_lt_Some.
  - rewrite list_lookup_insert_ne in Hx by done.
    by eapply (Forall2_lookup_lr _ vc ct u).
Qed.

(** X10. The release-acquire edge.  When thread [u] has seen every access to
    [x] (the read and write clocks of [x] are at most [u]'s clock) and
    releases [m], a thread [t] that acquires [m] next can read [x] and can
    write [x] with no violation reported, whatever the handlers are. *)
Theorem lock_hand_over (a a1 a2 : Analyzer) (u t : Z) (m : Lock) (x : Variable_)
    (cu : FixedVectorClock) (cb1 cb2 : list Callback) :
  reachable NThread a →
  GetThreadVC u a = Ok cu →
  vc_le NThread (subscript NThread (read_vc_ a) (var_name x)) cu = Ok true →
  vc_le NThread (subscript NThread (write_vc_ a) (var_name x)) cu = Ok true →
  Release u m a = Ok (a1, cb1) →
  Acquire NThread t m a1 = Ok (a2, cb2) →
  (∃ a3, Read NThread t x a2 = Ok (a3, [])) ∧
  (∃ a4, Write NThread t x a2 = Ok (a4, [])).
Proof.
  intros HI%reachable_Inv Hcu Hr Hw Hrel Hacq.
  pose proof (Release_Inv NThread _ _ _ _ _ HI Hrel) as HI1.
  pose proof (Acquire_Inv NThread _ _ _ _ _ HI1 Hacq) as HI2.
  pose proof Hrel as Hrel'. unfold Release in Hrel'.
  apply bind_Ok_inv in Hrel' as (cu' & Hidx & Hrel').
  destruct (thread_slot a u cu' HI Hidx) as (iu & c & Hiu & Hcu' & Hc).
  apply GetThreadVC_Ok in Hcu. rewrite Hiu, Nat2N.id in Hcu.
  assert (cu' = cu) as -> by congruence. clear Hcu.
  apply bind_Ok_inv in Hrel' as (c0 & Hc0%index_Ok & Hrel').
  rewrite Hiu, Nat2N.id in Hc0. assert (c0 = c) as -> by congruence. clear Hc0.
  apply bind_Ok_inv in Hrel' as (c' & Hc' & _).
  unfold incr_int in Hc'. case_decide as Hmax; [|done]. clear Hc'.
  rewrite (Release_eq NThread a HI u iu Hiu cu Hcu' c Hc m Hmax) in Hrel.
  set (cu1 := <[iu := c + 1]> cu) in *.
  assert (lock_vc_ a1 = <[lock_name m := cu1]> (lock_vc_ a) ∧
          read_vc_ a1 = read_vc_ a ∧ write_vc_ a1 = write_vc_ a)
    as (HL1 & HR1 & HW1) by (by injection Hrel as <- _).
  clear Hrel.
  pose proof Hacq as Hacq'. unfold Acquire in Hacq'.
  apply bind_Ok_inv in Hacq' as (ct & Hidx1 & _).
  destruct (thread_slot a1 t ct HI1 Hidx1) as (it & c1 & Hit & Hct & Hc1).
  rewrite (Acquire_eq NThread a1 HI1 t it Hit ct Hct c1 Hc1) in Hacq.
  assert (subscript NThread (lock_vc_ a1) (lock_name m) = cu1) as Hlm.
  { unfold subscript. by rewrite HL1, lookup_insert_eq. }
  rewrite Hlm in Hacq. clear Hlm.
  set (ct2 := zip_with Z.max ct cu1) in *.
  assert (thread_vc_ a2 = <[it := ct2]> (thread_vc_ a1) ∧
          read_vc_ a2 = read_vc_ a ∧ write_vc_ a2 = write_vc_ a)
    as (HC2 & HR & HW).
  { rewrite <-HR1, <-HW1. by injection Hacq as <- _. }
  clear Hacq.
  destruct (inv_thread_vc _ _ HI iu cu Hcu') as [Hlcu _].
  destruct (inv_thread_vc _ _ HI1 it ct Hct) as [Hlct _].
  assert (thread_vc_ a2 !! it = Some ct2) as Hct2.
  { rewrite HC2, list_lookup_insert_eq; [done|]. by eapply lookup_lt_Some. }
  destruct (inv_thread_vc _ _ HI2 it ct2 Hct2) as [Hlct2 _].
  destruct (lookup_lt_is_Some_2 ct2 it) as [c2 Hc2].
  { rewrite Hlct2, <-Hlct. by eapply lookup_lt_Some. }
  assert (Forall2 Z.le cu ct2) as Hcu2.
  { eapply Forall2_trans; [intros ???; apply Z.le_trans| |].
    - apply (Forall2_le_insert cu iu (c + 1)). intros v Hv. simplify_eq. lia.
    - apply zip_max_le_r. unfold cu1. by rewrite length_insert, Hlct, Hlcu. }
  apply vc_le_true in Hr;
    [|apply length_subscript; intros k' vc Hk; by destruct (inv_read _ _ HI k' vc Hk)|done].
  apply vc_le_true in Hw;
    [|apply length_subscript; intros k' vc Hk; by destruct (inv_write _ _ HI k' vc Hk)|done].
  assert (Forall2 Z.le (subscript NThread (read_vc_ a) (var_name x)) ct2) as Hr2.
  { eapply Forall2_trans; [intros ???; apply Z.le_trans|done..]. }
  assert (Forall2 Z.le (subscript NThread (write_vc_ a) (var_name x)) ct2) as Hw2.
  { eapply Forall2_trans; [intros ???; apply Z.le_trans|done..]. }
  split.
  - rewrite (Read_eq NThread a2 HI2 t it Hit ct2 Hct2 c2 Hc2). rewrite HW.
    unfold vc_leb. rewrite (bool_decide_eq_true_2 _ Hw2). simpl. by eexists.
  - rewrite (Write_eq NThread a2 HI2 t it Hit ct2 Hct2 c2 Hc2). rewrite HW, HR.
    unfold vc_leb.
    rewrite (bool_decide_eq_true_2 _ (Forall2_le_stamp _ _ _ _ Hw2 Hc2)).
    rewrite (bool_decide_eq_true_2 _ Hr2). simpl. by eexists.
Qed.

(** ** Handlers *)

(** X11. The handlers decide what is reported and nothing else: an access under
    any setting of its handler fails exactly when it fails with the handler
    installed, leaves the same clocks, and reports what the installed
    handler would, or nothing when there is none. *)
Theorem handlers_only_report (a : Analyzer) (t : Z) (x : Variable_) (f : bool) :
  Read NThread t x (SetReadViolationHandler f a) =
    ('(a', cb) ← Read NThread t x (SetReadViolationHandler true a);
     Ok (SetReadViolationHandler f a', if f then cb else [])) ∧
  Write NThread t x (SetWriteViolationHandler f a) =
    ('(a', cb) ← Write NThread t x (SetWriteViolationHandler true a);
     Ok (SetWriteViolationHandler f a', if f then cb else [])).
Proof.
  split.
  - unfold Read. simpl.
    destruct (index (thread_vc_ a) (to_size_t t)) as [ct|]; simpl; [|reflexivity].
    destruct (index ct (to_size_t t)) as [c|]; simpl; [|reflexivity].
    destruct (assign _ _ _) as [rx|]; simpl; [|reflexivity].
    destruct (vc_gt NThread _ ct) as [v|]; simpl; [|reflexivity].
    destruct v, f; reflexivity.
  - unfold Write. simpl.
    destruct (index (thread_vc_ a) (to_size_t t)) as [ct|]; simpl; [|reflexivity].
    destruct (index ct (to_size_t t)) as [c|]; simpl; [|reflexivity].
    destruct (assign _ _ _) as [wx|]; simpl; [|reflexivity].
    destruct (vc_gt NThread wx ct) as [v|]; simpl; [|reflexivity].
    destruct v; simpl.
    + destruct f; reflexivity.
    + destruct (vc_gt NThread _ ct) as [v|]; simpl; [|reflexivity].
      destruct v, f; reflexivity.
Qed.

(** ** Printing the clocks ([main.cpp]) *)

Lemma for_int_spec {A} (body : Z → result A) (f : nat → A) (n t0 : nat) :
  (∀ k, (t0 ≤ k < t0 + n)%nat → body (Z.of_nat k) = Ok (f k)) →
  Z.of_nat (t0 + n) ≤ INT_MAX →
  for_int body (Z.of_nat t0) n = Ok (f <$> seq t0 n).
Proof.
  revert t0. induction n as [|n IH]; intros t0 Hbody Hmax; [done|].
  simpl. rewrite (Hbody t0) by lia. simpl.
  unfold incr_int. rewrite decide_True by lia. simpl.
  replace (Z.of_nat t0 + 1) with (Z.of_nat (S t0)) by lia.
  rewrite IH; [done| |lia]. intros k Hk. apply Hbody. lia.
Qed.

Lemma for_each_spec {A B} (body : A → result (list B)) (g : A → list B)
    (l : list A) :
  (∀ x, x ∈ l → body x = Ok (g x)) → for_each body l = Ok (l ≫= g).
Proof.
  induction l as [|x l IH]; intros Hbody; [done|].
  simpl. rewrite (Hbody x) by constructor. simpl.
  rewrite IH; [done|]. intros y Hy. apply Hbody. by constructor.
Qed.

Lemma to_size_t_of_nat (k : nat) :
  Z.of_nat k ≤ INT_MAX → to_size_t (Z.of_nat k) = N.of_nat k.
Proof.
  intros Hk. rewrite to_size_t_small; [lia|]. unfold INT_MAX in Hk. lia.
Qed.

Lemma fmap_lookup_seq {A} (d : A) (l : list A) (n : nat) :
  (λ k, default d (l !! k)) <$> seq n (length l - n) = drop n l.
Proof.
  apply list_eq. intros i. rewrite list_lookup_fmap, lookup_drop.
  destruct (decide (i < length l - n)%nat) as [Hlt|Hge].
  - rewrite lookup_seq_lt by done. simpl.
    destruct (lookup_lt_is_Some_2 l (n + i)) as [v Hv]; [lia|]. by rewrite Hv.
  - rewrite lookup_seq_ge by lia. simpl. symmetry. apply lookup_ge_None. lia.
Qed.

Lemma PrintVC_eq (vc : FixedVectorClock) :
  length vc = NThread → (1 ≤ NThread)%nat → Z.of_nat NThread ≤ INT_MAX →
  PrintVC NThread vc = Ok vc.
Proof.
  intros Hlen H1 Hmax. unfold PrintVC.
  destruct vc as [|v vs]; [simpl in Hlen; lia|].
  change (index (v :: vs) 0) with (Ok v : result Z). simpl.
  rewrite (for_int_spec _ (λ k, default 0 ((v :: vs) !! k)) (NThread - 1) 1).
  - simpl. do 2 f_equal. rewrite <-Hlen.
    by rewrite (fmap_lookup_seq 0 (v :: vs) 1).
  - intros k Hk. rewrite to_size_t_of_nat by lia.
    destruct (lookup_lt_is_Some_2 (v :: vs) k) as [w Hw]; [lia|].
    rewrite Hw. simpl. by apply index_of_nat.
  - lia.
Qed.

Lemma length_bind_pair {A B} (f g : A → B) (l : list A) :
  length (l ≫= λ x, [f x; g x]) = (2 * length l)%nat.
Proof.
  induction l as [|x l IH]; [done|].
  rewrite bind_cons, length_app, IH. simpl. lia.
Qed.

(** X12. On every state the operations can reach, with at least one thread and
    fewer than 2^31, [PrintVCs] throws nothing and prints the clocks as they
    are: the thread clocks in order, the read then the write clock of every
    registered variable, the clock of every registered lock; that is one
    clock of [NThread] numbers under every title [PrintHeader] prints. *)
Theorem PrintVCs_prints_every_clock (a : Analyzer) :
  reachable NThread a → (1 ≤ NThread)%nat → Z.of_nat NThread ≤ INT_MAX →
  ∃ titles rows,
    PrintHeader NThread a = Ok titles ∧ PrintVCs NThread a = Ok rows ∧
    rows = thread_vc_ a
           ++ (GetVariables a ≫= λ x,
                 [subscript NThread (read_vc_ a) (var_name x);
                  subscript NThread (write_vc_ a) (var_name x)])
           ++ ((λ m, subscript NThread (lock_vc_ a) (lock_name m)) <$> GetLocks a) ∧
    length rows = length titles ∧ Forall (λ r, length r = NThread) rows.
Proof.
  intros HI%reachable_Inv H1 Hmax.
  pose proof (inv_threads _ _ HI) as Hlen.
  assert (∀ k, (k < NThread)%nat →
            GetThreadVC (Z.of_nat k) a ≫= PrintVC NThread
            = Ok (default [] (thread_vc_ a !! k))) as Hthread.
  { intros k Hk. destruct (lookup_lt_is_Some_2 (thread_vc_ a) k) as [ck Hck]; [lia|].
    assert (GetThreadVC (Z.of_nat k) a = Ok ck) as ->.
    { apply GetThreadVC_Ok. by rewrite to_size_t_of_nat, Nat2N.id by lia. }
    rewrite Hck. simpl. apply PrintVC_eq; [|done..].
    by destruct (inv_thread_vc _ _ HI k ck Hck). }
  assert (∀ x, x ∈ GetVariables a →
            (r ← GetReadVC x a ≫= PrintVC NThread;
             w ← GetWriteVC x a ≫= PrintVC NThread;
             Ok [r; w])
            = Ok [subscript NThread (read_vc_ a) (var_name x);
                  subscript NThread (write_vc_ a) (var_name x)]) as Hvar.
  { intros x Hx. destruct (inv_variables _ _ HI x Hx) as [[r Hr] [w Hw]].
    unfold GetReadVC, GetWriteVC, subscript. rewrite Hr, Hw. simpl.
    rewrite (PrintVC_eq r); [|by destruct (inv_read _ _ HI _ _ Hr)|done..]. simpl.
    rewrite (PrintVC_eq w); [|by destruct (inv_write _ _ HI _ _ Hw)|done..]. done. }
  assert (∀ m, m ∈ GetLocks a →
            (l ← GetLockVC m a ≫= PrintVC NThread; Ok [l])
            = Ok [subscript NThread (lock_vc_ a) (lock_name m)]) as Hlock.
  { intros m Hm. destruct (inv_locks _ _ HI m Hm) as [l Hl].
    unfold GetLockVC, subscript. rewrite Hl. simpl.
    rewrite (PrintVC_eq l); [|by destruct (inv_lock _ _ HI _ _ Hl)|done..]. done. }
  unfold PrintHeader, PrintVCs.
  rewrite (for_int_spec _ (λ k, ColC (Z.of_nat k)) (NThread - 1) 1); [|done|lia].
  pose proof (Hthread 0%nat ltac:(lia)) as H0. change (Z.of_nat 0) with 0 in H0.
  rewrite H0. clear H0.
  rewrite (for_int_spec _ (λ k, default [] (thread_vc_ a !! k)) (NThread - 1) 1);
    [|intros k Hk; apply Hthread; lia|lia].
  rewrite (for_each_spec _ _ _ Hvar).
  rewrite (for_each_spec _ (λ m, [subscript NThread (lock_vc_ a) (lock_name m)]) _ Hlock).
  simpl. do 2 eexists. split; [done|]. split; [done|].
  assert (default [] (thread_vc_ a !! 0%nat)
          :: ((λ k, default [] (thread_vc_ a !! k)) <$> seq 1 (NThread - 1))
          = thread_vc_ a) as Hrows.
  { rewrite <-Hlen, (fmap_lookup_seq [] (thread_vc_ a) 1).
    destruct (thread_vc_ a) as [|c0 cs]; [simpl in Hlen; lia|]. done. }
  assert (∀ l : list Lock,
            l ≫= (λ m, [subscript NThread (lock_vc_ a) (lock_name m)])
            = (λ m, subscript NThread (lock_vc_ a) (lock_name m)) <$> l) as Hbind.
  { induction l as [|m l IH]; [done|]. by rewrite bind_cons, IH. }
  rewrite Hbind. split_and!.
  - by rewrite app_comm_cons, Hrows.
  - simpl. rewrite !length_app, !length_fmap, !length_bind_pair, length_seq. done.
  - rewrite app_comm_cons, Hrows. rewrite !Forall_app. split_and!.
    + apply Forall_forall. intros ck [k Hck]%list_elem_of_lookup.
      by destruct (inv_thread_vc _ _ HI k ck Hck).
    + apply Forall_forall. intros r (x & Hr & Hx)%list_elem_of_bind.
      destruct (inv_variables _ _ HI x Hx) as [[rx Hrx] [wx Hwx]].
      unfold subscript in Hr. rewrite Hrx, Hwx in Hr. simpl in Hr.
      apply elem_of_cons in Hr as [->|Hr].
      { by destruct (inv_read _ _ HI _ _ Hrx). }
      apply list_elem_of_singleton in Hr as ->.
      by destruct (inv_write _ _ HI _ _ Hwx).
    + apply Forall_forall. intros r (m & -> & Hm)%list_elem_of_fmap.
      destruct (inv_locks _ _ HI m Hm) as [l Hl].
      unfold subscript. rewrite Hl. simpl.
      by destruct (inv_lock _ _ HI _ _ Hl).
Qed.

(** ** One thread alone *)

Lemma only_component_zero (i : nat) : only_component i (zero NThread).
Proof. intros u v _ Hv. unfold zero in Hv. by apply lookup_replicate in Hv as [-> _]. Qed.

Lemma only_component_insert (i : nat) (vc : FixedVectorClock) (c : Z) :
  only_component i vc → only_component i (<[i := c]> vc).
Proof.
  intros Hvc u v Hu Hv. rewrite list_lookup_insert_ne in Hv by done.
  by apply (Hvc u).
Qed.

Lemma only_component_zip_max (i : nat) (a b : FixedVectorClock) :
  only_component i a → only_component i b →
  only_component i (zip_with Z.max a b).
Proof.
  intros Ha Hb u v Hu Hv.
  apply lookup_zip_with_Some in Hv as (x & y & -> & Hx & Hy).
  rewrite (Ha u x Hu Hx), (Hb u y Hu Hy). done.
Qed.

Lemma only_component_subscript (i : nat) (m : gmap string FixedVectorClock)
    (k : string) :
  (∀ k' vc, m !! k' = Some vc → only_component i vc) →
  only_component i (subscript NThread m k).
Proof.
  intros Hm. unfold subscript. destruct (m !! k) as [vc|] eqn:Hk; simpl.
  - by apply (Hm k).
  - apply only_component_zero.
Qed.

Lemma only_component_table (i : nat) (m : gmap string FixedVectorClock)
    (k : string) (vc : FixedVectorClock) :
  only_component i vc →
  (∀ k' vc', m !! k' = Some vc' → only_component i vc') →
  ∀ k' vc', <[k := vc]> m !! k' = Some vc' → only_component i vc'.
Proof.
  intros Hvc Hm k' vc' Hk'. destruct (decide (k = k')) as [->|Hne].
  - rewrite lookup_insert_eq in Hk'. by simplify_eq.
  - rewrite lookup_insert_ne in Hk' by done. by apply (Hm k').
Qed.

Lemma only_component_emplace (i : nat) (m : gmap string FixedVectorClock)
    (k : string) :
  (∀ k' vc', m !! k' = Some vc' → only_component i vc') →
  ∀ k' vc', emplace k (zero NThread) m !! k' = Some vc' → only_component i vc'.
Proof.
  intros Hm k' vc'. unfold emplace. destruct (m !! k) eqn:Hk.
  - apply Hm.
  - apply only_component_table; [apply only_component_zero|done].
Qed.

Lemma only_component_le (i : nat) (vc ct : FixedVectorClock) :
  length vc = length ct →
  only_component i vc → only_component i ct →
  (∀ v c, vc !! i = Some v → ct !! i = Some c → v ≤ c) →
  Forall2 Z.le vc ct.
Proof.
  intros Hlen Hvc Hct Hi. apply Forall2_same_length_lookup. split; [done|].
  intros u x y Hx Hy. destruct (decide (u = i)) as [->|Hne].
  - by apply Hi.
  - rewrite (Hvc u x Hne Hx), (Hct u y Hne Hy). done.
Qed.

Lemma only_thread_new (i : nat) : only_thread i (Analyzer_new NThread).
Proof.
  intros vc [Hvc|[[k Hk]|[[k Hk]|[k Hk]]]]; simpl in *; try done.
  rewrite list_lookup_fmap in Hvc.
  destruct (seq 0 NThread !! i) as [j|] eqn:Hj; [|done].
  apply lookup_seq in Hj as [-> _]. simpl in Hvc. simplify_eq.
  apply only_component_insert, only_component_zero.
Qed.

Lemma step_only_thread (e : Event) (t : Z) (a a' : Analyzer) (cb : list Callback) :
  Inv NThread a → only_thread (N.to_nat (to_size_t t)) a →
  event_thread e = None ∨ event_thread e = Some t →
  step NThread e a = Ok (a', cb) →
  only_thread (N.to_nat (to_size_t t)) a' ∧ cb = [].
Proof.
  intros HI Honly He Hstep.
  set (i := N.to_nat (to_size_t t)) in *.
  assert (∀ vc, thread_vc_ a !! i = Some vc → only_component i vc) as HoC
    by (intros vc Hvc; apply Honly; by left).
  assert (∀ k vc, read_vc_ a !! k = Some vc → only_component i vc) as HoR
    by (intros k vc Hvc; apply Honly; right; left; by exists k).
  assert (∀ k vc, write_vc_ a !! k = Some vc → only_component i vc) as HoW
    by (intros k vc Hvc; apply Honly; right; right; left; by exists k).
  assert (∀ k vc, lock_vc_ a !! k = Some vc → only_component i vc) as HoL
    by (intros k vc Hvc; apply Honly; right; right; right; by exists k).
  assert (∀ ct c vc, thread_vc_ a !! i = Some ct → ct !! i = Some c →
            good NThread a vc → only_component i vc → Forall2 Z.le vc ct) as Hle.
  { intros ct c vc Hct Hc [Hlen Hdom] Hvc.
    destruct (inv_thread_vc _ _ HI i ct Hct) as [Hlct _].
    apply (only_component_le i); [congruence|done|by apply HoC|].
    intros v c0 Hv Hc0. rewrite <-(clock_eq a i ct c0 Hct Hc0). by apply Hdom. }
  assert (∀ ct, index (thread_vc_ a) (to_size_t t) = Ok ct →
            to_size_t t = N.of_nat i ∧ thread_vc_ a !! i = Some ct ∧
            ∃ c, ct !! i = Some c) as Hslot.
  { intros ct Hidx. destruct (thread_slot a t ct HI Hidx) as (j & c & Hj & Hct & Hc).
    assert (j = i) as -> by (unfold i; rewrite Hj; by rewrite Nat2N.id).
    split_and!; [done..|by exists c]. }
  destruct e as [t' x|t' x|t' m|t' m|x|m|f|f]; simpl in He, Hstep;
    try (destruct He as [He|He]; [done|injection He as ->]).
  - pose proof Hstep as Hrd. unfold Read in Hrd.
    apply bind_Ok_inv in Hrd as (ct & (Hi & Hct & c & Hc)%Hslot & _).
    rewrite (Read_eq NThread a HI t i Hi ct Hct c Hc) in Hstep.
    unfold vc_leb in Hstep.
    rewrite (bool_decide_eq_true_2 _ (Hle ct c _ Hct Hc
               (good_subscript NThread a _ (var_name x) HI (inv_write _ _ HI))
               (only_component_subscript i _ _ HoW))) in Hstep.
    injection Hstep as <- <-. split; [|done].
    intros vc [Hvc|[[k Hk]|[[k Hk]|[k Hk]]]]; simpl in *.
    + by apply HoC.
    + revert Hk. apply only_component_table; [|done].
      by apply only_component_insert, only_component_subscript.
    + revert Hk. apply only_component_table; [|done].
      by apply only_component_subscript.
    + by apply (HoL k).
  - pose proof Hstep as Hwr. unfold Write in Hwr.
    apply bind_Ok_inv in Hwr as (ct & (Hi & Hct & c & Hc)%Hslot & _).
    rewrite (Write_eq NThread a HI t i Hi ct Hct c Hc) in Hstep.
    assert (Forall2 Z.le (subscript NThread (write_vc_ a) (var_name x)) ct) as Hw.
    { apply (Hle ct c); [done..| |by apply only_component_subscript].
      apply good_subscript; [done|]. apply (inv_write _ _ HI). }
    unfold vc_leb in Hstep.
    rewrite (bool_decide_eq_true_2 _ (Forall2_le_stamp _ _ _ _ Hw Hc)) in Hstep.
    rewrite (bool_decide_eq_true_2 _ (Hle ct c _ Hct Hc
               (good_subscript NThread a _ (var_name x) HI (inv_read _ _ HI))
               (only_component_subscript i _ _ HoR))) in Hstep.
    injection Hstep as <- <-. split; [|done].
    intros vc [Hvc|[[k Hk]|[[k Hk]|[k Hk]]]]; simpl in *.
    + by apply HoC.
    + revert Hk. apply only_component_table; [|done].
      by apply only_component_subscript.
    + revert Hk. apply only_component_table; [|done].
      by apply only_component_insert, only_component_subscript.
    + by apply (HoL k).
  - pose proof Hstep as Hacq. unfold Acquire in Hacq.
    apply bind_Ok_inv in Hacq as (ct & (Hi & Hct & c & Hc)%Hslot & _).
    rewrite (Acquire_eq NThread a HI t i Hi ct Hct c Hc) in Hstep.
    injection Hstep as <- <-. split; [|done].
    intros vc [Hvc|[[k Hk]|[[k Hk]|[k Hk]]]]; simpl in *.
    + rewrite list_lookup_insert_eq in Hvc by (by eapply lookup_lt_Some).
      injection Hvc as <-.
      apply only_component_zip_max; [by apply HoC|].
      by apply only_component_subscript.
    + by apply (HoR k).
    + by apply (HoW k).
    + revert Hk. apply only_component_table; [|done].
      by apply only_component_subscript.
  - pose proof Hstep as Hrel. unfold Release in Hrel.
    apply bind_Ok_inv in Hrel as (ct & Hidx & Hrel).
    pose proof (Hslot ct Hidx) as (Hi & Hct & c & Hc).
    apply bind_Ok_inv in Hrel as (c0 & Hc0%index_Ok & Hrel).
    rewrite Hi, Nat2N.id in Hc0. assert (c0 = c) as -> by congruence.
    apply bind_Ok_inv in Hrel as (c' & Hc' & _).
    unfold incr_int in Hc'. case_decide as Hmax; [|done]. clear Hc'.
    rewrite (Release_eq NThread a HI t i Hi ct Hct c Hc m Hmax) in Hstep.
    injection Hstep as <- <-. split; [|done].
    intros vc [Hvc|[[k Hk]|[[k Hk]|[k Hk]]]]; simpl in *.
    + rewrite list_lookup_insert_eq in Hvc by (by eapply lookup_lt_Some).
      injection Hvc as <-. by apply only_component_insert, HoC.
    + by apply (HoR k).
    + by apply (HoW k).
    + revert Hk. apply only_component_table; [|done].
      by apply only_component_insert, HoC.
  - injection Hstep as <- <-. split; [|done].
    intros vc [Hvc|[[k Hk]|[[k Hk]|[k Hk]]]]; simpl in *.
    + by apply HoC.
    + revert Hk. by apply (only_component_emplace i _ (var_name x)).
    + revert Hk. by apply (only_component_emplace i _ (var_name x)).
    + by apply (HoL k).
  - injection Hstep as <- <-. split; [|done].
    intros vc [Hvc|[[k Hk]|[[k Hk]|[k Hk]]]]; simpl in *.
    + by apply HoC.
    + by apply (HoR k).
    + by apply (HoW k).
    + revert Hk. by apply (only_component_emplace i _ (lock_name m)).
  - injection Hstep as <- <-. split; [|done].
    intros vc [Hvc|[[k Hk]|[[k Hk]|[k Hk]]]]; simpl in *;
      [by apply HoC|by apply (HoR k)|by apply (HoW k)|by apply (HoL k)].
  - injection Hstep as <- <-. split; [|done].
    intros vc [Hvc|[[k Hk]|[[k Hk]|[k Hk]]]]; simpl in *;
      [by apply HoC|by apply (HoR k)|by apply (HoW k)|by apply (HoL k)].
Qed.

Lemma run_only_thread (es : list Event) (t : Z) (a a' : Analyzer)
    (cb : list Callback) :
  Inv NThread a → only_thread (N.to_nat (to_size_t t)) a →
  Forall (λ e, event_thread e = None ∨ event_thread e = Some t) es →
  run NThread es a = Ok (a', cb) → cb = [].
Proof.
  revert a cb. induction es as [|e es IH]; intros a cb HI Honly Hes Hrun.
  - by injection Hrun as _ <-.
  - apply Forall_cons in Hes as [He Hes]. simpl in Hrun.
    apply bind_Ok_inv in Hrun as ([a1 cb1] & Hstep & Hrun).
    apply bind_Ok_inv in Hrun as ([a2 cb2] & Hrest & Hrun).
    injection Hrun as <- <-.
    destruct (step_only_thread e t a a1 cb1 HI Honly He Hstep) as [Honly1 ->].
    by rewrite (IH a1 cb2 (step_Inv NThread e a a1 [] HI Hstep) Honly1 Hes Hrest).
Qed.

(** X13. A race takes two threads.  When every access, acquire and release of
    a run from the initial state is made as one thread [t], no handler is
    ever called, however the handlers are set and whatever is registered
    on the way. *)
Theorem single_thread_never_reports (es : list Event) (t : Z) (a : Analyzer)
    (cb : list Callback) :
  Forall (λ e, event_thread e = None ∨ event_thread e = Some t) es →
  run NThread es (Analyzer_new NThread) = Ok (a, cb) →
  cb = [].
Proof.
  intros Hes Hrun.
  by apply (run_only_thread es t (Analyzer_new NThread) a cb
              (Inv_new NThread) (only_thread_new _) Hes Hrun).
Qed.

(** ** What the acquirer has seen *)

Lemma Forall2_le_insert_l (vc ct : FixedVectorClock) (i : nat) (v : Z) :
  Forall2 Z.le vc ct → (∀ y, ct !! i = Some y → v ≤ y) →
  Forall2 Z.le (<[i := v]> vc) ct.
Proof.
  intros Hle Hv. apply Forall2_same_length_lookup.
  pose proof (Forall2_length _ _ _ Hle) as Hlen.
  split; [by rewrite length_insert|].
  intros u x y Hx Hy. destruct (decide (u = i)) as [->|Hne].
  - rewrite list_lookup_insert_eq in Hx; [simplify_eq; by apply Hv|].
    rewrite Hlen. by eapply lookup_lt_Some.
  - rewrite list_lookup_insert_ne in Hx by done.
    by eapply (Forall2_lookup_lr _ vc ct u).
Qed.

Lemma Forall2_le_trans (a b c : FixedVectorClock) :
  Forall2 Z.le a b → Forall2 Z.le b c → Forall2 Z.le a c.
Proof. apply Forall2_trans. intros ???; apply Z.le_trans. Qed.

(** X14. [Release] increments the thread's own time before it copies the clock
    into the lock, so the lock carries the time of the section that starts
    at the release.  When thread [t] has seen every access to [x] and
    releases [m], and thread [u] acquires [m], a write of [x] that [t]
    makes after its release is taken by [u] as seen: the write of [x] by
    [u] that follows reports nothing, whatever the handlers are. *)
Theorem write_after_release_is_seen (a a1 a2 a3 : Analyzer) (t u : Z) (m : Lock)
    (x : Variable_) (ct : FixedVectorClock) (cb1 cb2 cb3 : list Callback) :
  reachable NThread a →
  GetThreadVC t a = Ok ct →
  vc_le NThread (subscript NThread (read_vc_ a) (var_name x)) ct = Ok true →
  vc_le NThread (subscript NThread (write_vc_ a) (var_name x)) ct = Ok true →
  Release t m a = Ok (a1, cb1) →
  Acquire NThread u m a1 = Ok (a2, cb2) →
  Write NThread t x a2 = Ok (a3, cb3) →
  cb3 = [] ∧ ∃ a4, Write NThread u x a3 = Ok (a4, []).
Proof.
  intros HI%reachable_Inv Hct Hr Hw Hrel Hacq Hwr.
  pose proof (Release_Inv NThread _ _ _ _ _ HI Hrel) as HI1.
  pose proof (Acquire_Inv NThread _ _ _ _ _ HI1 Hacq) as HI2.
  pose proof (Write_Inv NThread _ _ _ _ _ HI2 Hwr) as HI3.
  (* the release *)
  pose proof Hrel as Hrel'. unfold Release in Hrel'.
  apply bind_Ok_inv in Hrel' as (ct' & Hidx & Hrel').
  destruct (thread_slot a t ct' HI Hidx) as (it & c & Hit & Hct' & Hc).
  apply GetThreadVC_Ok in Hct. rewrite Hit, Nat2N.id in Hct.
  assert (ct' = ct) as -> by congruence. clear Hct.
  apply bind_Ok_inv in Hrel' as (c0 & Hc0%index_Ok & Hrel').
  rewrite Hit, Nat2N.id in Hc0. assert (c0 = c) as -> by congruence. clear Hc0.
  apply bind_Ok_inv in Hrel' as (c' & Hc' & _).
  unfold incr_int in Hc'. case_decide as Hmax; [|done]. clear Hc'.
  rewrite (Release_eq NThread a HI t it Hit ct Hct' c Hc m Hmax) in Hrel.
  set (ct1 := <[it := c + 1]> ct) in *.
  assert (thread_vc_ a1 = <[it := ct1]> (thread_vc_ a) ∧
          lock_vc_ a1 = <[lock_name m := ct1]> (lock_vc_ a) ∧
          read_vc_ a1 = read_vc_ a ∧ write_vc_ a1 = write_vc_ a)
    as (HC1 & HL1 & HR1 & HW1) by (by injection Hrel as <- _).
  clear Hrel.
  destruct (inv_thread_vc _ _ HI it ct Hct') as [Hlct _].
  assert (it < length (thread_vc_ a))%nat as Hitlt by (by eapply lookup_lt_Some).
  assert (thread_vc_ a1 !! it = Some ct1) as Hct1
    by (by rewrite HC1, list_lookup_insert_eq).
  assert (ct1 !! it = Some (c + 1)) as Hc1.
  { unfold ct1. rewrite list_lookup_insert_eq; [done|]. by eapply lookup_lt_Some. }
  (* the acquire *)
  pose proof Hacq as Hacq'. unfold Acquire in Hacq'.
  apply bind_Ok_inv in Hacq' as (cu & Hidx1 & _).
  destruct (thread_slot a1 u cu HI1 Hidx1) as (iu & d & Hiu & Hcu & Hd).
  rewrite (Acquire_eq NThread a1 HI1 u iu Hiu cu Hcu d Hd) in Hacq.
  assert (subscript NThread (lock_vc_ a1) (lock_name m) = ct1) as Hlm.
  { unfold subscript. by rewrite HL1, lookup_insert_eq. }
  rewrite Hlm in Hacq. clear Hlm.
  set (cu2 := zip_with Z.max cu ct1) in *.
  assert (thread_vc_ a2 = <[iu := cu2]> (thread_vc_ a1) ∧
          read_vc_ a2 = read_vc_ a ∧ write_vc_ a2 = write_vc_ a)
    as (HC2 & HR2 & HW2).
  { rewrite <-HR1, <-HW1. by injection Hacq as <- _. }
  clear Hacq.
  destruct (inv_thread_vc _ _ HI1 iu cu Hcu) as [Hlcu _].
  assert (length ct1 = NThread) as Hlct1 by (unfold ct1; by rewrite length_insert).
  assert (thread_vc_ a2 !! iu = Some cu2) as Hcu2.
  { rewrite HC2, list_lookup_insert_eq; [done|]. by eapply lookup_lt_Some. }
  destruct (inv_thread_vc _ _ HI2 iu cu2 Hcu2) as [Hlcu2 _].
  assert (Forall2 Z.le ct ct1) as Hle1.
  { apply (Forall2_le_insert ct it (c + 1)). intros v Hv. simplify_eq. lia. }
  assert (Forall2 Z.le ct1 cu2) as Hle2
    by (apply zip_max_le_r; congruence).
  apply vc_le_true in Hr;
    [|apply length_subscript; intros k' vc Hk; by destruct (inv_read _ _ HI k' vc Hk)|done].
  apply vc_le_true in Hw;
    [|apply length_subscript; intros k' vc Hk; by destruct (inv_write _ _ HI k' vc Hk)|done].
  (* the thread clock [t] writes with *)
  assert (∃ ct2, thread_vc_ a2 !! it = Some ct2 ∧ ct2 !! it = Some (c + 1) ∧
                 Forall2 Z.le ct1 ct2) as (ct2 & Hct2 & Hc2 & Hle12).
  { destruct (decide (it = iu)) as [->|Hne].
    - exists cu2. split_and!; [done| |done].
      assert (cu = ct1) as -> by congruence.
      unfold cu2. rewrite lookup_zip_with, Hc1. simpl. f_equal. lia.
    - exists ct1. rewrite HC2, list_lookup_insert_ne by done.
      split_and!; [done..|apply Forall2_le_refl]. }
  assert (Forall2 Z.le (subscript NThread (read_vc_ a) (var_name x)) ct2) as Hr2.
  { apply (Forall2_le_trans _ ct); [done|]. by apply (Forall2_le_trans _ ct1). }
  assert (Forall2 Z.le (subscript NThread (write_vc_ a) (var_name x)) ct2) as Hw2.
  { apply (Forall2_le_trans _ ct); [done|]. by apply (Forall2_le_trans _ ct1). }
  (* the write by [t] *)
  rewrite (Write_eq NThread a2 HI2 t it Hit ct2 Hct2 (c + 1) Hc2) in Hwr.
  rewrite HW2, HR2 in Hwr. unfold vc_leb in Hwr.
  rewrite (bool_decide_eq_true_2 _ (Forall2_le_stamp _ _ _ _ Hw2 Hc2)) in Hwr.
  rewrite (bool_decide_eq_true_2 _ Hr2) in Hwr. simpl in Hwr.
  set (wx3 := <[it := c + 1]> (subscript NThread (write_vc_ a) (var_name x))) in *.
  assert (cb3 = [] ∧ thread_vc_ a3 = thread_vc_ a2 ∧
          subscript NThread (read_vc_ a3) (var_name x)
            = subscript NThread (read_vc_ a) (var_name x) ∧
          subscript NThread (write_vc_ a3) (var_name x) = wx3)
    as (-> & HC3 & HR3 & HW3).
  { injection Hwr as <- <-. simpl. unfold subscript.
    by rewrite !lookup_insert_eq. }
  clear Hwr. split; [done|].
  (* the write by [u] *)
  assert (thread_vc_ a3 !! iu = Some cu2) as Hcu3 by (by rewrite HC3).
  destruct (lookup_lt_is_Some_2 cu2 iu) as [d2 Hd2].
  { rewrite Hlcu2, <-Hlcu. by eapply lookup_lt_Some. }
  assert (Forall2 Z.le (subscript NThread (read_vc_ a) (var_name x)) cu2) as Hr3.
  { apply (Forall2_le_trans _ ct); [done|]. by apply (Forall2_le_trans _ ct1). }
  assert (Forall2 Z.le wx3 cu2) as Hw3.
  { apply Forall2_le_insert_l.
    - apply (Forall2_le_trans _ ct); [done|]. by apply (Forall2_le_trans _ ct1).
    - intros y Hy. eapply (Forall2_lookup_lr _ ct1 cu2 it); done. }
  rewrite (Write_eq NThread a3 HI3 u iu Hiu cu2 Hcu3 d2 Hd2).
  rewrite HW3, HR3. unfold vc_leb.
  rewrite (bool_decide_eq_true_2 _ (Forall2_le_stamp _ _ _ _ Hw3 Hd2)).
  rewrite (bool_decide_eq_true_2 _ Hr3). simpl. by eexists.
Qed.

End WithNThread.

(** ** The properties at the analyzer of [main.cpp] *)

Lemma released_by_0_reachable : reachable kNumThread released_by_0.
Proof.
  apply (reachable_step kNumThread (rel 0 m) main_analyzer released_by_0 []).
  - apply main_analyzer_reachable.
  - vm_compute. reflexivity.
Qed.

Lemma acquired_by_1_reachable : reachable kNumThread acquired_by_1.
Proof.
  apply (reachable_step kNumThread (acq 1 m) released_by_0 acquired_by_1 []).
  - apply released_by_0_reachable.
  - vm_compute. reflexivity.
Qed.

Lemma vc_le_partial_order_witness :
  Z.of_nat kNumThread ≤ INT_MAX ∧
  length [1; 0] = kNumThread ∧ length [1; 1] = kNumThread ∧
  length [2; 1] = kNumThread ∧
  (∃ r, vc_le kNumThread [1; 0] [1; 1] = Ok r ∧
        (r = true ↔
         ∀ i l r', [1; 0] !! i = Some l → [1; 1] !! i = Some r' → l ≤ r')) ∧
  vc_le kNumThread [1; 0] [1; 0] = Ok true ∧
  (vc_le kNumThread [1; 0] [1; 1] = Ok true →
   vc_le kNumThread [1; 1] [2; 1] = Ok true →
   vc_le kNumThread [1; 0] [2; 1] = Ok true) ∧
  (vc_le kNumThread [1; 0] [1; 1] = Ok true →
   vc_le kNumThread [1; 1] [1; 0] = Ok true → [1; 0] = [1; 1]).
Proof.
  split; [by vm_compute|].
  split; [reflexivity|]. split; [reflexivity|]. split; [reflexivity|].
  apply (vc_le_partial_order kNumThread [1; 0] [1; 1] [2; 1]);
    [by vm_compute|reflexivity..].
Defined.

Lemma vc_or_least_upper_bound_witness :
  Z.of_nat kNumThread ≤ INT_MAX ∧
  length [1; 0] = kNumThread ∧ length [0; 1] = kNumThread ∧
  ∃ j, vc_or kNumThread [1; 0] [0; 1] = Ok j ∧ length j = kNumThread ∧
       vc_le kNumThread [1; 0] j = Ok true ∧ vc_le kNumThread [0; 1] j = Ok true ∧
       ∀ c, length c = kNumThread →
            vc_le kNumThread [1; 0] c = Ok true →
            vc_le kNumThread [0; 1] c = Ok true →
            vc_le kNumThread j c = Ok true.
Proof.
  split; [by vm_compute|]. split; [reflexivity|]. split; [reflexivity|].
  apply (vc_or_least_upper_bound kNumThread [1; 0] [0; 1]);
    [by vm_compute|reflexivity..].
Defined.

Lemma vc_or_laws_witness :
  length [1; 0] = kNumThread ∧ length [0; 1] = kNumThread ∧
  length [2; 0] = kNumThread ∧
  vc_or kNumThread [1; 0] [0; 1] = vc_or kNumThread [0; 1] [1; 0] ∧
  vc_or kNumThread [1; 0] [1; 0] = Ok [1; 0] ∧
  (vc_or kNumThread [1; 0] [0; 1] ≫= λ j, vc_or kNumThread j [2; 0]) =
  (vc_or kNumThread [0; 1] [2; 0] ≫= λ j, vc_or kNumThread [1; 0] j).
Proof.
  split; [reflexivity|]. split; [reflexivity|]. split; [reflexivity|].
  apply (vc_or_laws kNumThread [1; 0] [0; 1] [2; 0]); reflexivity.
Defined.

Lemma own_time_leads_witness :
  reachable kNumThread acquired_by_1 ∧
  GetThreadVC 0 acquired_by_1 = Ok [2; 0] ∧
  index [2; 0] (to_size_t 0) = Ok 2 ∧
  1 ≤ 2 ∧
  (∀ u cu v, GetThreadVC u acquired_by_1 = Ok cu →
             index cu (to_size_t 0) = Ok v → v ≤ 2) ∧
  (∀ m lm v, GetLockVC m acquired_by_1 = Ok lm →
             index lm (to_size_t 0) = Ok v → v ≤ 2).
Proof.
  split; [apply acquired_by_1_reachable|].
  split; [reflexivity|]. split; [reflexivity|].
  apply (own_time_leads kNumThread acquired_by_1 0 [2; 0] 2).
  - apply acquired_by_1_reachable.
  - reflexivity.
  - reflexivity.
Defined.

Lemma clocks_within_int_witness :
  reachable kNumThread acquired_by_1 ∧
  (∀ vc i v,
     (∃ t, GetThreadVC t acquired_by_1 = Ok vc) ∨
     (∃ x, GetReadVC x acquired_by_1 = Ok vc) ∨
     (∃ x, GetWriteVC x acquired_by_1 = Ok vc) ∨
     (∃ m, GetLockVC m acquired_by_1 = Ok vc) →
     vc !! i = Some v → 0 ≤ v ≤ INT_MAX) ∧
  (Z.of_nat kNumThread ≤ INT_MAX →
   ∀ e, step kNumThread e acquired_by_1 = Err SignedOverflow ↔
        ∃ t m ct, e = rel t m ∧ GetThreadVC t acquired_by_1 = Ok ct ∧
                  index ct (to_size_t t) = Ok INT_MAX).
Proof.
  split; [apply acquired_by_1_reachable|].
  apply (clocks_within_int kNumThread acquired_by_1).
  apply acquired_by_1_reachable.
Defined.

Lemma access_clocks_in_pairs_witness :
  reachable kNumThread main_analyzer ∧
  (GetReadVC x main_analyzer = Err OutOfRange ↔
   GetWriteVC x main_analyzer = Err OutOfRange) ∧
  (x ∈ GetVariables main_analyzer →
   ∃ r w, GetReadVC x main_analyzer = Ok r ∧ GetWriteVC x main_analyzer = Ok w ∧
          length r = kNumThread ∧ length w = kNumThread).
Proof.
  split; [apply main_analyzer_reachable|].
  apply (access_clocks_in_pairs kNumThread main_analyzer x).
  apply main_analyzer_reachable.
Defined.

Lemma clocks_never_go_back_witness :
  reachable kNumThread main_analyzer ∧
  step kNumThread (rel 0 m) main_analyzer = Ok (released_by_0, []) ∧
  (∀ u cu, thread_vc_ main_analyzer !! u = Some cu →
     ∃ cu', thread_vc_ released_by_0 !! u = Some cu' ∧ Forall2 Z.le cu cu') ∧
  (∀ k vc, read_vc_ main_analyzer !! k = Some vc →
     ∃ vc', read_vc_ released_by_0 !! k = Some vc' ∧ Forall2 Z.le vc vc') ∧
  (∀ k vc, write_vc_ main_analyzer !! k = Some vc →
     ∃ vc', write_vc_ released_by_0 !! k = Some vc' ∧ Forall2 Z.le vc vc') ∧
  (∀ k, is_Some (lock_vc_ main_analyzer !! k) →
        is_Some (lock_vc_ released_by_0 !! k)).
Proof.
  split; [apply main_analyzer_reachable|].
  split; [vm_compute; reflexivity|].
  apply (clocks_never_go_back kNumThread (rel 0 m) main_analyzer released_by_0 []).
  - apply main_analyzer_reachable.
  - vm_compute. reflexivity.
Defined.

Lemma Acquire_changes_one_clock_witness :
  reachable kNumThread released_by_0 ∧
  Acquire kNumThread 1 m released_by_0 = Ok (acquired_by_1, []) ∧
  ([] : list Callback) = [] ∧
  read_vc_ acquired_by_1 = read_vc_ released_by_0 ∧
  write_vc_ acquired_by_1 = write_vc_ released_by_0 ∧
  GetVariables acquired_by_1 = GetVariables released_by_0 ∧
  GetLocks acquired_by_1 = GetLocks released_by_0 ∧
  on_read_violated_ acquired_by_1 = on_read_violated_ released_by_0 ∧
  on_write_violated_ acquired_by_1 = on_write_violated_ released_by_0 ∧
  (∀ m' u, lock_time kNumThread acquired_by_1 m' u
           = lock_time kNumThread released_by_0 m' u) ∧
  (∀ u, u ≠ N.to_nat (to_size_t 1) →
        thread_vc_ acquired_by_1 !! u = thread_vc_ released_by_0 !! u).
Proof.
  split; [apply released_by_0_reachable|].
  split; [vm_compute; reflexivity|].
  apply (Acquire_changes_one_clock kNumThread released_by_0 acquired_by_1 1 m []).
  - apply released_by_0_reachable.
  - vm_compute. reflexivity.
Defined.

Lemma access_keeps_synchronisation_witness :
  (Read kNumThread 1 x main_analyzer = Ok (after_foreign_write, []) ∨
   Write kNumThread 1 x main_analyzer = Ok (after_foreign_write, [])) ∧
  thread_vc_ after_foreign_write = thread_vc_ main_analyzer ∧
  lock_vc_ after_foreign_write = lock_vc_ main_analyzer ∧
  GetVariables after_foreign_write = GetVariables main_analyzer ∧
  GetLocks after_foreign_write = GetLocks main_analyzer.
Proof.
  assert (Read kNumThread 1 x main_analyzer = Ok (after_foreign_write, []) ∨
          Write kNumThread 1 x main_analyzer = Ok (after_foreign_write, [])) as H
    by (right; vm_compute; reflexivity).
  split; [exact H|].
  apply (access_keeps_synchronisation kNumThread main_analyzer
           after_foreign_write 1 x []).
  exact H.
Defined.

Lemma lock_hand_over_witness :
  reachable kNumThread main_analyzer ∧
  GetThreadVC 0 main_analyzer = Ok [1; 0] ∧
  vc_le kNumThread (subscript kNumThread (read_vc_ main_analyzer) (var_name x))
    [1; 0] = Ok true ∧
  vc_le kNumThread (subscript kNumThread (write_vc_ main_analyzer) (var_name x))
    [1; 0] = Ok true ∧
  Release 0 m main_analyzer = Ok (released_by_0, []) ∧
  Acquire kNumThread 1 m released_by_0 = Ok (acquired_by_1, []) ∧
  (∃ a3, Read kNumThread 1 x acquired_by_1 = Ok (a3, [])) ∧
  (∃ a4, Write kNumThread 1 x acquired_by_1 = Ok (a4, [])).
Proof.
  split; [apply main_analyzer_reachable|].
  split; [reflexivity|].
  split; [vm_compute; reflexivity|]. split; [vm_compute; reflexivity|].
  split; [vm_compute; reflexivity|]. split; [vm_compute; reflexivity|].
  apply (lock_hand_over kNumThread main_analyzer released_by_0 acquired_by_1
           0 1 m x [1; 0] [] []).
  - apply main_analyzer_reachable.
  - reflexivity.
  - vm_compute. reflexivity.
  - vm_compute. reflexivity.
  - vm_compute. reflexivity.
  - vm_compute. reflexivity.
Defined.

Lemma PrintVCs_prints_every_clock_witness :
  reachable kNumThread acquired_by_1 ∧ (1 ≤ kNumThread)%nat ∧
  Z.of_nat kNumThread ≤ INT_MAX ∧
  ∃ titles rows,
    PrintHeader kNumThread acquired_by_1 = Ok titles ∧
    PrintVCs kNumThread acquired_by_1 = Ok rows ∧
    rows = thread_vc_ acquired_by_1
           ++ (GetVariables acquired_by_1 ≫= λ x,
                 [subscript kNumThread (read_vc_ acquired_by_1) (var_name x);
                  subscript kNumThread (write_vc_ acquired_by_1) (var_name x)])
           ++ ((λ m, subscript kNumThread (lock_vc_ acquired_by_1) (lock_name m))
                 <$> GetLocks acquired_by_1) ∧
    length rows = length titles ∧ Forall (λ r, length r = kNumThread) rows.
Proof.
  split; [apply acquired_by_1_reachable|].
  split; [vm_compute; lia|]. split; [by vm_compute|].
  apply (PrintVCs_prints_every_clock kNumThread acquired_by_1).
  - apply acquired_by_1_reachable.
  - vm_compute. lia.
  - by vm_compute.
Defined.

Lemma single_thread_never_reports_witness :
  Forall (λ e, event_thread e = None ∨ event_thread e = Some 0)
    single_thread_events ∧
  run kNumThread single_thread_events (Analyzer_new kNumThread)
    = Ok (single_thread_final, []) ∧
  ([] : list Callback) = [].
Proof.
  assert (Forall (λ e, event_thread e = None ∨ event_thread e = Some 0)
            single_thread_events) as H.
  { unfold single_thread_events.
    repeat (apply Forall_cons; split; [simpl; auto|]). apply Forall_nil_2. }
  split; [exact H|]. split; [vm_compute; reflexivity|].
  apply (single_thread_never_reports kNumThread single_thread_events 0
           single_thread_final []).
  - exact H.
  - vm_compute. reflexivity.
Defined.

Lemma write_after_release_is_seen_witness :
  reachable kNumThread main_analyzer ∧
  GetThreadVC 0 main_analyzer = Ok [1; 0] ∧
  vc_le kNumThread (subscript kNumThread (read_vc_ main_analyzer) (var_name x))
    [1; 0] = Ok true ∧
  vc_le kNumThread (subscript kNumThread (write_vc_ main_analyzer) (var_name x))
    [1; 0] = Ok true ∧
  Release 0 m main_analyzer = Ok (released_by_0, []) ∧
  Acquire kNumThread 1 m released_by_0 = Ok (acquired_by_1, []) ∧
  Write kNumThread 0 x acquired_by_1 = Ok (written_by_0, []) ∧
  ([] : list Callback) = [] ∧
  ∃ a4, Write kNumThread 1 x written_by_0 = Ok (a4, []).
Proof.
  split; [apply main_analyzer_reachable|].
  split; [reflexivity|].
  split; [vm_compute; reflexivity|]. split; [vm_compute; reflexivity|].
  split; [vm_compute; reflexivity|]. split; [vm_compute; reflexivity|].
  split; [vm_compute; reflexivity|].
  apply (write_after_release_is_seen kNumThread main_analyzer released_by_0
           acquired_by_1 written_by_0 0 1 m x [1; 0] [] [] []).
  - apply main_analyzer_reachable.
  - reflexivity.
  - vm_compute. reflexivity.
  - vm_compute. reflexivity.
  - vm_compute. reflexivity.
  - vm_compute. reflexivity.
  - vm_compute. reflexivity.
Defined.

End FixedMore.

(** * More of the Pin tool ([VectorClock.cpp]) *)

Module PintoolMore.
Import Pintool PintoolProofs.

(** ** The clock operations *)

Lemma time_vc_join_max (lhs rhs : VC) (t : THREADID) :
  (∀ k v, lhs !! k = Some v → 0 ≤ v) →
  time (vc_join lhs rhs) t = Z.max (time lhs t) (time rhs t).
Proof.
  intros Hpos. unfold time at 1. rewrite vc_join_lookup.
  unfold time. destruct (rhs !! t) as [v|] eqn:Hr; simpl; [done|].
  destruct (lhs !! t) as [w|] eqn:Hl; simpl; [|done].
  specialize (Hpos t w Hl). lia.
Qed.

(** X15. [operator |=] of the map clocks: the result has the entries of both
    sides, and when the left side has no negative entry every thread's time
    in it is the larger of the two times. *)
Theorem vc_join_is_max (lhs rhs : VC) :
  dom (vc_join lhs rhs) = dom lhs ∪ dom rhs ∧
  ((∀ k v, lhs !! k = Some v → 0 ≤ v) →
   ∀ t, time (vc_join lhs rhs) t = Z.max (time lhs t) (time rhs t)).
Proof.
  split.
  - apply set_eq. intros k. rewrite elem_of_union, !elem_of_dom, vc_join_lookup.
    destruct (rhs !! k) as [v|] eqn:Hr.
    + split; [intros _; by right|intros _; by eexists].
    + split; [intros Hl; by left|]. intros [Hl|[v Hv]]; [done|discriminate].
  - intros Hpos t. by apply time_vc_join_max.
Qed.

Lemma vc_le_positive (lhs rhs : VC) :
  positive lhs → (∀ k w, rhs !! k = Some w → 0 ≤ w) →
  ∃ r, vc_le lhs rhs = Ok r ∧ (r = true ↔ ∀ t, time lhs t ≤ time rhs t).
Proof.
  intros Hl Hr. destruct (vc_le_defined lhs rhs) as [r Hle].
  { intros k v Hv. specialize (Hl k v Hv). lia. }
  exists r. split; [done|]. by apply vc_le_sound.
Qed.

(** X16. [operator <=] and [operator >] of the map clocks, where they are
    defined: with positive entries on the left and no negative entry on the
    right, [<=] returns whether every thread's time on the left is at most
    its time on the right, and [>] returns the opposite. *)
Theorem vc_le_decides (lhs rhs : VC) :
  positive lhs → (∀ k w, rhs !! k = Some w → 0 ≤ w) →
  ∃ r, vc_le lhs rhs = Ok r ∧ vc_gt lhs rhs = Ok (negb r) ∧
       (r = true ↔ ∀ t, time lhs t ≤ time rhs t).
Proof.
  intros Hl Hr. destruct (vc_le_positive lhs rhs Hl Hr) as (r & Hle & Hiff).
  exists r. split_and!; [done| |done]. unfold vc_gt. by rewrite Hle.
Qed.

(** ** What every run keeps *)

Lemma total_bind {A B} (F : fault → Prop) (P : State → Prop) (m : M A)
    (Q : A → State → Prop) (f : A → M B) (R : B → State → Prop) :
  total F P m Q → (∀ a, total F (Q a) (f a) R) → total F P (m ≫= f) R.
Proof.
  intros Hm Hf s HP. unfold mbind, M_bind. specialize (Hm s HP).
  destruct (m s) as [[a s1]|]; [|done]. by apply Hf.
Qed.

Lemma total_ret {A} (F : fault → Prop) (P : State → Prop) (a : A)
    (Q : A → State → Prop) :
  (∀ s, P s → Q a s) → total F P (mret a) Q.
Proof. intros HPQ s HP. by apply HPQ. Qed.

Lemma total_gets {A} (F : fault → Prop) (P : State → Prop) (f : State → A)
    (Q : A → State → Prop) :
  (∀ s, P s → Q (f s) s) → total F P (gets f) Q.
Proof. intros HPQ s HP. by apply HPQ. Qed.

Lemma total_modify (F : fault → Prop) (P : State → Prop) (f : State → State)
    (Q : unit → State → Prop) :
  (∀ s, P s → Q () (f s)) → total F P (modify f) Q.
Proof. intros HPQ s HP. by apply HPQ. Qed.

Lemma total_weaken {A} (F : fault → Prop) (P P' : State → Prop) (m : M A)
    (Q Q' : A → State → Prop) :
  total F P' m Q' → (∀ s, P s → P' s) → (∀ a s, Q' a s → Q a s) → total F P m Q.
Proof.
  intros Hm HP HQ s Hs. specialize (Hm s (HP s Hs)).
  destruct (m s) as [[a s1]|]; [by apply HQ|done].
Qed.

Lemma total_pure {A} (F : fault → Prop) (φ : Prop) (P : State → Prop) (m : M A)
    (Q : A → State → Prop) :
  (φ → total F P m Q) → total F (λ s, P s ∧ φ) m Q.
Proof. intros Hm s [HP Hφ]. by apply Hm. Qed.

Lemma positive_insert (vc : VC) (k : N) (v : Z) :
  positive vc → 1 ≤ v → positive (<[k := v]> vc).
Proof.
  intros Hvc Hv j w. destruct (decide (k = j)) as [->|Hne].
  - rewrite lookup_insert_eq. intros [= <-]. done.
  - rewrite lookup_insert_ne by done. apply Hvc.
Qed.

Lemma positive_singleton (k : N) : positive {[k := 1]}.
Proof. intros j w [-> <-]%lookup_singleton_Some. done. Qed.

Lemma positive_empty : positive ∅.
Proof. intros j w. by rewrite lookup_empty. Qed.

Lemma positive_vc_join (lhs rhs : VC) :
  positive lhs → positive rhs → positive (vc_join lhs rhs).
Proof.
  intros Hl Hr k v. rewrite vc_join_lookup.
  destruct (rhs !! k) as [w|] eqn:Hk.
  - intros [= <-]. specialize (Hr k w Hk). lia.
  - apply Hl.
Qed.

Lemma positive_time (vc : VC) (k : N) :
  positive vc → is_Some (vc !! k) → 1 ≤ time vc k.
Proof. intros Hvc [v Hv]. unfold time. rewrite Hv. simpl. by apply (Hvc k). Qed.

Section Sound.
Context (X L : gset N) (F : fault → Prop).

Lemma Sound_ext (s s' : State) :
  thread_vc s' = thread_vc s → lock_vc s' = lock_vc s →
  read_vc s' = read_vc s → write_vc s' = write_vc s →
  Sound X L s → Sound X L s'.
Proof.
  intros Ht Hl Hr Hw [? ? ? ? ? ? ?]. split; rewrite ?Ht, ?Hl, ?Hr, ?Hw; done.
Qed.

Lemma Sound_set_thread (s : State) (tid : THREADID) (vc : VC) :
  Sound X L s → is_Some (vc !! tid) → positive vc →
  Sound X L (set_thread_vc (<[tid := vc]> (thread_vc s)) s).
Proof.
  intros [Ht ? ? ? ? ? ?] Hown Hvc. split; simpl; try done.
  intros k vc'. destruct (decide (tid = k)) as [->|Hne].
  - rewrite lookup_insert_eq. by intros [= <-].
  - rewrite lookup_insert_ne by done. apply Ht.
Qed.

Lemma dom_insert_present {A} (m : gmap N A) (k : N) (v : A) :
  k ∈ dom m → dom (<[k := v]> m) = dom m.
Proof.
  intros Hk. apply set_eq. intros j. rewrite dom_insert, elem_of_union, elem_of_singleton.
  split; [intros [->|?]; done|by right].
Qed.

Lemma table_insert_positive (m : gmap N VC) (k : N) (vc : VC) :
  positive vc → (∀ j vc', m !! j = Some vc' → positive vc') →
  ∀ j vc', <[k := vc]> m !! j = Some vc' → positive vc'.
Proof.
  intros Hvc Hm j vc'. destruct (decide (k = j)) as [->|Hne].
  - rewrite lookup_insert_eq. by intros [= <-].
  - rewrite lookup_insert_ne by done. apply Hm.
Qed.

Lemma Sound_set_lock (s : State) (m : ADDRINT) (vc : VC) :
  Sound X L s → m ∈ L → positive vc →
  Sound X L (set_lock_vc (<[m := vc]> (lock_vc s)) s).
Proof.
  intros [? Hl ? ? ? ? Hd] Hm Hvc. split; simpl; try done.
  - by apply table_insert_positive.
  - rewrite dom_insert_present; [done|]. by rewrite Hd.
Qed.

Lemma Sound_set_read (s : State) (x : ADDRINT) (vc : VC) :
  Sound X L s → x ∈ X → positive vc →
  Sound X L (set_read_vc (<[x := vc]> (read_vc s)) s).
Proof.
  intros [? ? Hr ? Hd ? ?] Hx Hvc. split; simpl; try done.
  - by apply table_insert_positive.
  - rewrite dom_insert_present; [done|]. by rewrite Hd.
Qed.

Lemma Sound_set_write (s : State) (x : ADDRINT) (vc : VC) :
  Sound X L s → x ∈ X → positive vc →
  Sound X L (set_write_vc (<[x := vc]> (write_vc s)) s).
Proof.
  intros [? ? ? Hw ? Hd ?] Hx Hvc. split; simpl; try done.
  - by apply table_insert_positive.
  - rewrite dom_insert_present; [done|]. by rewrite Hd.
Qed.

Lemma Sound_thread_clock_of (s : State) (tid : THREADID) :
  Sound X L s →
  is_Some (thread_clock_of s tid !! tid) ∧ positive (thread_clock_of s tid).
Proof.
  intros HS. unfold thread_clock_of.
  destruct (thread_vc s !! tid) as [vc|] eqn:Hvc; simpl.
  - by apply (sound_thread _ _ _ HS tid).
  - split; [rewrite lookup_singleton_eq; by eexists|apply positive_singleton].
Qed.

Lemma Sound_own_clock (s : State) (tid : THREADID) :
  Sound X L s → 1 ≤ own_clock s tid.
Proof.
  intros HS. destruct (Sound_thread_clock_of s tid HS) as [Hown Hpos].
  by apply positive_time.
Qed.

Lemma total_thread_vc_sub (tid : THREADID) :
  total F (Sound X L) (thread_vc_sub tid)
    (λ vc s, Sound X L s ∧ is_Some (vc !! tid) ∧ positive vc).
Proof.
  intros s HS. rewrite thread_vc_sub_eq.
  destruct (Sound_thread_clock_of s tid HS) as [Hown Hpos].
  split; [by apply Sound_set_thread|done].
Qed.

Lemma table_sub_present (m : gmap N VC) (k : N) :
  k ∈ dom m → ∃ vc, m !! k = Some vc ∧ table_sub m k = (m, vc).
Proof.
  intros [vc Hvc]%elem_of_dom. exists vc. split; [done|].
  unfold table_sub. by rewrite Hvc.
Qed.

Lemma total_read_vc_sub (x : ADDRINT) :
  x ∈ X →
  total F (Sound X L) (read_vc_sub x) (λ vc s, Sound X L s ∧ positive vc).
Proof.
  intros Hx s HS. unfold read_vc_sub.
  destruct (table_sub_present (read_vc s) x) as (vc & Hvc & ->).
  { by rewrite (sound_read_dom _ _ _ HS). }
  split; [by apply (Sound_ext s)|]. by apply (sound_read _ _ _ HS x).
Qed.

Lemma total_write_vc_sub (x : ADDRINT) :
  x ∈ X →
  total F (Sound X L) (write_vc_sub x) (λ vc s, Sound X L s ∧ positive vc).
Proof.
  intros Hx s HS. unfold write_vc_sub.
  destruct (table_sub_present (write_vc s) x) as (vc & Hvc & ->).
  { by rewrite (sound_write_dom _ _ _ HS). }
  split; [by apply (Sound_ext s)|]. by apply (sound_write _ _ _ HS x).
Qed.

Lemma total_lock_vc_sub (m : ADDRINT) :
  m ∈ L →
  total F (Sound X L) (lock_vc_sub m) (λ vc s, Sound X L s ∧ positive vc).
Proof.
  intros Hm s HS. unfold lock_vc_sub.
  destruct (table_sub_present (lock_vc s) m) as (vc & Hvc & ->).
  { by rewrite (sound_lock_dom _ _ _ HS). }
  split; [by apply (Sound_ext s)|]. by apply (sound_lock _ _ _ HS m).
Qed.

Lemma total_put_thread_vc (tid : THREADID) (vc : VC) :
  is_Some (vc !! tid) → positive vc →
  total F (Sound X L) (put_thread_vc tid vc) (λ _ s, Sound X L s).
Proof. intros Hown Hvc. apply total_modify. intros s HS. by apply Sound_set_thread. Qed.

Lemma total_put_read_vc (x : ADDRINT) (vc : VC) :
  x ∈ X → positive vc →
  total F (Sound X L) (put_read_vc x vc) (λ _ s, Sound X L s).
Proof. intros Hx Hvc. apply total_modify. intros s HS. by apply Sound_set_read. Qed.

Lemma total_put_write_vc (x : ADDRINT) (vc : VC) :
  x ∈ X → positive vc →
  total F (Sound X L) (put_write_vc x vc) (λ _ s, Sound X L s).
Proof. intros Hx Hvc. apply total_modify. intros s HS. by apply Sound_set_write. Qed.

Lemma total_put_lock_vc (m : ADDRINT) (vc : VC) :
  m ∈ L → positive vc →
  total F (Sound X L) (put_lock_vc m vc) (λ _ s, Sound X L s).
Proof. intros Hm Hvc. apply total_modify. intros s HS. by apply Sound_set_lock. Qed.

Lemma total_print (msg : Message) :
  total F (Sound X L) (print msg) (λ _ s, Sound X L s).
Proof. apply total_modify. intros s HS. by apply (Sound_ext s). Qed.

Lemma total_cout (tr : Trace) :
  total F (Sound X L) (modify (λ s, set_cout (cout s ++ [tr]) s))
    (λ _ s, Sound X L s).
Proof. apply total_modify. intros s HS. by apply (Sound_ext s). Qed.

Lemma total_thread_clock (tid : THREADID) :
  total F (Sound X L) (thread_clock tid) (λ c s, Sound X L s ∧ 1 ≤ c).
Proof.
  intros s HS. rewrite thread_clock_eq.
  destruct (Sound_thread_clock_of s tid HS) as [Hown Hpos].
  pose proof (Sound_own_clock s tid HS) as Hc.
  split; [|done]. apply Sound_set_thread; [done| |by apply positive_insert].
  rewrite lookup_insert_eq. by eexists.
Qed.

Lemma total_incr_thread_clock (tid : THREADID) :
  F SignedOverflow →
  total F (Sound X L) (incr_thread_clock tid) (λ _ s, Sound X L s).
Proof.
  intros HF s HS. rewrite incr_thread_clock_eq. case_decide; [|done].
  destruct (Sound_thread_clock_of s tid HS) as [Hown Hpos].
  pose proof (Sound_own_clock s tid HS) as Hc.
  apply Sound_set_thread; [done| |apply positive_insert; [done|lia]].
  rewrite lookup_insert_eq. by eexists.
Qed.

Lemma total_join_thread_vc (lhs rhs : THREADID) :
  total F (Sound X L) (join_thread_vc lhs rhs) (λ _ s, Sound X L s).
Proof.
  intros s HS. rewrite join_thread_vc_eq.
  destruct (Sound_thread_clock_of s lhs HS) as [[cl Hl] Hposl].
  destruct (Sound_thread_clock_of s rhs HS) as [Hr Hposr].
  apply (Sound_set_thread (set_thread_vc _ s)).
  - by apply Sound_set_thread.
  - rewrite vc_join_lookup. destruct (thread_clock_of s rhs !! lhs); by eexists.
  - by apply positive_vc_join.
Qed.

Lemma total_Read (tid : THREADID) (x : ADDRINT) :
  x ∈ X → total F (Sound X L) (Read tid x) (λ _ s, Sound X L s).
Proof.
  intros Hx. unfold Read.
  eapply total_bind; [apply total_thread_clock|intros c].
  apply total_pure. intros Hc.
  eapply total_bind; [by apply total_read_vc_sub|intros rx].
  apply total_pure. intros Hrx.
  apply total_put_read_vc; [done|]. by apply positive_insert.
Qed.

Lemma total_Write (tid : THREADID) (x : ADDRINT) :
  x ∈ X → total F (Sound X L) (Write tid x) (λ _ s, Sound X L s).
Proof.
  intros Hx. unfold Write.
  eapply total_bind; [apply total_thread_clock|intros c].
  apply total_pure. intros Hc.
  eapply total_bind; [by apply total_write_vc_sub|intros wx].
  apply total_pure. intros Hwx.
  apply total_put_write_vc; [done|]. by apply positive_insert.
Qed.

Lemma total_Aquire (tid : THREADID) (m : ADDRINT) :
  m ∈ L → total F (Sound X L) (Aquire tid m) (λ _ s, Sound X L s).
Proof.
  intros Hm. unfold Aquire.
  eapply total_bind; [by apply total_lock_vc_sub|intros lm].
  apply total_pure. intros Hlm.
  eapply total_bind; [apply total_thread_vc_sub|intros ct].
  apply total_pure. intros [[c Hown] Hct].
  apply total_put_thread_vc; [|by apply positive_vc_join].
  rewrite vc_join_lookup. destruct (lm !! tid); by eexists.
Qed.

Lemma total_Release (tid : THREADID) (m : ADDRINT) :
  F SignedOverflow → m ∈ L →
  total F (Sound X L) (Release tid m) (λ _ s, Sound X L s).
Proof.
  intros HF Hm. unfold Release.
  eapply total_bind; [apply total_thread_vc_sub|intros ct].
  apply total_pure. intros [Hown Hct].
  eapply total_bind with (Q := λ _ s, Sound X L s).
  { eapply total_weaken; [by apply total_lock_vc_sub|done|]. by intros ?? [? _]. }
  intros ?.
  eapply total_bind; [by apply total_put_lock_vc|intros ?].
  by apply total_incr_thread_clock.
Qed.

Lemma total_vc_le (lhs rhs : VC) :
  positive lhs →
  total F (Sound X L) (lift (vc_le lhs rhs)) (λ _ s, Sound X L s).
Proof.
  intros Hl s HS. unfold lift. destruct (vc_le_defined lhs rhs) as [r ->]; [|done].
  intros k v Hv. specialize (Hl k v Hv). lia.
Qed.

Lemma total_NoRaceForWrite (tid : THREADID) (x : ADDRINT) :
  x ∈ X → total F (Sound X L) (NoRaceForWrite tid x) (λ _ s, Sound X L s).
Proof.
  intros Hx. unfold NoRaceForWrite.
  eapply total_bind; [by apply total_read_vc_sub|intros rx].
  apply total_pure. intros Hrx.
  eapply total_bind with (Q := λ _ s, Sound X L s).
  { eapply total_weaken; [apply total_thread_vc_sub|done|]. by intros ?? [? _]. }
  intros ct.
  eapply total_bind; [by apply total_vc_le|intros [|]].
  - eapply total_bind; [by apply total_write_vc_sub|intros wx].
    apply total_pure. intros Hwx.
    eapply total_bind with (Q := λ _ s, Sound X L s).
    { eapply total_weaken; [apply total_thread_vc_sub|done|]. by intros ?? [? _]. }
    intros ct'. by apply total_vc_le.
  - by apply total_ret.
Qed.

Lemma total_NoRaceForRead (tid : THREADID) (x : ADDRINT) :
  x ∈ X → total F (Sound X L) (NoRaceForRead tid x) (λ _ s, Sound X L s).
Proof.
  intros Hx. unfold NoRaceForRead.
  eapply total_bind; [by apply total_write_vc_sub|intros wx].
  apply total_pure. intros Hwx.
  eapply total_bind with (Q := λ _ s, Sound X L s).
  { eapply total_weaken; [apply total_thread_vc_sub|done|]. by intros ?? [? _]. }
  intros ct. by apply total_vc_le.
Qed.

Lemma total_drop {A} (m : M A) (φ : A → Prop) :
  total F (Sound X L) m (λ a s, Sound X L s ∧ φ a) →
  total F (Sound X L) m (λ _ s, Sound X L s).
Proof. intros Hm. eapply total_weaken; [exact Hm|done|]. by intros ?? [? _]. Qed.

Lemma total_CheckOverflow (tid : THREADID) (ins_addr mem_addr : ADDRINT)
    (is_write : bool) :
  total F (Sound X L) (CheckOverflow tid ins_addr mem_addr is_write)
    (λ _ s, Sound X L s).
Proof.
  unfold CheckOverflow.
  eapply total_bind with (Q := λ r s, Sound X L s ∧ (r = true → mem_addr ∈ X)).
  { apply total_gets. intros s HS. split; [done|].
    intros Hr%bool_decide_eq_true. rewrite <-(sound_read_dom _ _ _ HS).
    by apply elem_of_dom. }
  intros [|]; apply total_pure; intros Hx; [|by apply total_ret].
  specialize (Hx eq_refl).
  eapply total_bind; [|intros ?; apply total_print].
  destruct is_write.
  - eapply total_bind; [by apply total_Write|intros ?].
    eapply total_bind; [by apply total_NoRaceForWrite|intros [|]];
      [by apply total_ret|].
    eapply total_bind; [eapply total_drop, total_thread_vc_sub|intros C].
    eapply total_bind; [by eapply total_drop, total_read_vc_sub|intros R].
    eapply total_bind; [by eapply total_drop, total_write_vc_sub|intros W].
    apply total_print.
  - eapply total_bind; [by apply total_Read|intros ?].
    eapply total_bind; [by apply total_NoRaceForRead|intros [|]];
      [by apply total_ret|].
    eapply total_bind; [eapply total_drop, total_thread_vc_sub|intros C].
    eapply total_bind; [by eapply total_drop, total_write_vc_sub|intros W].
    apply total_print.
Qed.

Lemma total_Fork (tid : THREADID) (thread_obj : N) :
  F SignedOverflow →
  total F (Sound X L) (Fork tid thread_obj) (λ _ s, Sound X L s).
Proof.
  intros HF. unfold Fork.
  eapply total_bind with (Q := λ _ s, Sound X L s).
  { apply total_modify. intros s HS. by apply (Sound_ext s). }
  intros ?.
  eapply total_bind with (Q := λ _ s, Sound X L s); [by apply total_gets|intros u].
  eapply total_bind with (Q := λ _ s, Sound X L s).
  { apply total_modify. intros s HS. by apply (Sound_ext s). }
  intros ?.
  eapply total_bind; [apply total_join_thread_vc|intros ?].
  by apply total_incr_thread_clock.
Qed.

Lemma total_Join (tid : THREADID) (thread_obj : N) :
  F SignedOverflow →
  total F (Sound X L) (Join tid thread_obj) (λ _ s, Sound X L s).
Proof.
  intros HF. unfold Join.
  eapply total_bind with (Q := λ _ s, Sound X L s); [by apply total_gets|intros u].
  eapply total_bind with (Q := λ _ s, Sound X L s).
  { apply total_modify. intros s HS. by apply (Sound_ext s). }
  intros ?.
  eapply total_bind; [apply total_join_thread_vc|intros ?].
  by apply total_incr_thread_clock.
Qed.

Lemma total_MutexLockWrapper (tid : THREADID) (m : ADDRINT) :
  total F (Sound X L) (MutexLockWrapper tid m) (λ _ s, Sound X L s).
Proof.
  unfold MutexLockWrapper.
  eapply total_bind with (Q := λ r s, Sound X L s ∧ (r = true → m ∈ L)).
  { apply total_gets. intros s HS. split; [done|].
    intros Hr%bool_decide_eq_true. rewrite <-(sound_lock_dom _ _ _ HS).
    by apply elem_of_dom. }
  intros [|]; apply total_pure; intros Hm; [|by apply total_ret].
  by apply total_Aquire, Hm.
Qed.

Lemma total_MutexUnlockWrapper (tid : THREADID) (m : ADDRINT) :
  F SignedOverflow →
  total F (Sound X L) (MutexUnlockWrapper tid m) (λ _ s, Sound X L s).
Proof.
  intros HF. unfold MutexUnlockWrapper.
  eapply total_bind with (Q := λ r s, Sound X L s ∧ (r = true → m ∈ L)).
  { apply total_gets. intros s HS. split; [done|].
    intros Hr%bool_decide_eq_true. rewrite <-(sound_lock_dom _ _ _ HS).
    by apply elem_of_dom. }
  intros [|]; apply total_pure; intros Hm; [|by apply total_ret].
  by apply total_Release, Hm.
Qed.

Lemma total_step (e : Event) :
  F SignedOverflow → total F (Sound X L) (step e) (λ _ s, Sound X L s).
Proof.
  intros HF. destruct e as [tid ins x w|tid m|tid m|tid t|tid t]; simpl.
  - apply total_CheckOverflow.
  - apply total_MutexLockWrapper.
  - by apply total_MutexUnlockWrapper.
  - unfold ThreadCtorWrapper.
    eapply total_bind; [apply total_cout|intros ?]. by apply total_Fork.
  - unfold ThreadJoinWrapper.
    eapply total_bind; [apply total_cout|intros ?]. by apply total_Join.
Qed.

End Sound.

Lemma load_symbols_Sound (syms : list (string * Elf64_Sym)) (s : State) :
  Sound (dom (read_vc s)) (dom (lock_vc s)) s →
  let s' := load_symbols {["x"]} {["m"]} syms s in
  Sound (dom (read_vc s')) (dom (lock_vc s')) s'.
Proof.
  revert s. induction syms as [|sym syms IH]; intros s HS; [done|].
  simpl. apply IH. unfold load_symbol.
  destruct HS as [Ht Hl Hr Hw _ Hd _].
  repeat case_decide; split; simpl; try done.
  - apply table_insert_positive; [apply positive_empty|done].
  - apply table_insert_positive; [apply positive_empty|done].
  - by rewrite !dom_insert_L, Hd.
  - apply table_insert_positive; [apply positive_empty|done].
Qed.

Lemma reachable_Sound (s : State) :
  reachable s → Sound (dom (read_vc s)) (dom (lock_vc s)) s.
Proof.
  induction 1 as [syms|e s s' Hs IH Hstep].
  - apply (load_symbols_Sound syms initial). by split.
  - pose proof (total_step _ _ (λ _, True) e I s IH) as Ht.
    rewrite Hstep in Ht.
    by rewrite (sound_read_dom _ _ _ Ht), (sound_lock_dom _ _ _ Ht).
Qed.

(** X17. Once the symbols are loaded the watch sets are fixed: no event adds or
    removes a key of the read, write or lock table, and the read and write
    tables have the same keys. *)
Theorem watch_sets_fixed (e : Event) (s s' : State) :
  reachable s → step e s = Ok ((), s') →
  dom (write_vc s) = dom (read_vc s) ∧
  dom (read_vc s') = dom (read_vc s) ∧
  dom (write_vc s') = dom (write_vc s) ∧
  dom (lock_vc s') = dom (lock_vc s).
Proof.
  intros HS%reachable_Sound Hstep.
  pose proof (total_step _ _ (λ _, True) e I s HS) as Ht.
  rewrite Hstep in Ht.
  rewrite (sound_read_dom _ _ _ Ht), (sound_write_dom _ _ _ Ht),
    (sound_lock_dom _ _ _ Ht), (sound_write_dom _ _ _ HS). done.
Qed.

(** X18. In every state a run can reach, every entry of every stored clock is
    at least 1, and a thread's clock has the thread's own entry. *)
Theorem clock_entries_positive (s : State) :
  reachable s →
  (∀ vc,
     (∃ t, thread_vc s !! t = Some vc) ∨ (∃ m, lock_vc s !! m = Some vc) ∨
     (∃ x, read_vc s !! x = Some vc) ∨ (∃ x, write_vc s !! x = Some vc) →
     ∀ k v, vc !! k = Some v → 1 ≤ v) ∧
  (∀ t vc, thread_vc s !! t = Some vc → is_Some (vc !! t)).
Proof.
  intros HS%reachable_Sound. split.
  - intros vc [[t Ht]|[[m Hm]|[[x Hx]|[x Hx]]]] k v Hk.
    + destruct (sound_thread _ _ _ HS t vc Ht) as [_ Hpos]. by apply (Hpos k).
    + by apply (sound_lock _ _ _ HS m vc Hm k).
    + by apply (sound_read _ _ _ HS x vc Hx k).
    + by apply (sound_write _ _ _ HS x vc Hx k).
  - intros t vc Ht. by destruct (sound_thread _ _ _ HS t vc Ht).
Qed.

(** X19. A routine call that no other call overlaps does not read past the
    end of a clock.  Started in a state that routine calls made one after
    another have left, [CheckOverflow] and [MutexLockWrapper] return, and
    every other routine returns or stops at the overflow of an [int] clock,
    at nothing else. *)
Theorem events_stop_only_on_overflow (s : State) :
  reachable s →
  (∀ tid ins_addr mem_addr is_write,
     ∃ s', step (mem_access tid ins_addr mem_addr is_write) s = Ok ((), s')) ∧
  (∀ tid m, ∃ s', step (mutex_lock tid m) s = Ok ((), s')) ∧
  (∀ e f, step e s = Err f → f = SignedOverflow).
Proof.
  intros HS%reachable_Sound. split_and!.
  - intros tid ins x w.
    pose proof (total_CheckOverflow _ _ (λ _, False) tid ins x w s HS) as Ht.
    simpl. destruct (CheckOverflow tid ins x w s) as [[[] s']|]; [|done].
    by exists s'.
  - intros tid m.
    pose proof (total_MutexLockWrapper _ _ (λ _, False) tid m s HS) as Ht.
    simpl. destruct (MutexLockWrapper tid m s) as [[[] s']|]; [|done].
    by exists s'.
  - intros e f Hstep.
    pose proof (total_step _ _ (λ f, f = SignedOverflow) e eq_refl s HS) as Ht.
    by rewrite Hstep in Ht.
Qed.

(** ** What an access reports *)

Lemma bind_at {A B} (m : M A) (f : A → M B) (s s1 : State) (a : A) :
  m s = Ok (a, s1) → (m ≫= f) s = f a s1.
Proof. intros Hm. unfold mbind, M_bind. by rewrite Hm. Qed.

Lemma thread_vc_sub_present (tid : THREADID) (s : State) (ct : VC) :
  thread_vc s !! tid = Some ct → thread_vc_sub tid s = Ok (ct, s).
Proof. intros Hct. unfold thread_vc_sub. by rewrite Hct. Qed.

Lemma read_vc_sub_present (x : ADDRINT) (s : State) (vc : VC) :
  read_vc s !! x = Some vc → read_vc_sub x s = Ok (vc, s).
Proof.
  intros Hvc. unfold read_vc_sub, table_sub. rewrite Hvc. by destruct s.
Qed.

Lemma write_vc_sub_present (x : ADDRINT) (s : State) (vc : VC) :
  write_vc s !! x = Some vc → write_vc_sub x s = Ok (vc, s).
Proof.
  intros Hvc. unfold write_vc_sub, table_sub. rewrite Hvc. by destruct s.
Qed.

Lemma NoRaceForWrite_closed (tid : THREADID) (x : ADDRINT) (s : State)
    (R W Ct : VC) (b1 b2 : bool) :
  read_vc s !! x = Some R → write_vc s !! x = Some W →
  thread_vc s !! tid = Some Ct →
  vc_le R Ct = Ok b1 → vc_le W Ct = Ok b2 →
  NoRaceForWrite tid x s = Ok (b1 && b2, s).
Proof.
  intros HR HW HC H1 H2. unfold NoRaceForWrite.
  rewrite (bind_at _ _ s s R (read_vc_sub_present x s R HR)).
  rewrite (bind_at _ _ s s Ct (thread_vc_sub_present tid s Ct HC)).
  rewrite (bind_at _ _ s s b1) by (unfold lift; by rewrite H1).
  destruct b1; [|done].
  rewrite (bind_at _ _ s s W (write_vc_sub_present x s W HW)).
  rewrite (bind_at _ _ s s Ct (thread_vc_sub_present tid s Ct HC)).
  unfold lift. by rewrite H2.
Qed.

Lemma NoRaceForRead_closed (tid : THREADID) (x : ADDRINT) (s : State)
    (W Ct : VC) (b : bool) :
  write_vc s !! x = Some W → thread_vc s !! tid = Some Ct →
  vc_le W Ct = Ok b →
  NoRaceForRead tid x s = Ok (b, s).
Proof.
  intros HW HC Hb. unfold NoRaceForRead.
  rewrite (bind_at _ _ s s W (write_vc_sub_present x s W HW)).
  rewrite (bind_at _ _ s s Ct (thread_vc_sub_present tid s Ct HC)).
  unfold lift. by rewrite Hb.
Qed.

Lemma positive_nonneg (vc : VC) : positive vc → ∀ k w, vc !! k = Some w → 0 ≤ w.
Proof. intros Hvc k w Hw. specialize (Hvc k w Hw). lia. Qed.

Lemma own_entry_id (s : State) (tid : THREADID) :
  is_Some (thread_clock_of s tid !! tid) →
  <[tid := own_clock s tid]> (thread_clock_of s tid) = thread_clock_of s tid.
Proof.
  intros [c Hc]. apply insert_id. unfold own_clock, time. by rewrite Hc.
Qed.

Lemma CheckOverflow_write_closed (X L : gset N) (s : State) (tid : THREADID)
    (ins_addr x : ADDRINT) (R W : VC) :
  Sound X L s → read_vc s !! x = Some R → write_vc s !! x = Some W →
  let Ct := thread_clock_of s tid in
  let W' := <[tid := own_clock s tid]> W in
  ∃ msgs,
    CheckOverflow tid ins_addr x true s =
      Ok ((), mkState (<[tid := Ct]> (thread_vc s)) (read_vc s)
                (<[x := W']> (write_vc s)) (lock_vc s) (thread_to_id s)
                (last_id s) (out s ++ msgs ++ [Found true tid x ins_addr])
                (cout s)) ∧
    (((∀ t, time R t ≤ time Ct t) ∧ (∀ t, time W' t ≤ time Ct t)) ∧ msgs = [] ∨
     ¬ ((∀ t, time R t ≤ time Ct t) ∧ (∀ t, time W' t ≤ time Ct t)) ∧
       msgs = [WriteRace tid Ct x R W']).
Proof.
  intros HS HR HW Ct W'.
  destruct (Sound_thread_clock_of X L s tid HS) as [Hown HposC].
  pose proof (Sound_own_clock X L s tid HS) as Hc.
  assert (positive W') as HposW'.
  { apply positive_insert; [|done]. by apply (sound_write _ _ _ HS x). }
  destruct (vc_le_positive R Ct) as (b1 & Hb1 & Hb1');
    [by apply (sound_read _ _ _ HS x)|by apply positive_nonneg|].
  destruct (vc_le_positive W' Ct) as (b2 & Hb2 & Hb2');
    [done|by apply positive_nonneg|].
  exists (if b1 && b2 then [] else [WriteRace tid Ct x R W']). split.
  - unfold CheckOverflow.
    rewrite (bind_at _ _ s s true).
    2:{ unfold gets. rewrite bool_decide_eq_true_2; [done|by eexists]. }
    set (s1 := set_write_vc (<[x := W']> (write_vc s))
                 (set_thread_vc (<[tid := Ct]> (thread_vc s)) s)).
    assert (Write tid x s = Ok ((), s1)) as HWr.
    { rewrite Write_closed. unfold s1, W', Ct. rewrite HW. simpl.
      by rewrite own_entry_id. }
    assert (NoRaceForWrite tid x s1 = Ok (b1 && b2, s1)) as HNo.
    { apply (NoRaceForWrite_closed tid x s1 R W' Ct); try done.
      - unfold s1. simpl. by rewrite lookup_insert_eq.
      - unfold s1. simpl. by rewrite lookup_insert_eq. }
    set (b := b1 && b2) in *. destruct b.
    + erewrite bind_at.
      2:{ erewrite bind_at; [|exact HWr]. erewrite bind_at; [|exact HNo].
          reflexivity. }
      unfold print, modify, s1. simpl. done.
    + erewrite bind_at.
      2:{ erewrite bind_at; [|exact HWr]. erewrite bind_at; [|exact HNo].
          cbv beta iota. erewrite bind_at.
          2:{ apply thread_vc_sub_present. unfold s1. simpl.
              by rewrite lookup_insert_eq. }
          erewrite bind_at; [|by apply read_vc_sub_present].
          erewrite bind_at.
          2:{ apply write_vc_sub_present. unfold s1. simpl.
              by rewrite lookup_insert_eq. }
          unfold print, modify. reflexivity. }
      unfold print, modify, s1. simpl. by rewrite <-app_assoc.
  - destruct b1, b2; simpl.
    + left. split; [|done]. split; [by apply Hb1'|by apply Hb2'].
    + right. split; [|done]. intros [_ H2]. apply Hb2' in H2. done.
    + right. split; [|done]. intros [H1 _]. apply Hb1' in H1. done.
    + right. split; [|done]. intros [H1 _]. apply Hb1' in H1. done.
Qed.

Lemma CheckOverflow_read_closed (X L : gset N) (s : State) (tid : THREADID)
    (ins_addr x : ADDRINT) (R W : VC) :
  Sound X L s → read_vc s !! x = Some R → write_vc s !! x = Some W →
  let Ct := thread_clock_of s tid in
  let R' := <[tid := own_clock s tid]> R in
  ∃ msgs,
    CheckOverflow tid ins_addr x false s =
      Ok ((), mkState (<[tid := Ct]> (thread_vc s)) (<[x := R']> (read_vc s))
                (write_vc s) (lock_vc s) (thread_to_id s)
                (last_id s) (out s ++ msgs ++ [Found false tid x ins_addr])
                (cout s)) ∧
    ((∀ t, time W t ≤ time Ct t) ∧ msgs = [] ∨
     ¬ (∀ t, time W t ≤ time Ct t) ∧ msgs = [ReadRace tid Ct x W]).
Proof.
  intros HS HR HW Ct R'.
  destruct (Sound_thread_clock_of X L s tid HS) as [Hown HposC].
  pose proof (Sound_own_clock X L s tid HS) as Hc.
  destruct (vc_le_positive W Ct) as (b & Hb & Hb');
    [by apply (sound_write _ _ _ HS x)|by apply positive_nonneg|].
  exists (if b then [] else [ReadRace tid Ct x W]). split.
  - unfold CheckOverflow.
    rewrite (bind_at _ _ s s true).
    2:{ unfold gets. rewrite bool_decide_eq_true_2; [done|by eexists]. }
    set (s1 := set_read_vc (<[x := R']> (read_vc s))
                 (set_thread_vc (<[tid := Ct]> (thread_vc s)) s)).
    assert (Read tid x s = Ok ((), s1)) as HRd.
    { rewrite Read_closed. unfold s1, R', Ct. rewrite HR. simpl.
      by rewrite own_entry_id. }
    assert (NoRaceForRead tid x s1 = Ok (b, s1)) as HNo.
    { apply (NoRaceForRead_closed tid x s1 W Ct); try done.
      unfold s1. simpl. by rewrite lookup_insert_eq. }
    destruct b.
    + erewrite bind_at.
      2:{ erewrite bind_at; [|exact HRd]. erewrite bind_at; [|exact HNo].
          reflexivity. }
      unfold print, modify, s1. simpl. done.
    + erewrite bind_at.
      2:{ erewrite bind_at; [|exact HRd]. erewrite bind_at; [|exact HNo].
          cbv beta iota. erewrite bind_at.
          2:{ apply thread_vc_sub_present. unfold s1. simpl.
              by rewrite lookup_insert_eq. }
          erewrite bind_at; [|by apply write_vc_sub_present].
          unfold print, modify. reflexivity. }
      unfold print, modify, s1. simpl. by rewrite <-app_assoc.
  - destruct b; simpl.
    + left. split; [by apply Hb'|done].
    + right. split; [|done]. intros H1. apply Hb' in H1. done.
Qed.

(** X20. What [CheckOverflow] does at a watched address in a reachable state.
    It returns; it stamps the thread's own time into the write clock (for a
    write) or the read clock (for a read) of the address and leaves the
    lock clocks and the other threads' clocks alone; and it prints a race
    exactly when a clock it compares is not at most the thread's clock: the
    read or the stamped write clock for a write, the write clock for a
    read.  The [Found] line follows in either case. *)
Theorem CheckOverflow_reports (s : State) (tid : THREADID) (ins_addr x : ADDRINT)
    (is_write : bool) (R W : VC) :
  reachable s → read_vc s !! x = Some R → write_vc s !! x = Some W →
  let Ct := thread_clock_of s tid in
  let R' := if is_write then R else <[tid := own_clock s tid]> R in
  let W' := if is_write then <[tid := own_clock s tid]> W else W in
  let ordered := if is_write
                 then (∀ t, time R' t ≤ time Ct t) ∧ (∀ t, time W' t ≤ time Ct t)
                 else ∀ t, time W' t ≤ time Ct t in
  let race := if is_write then WriteRace tid Ct x R' W' else ReadRace tid Ct x W' in
  ∃ s' msgs,
    CheckOverflow tid ins_addr x is_write s = Ok ((), s') ∧
    thread_clock_of s' tid = Ct ∧
    (∀ u, u ≠ tid → thread_vc s' !! u = thread_vc s !! u) ∧
    lock_vc s' = lock_vc s ∧
    read_vc s' = <[x := R']> (read_vc s) ∧
    write_vc s' = <[x := W']> (write_vc s) ∧
    out s' = out s ++ msgs ++ [Found is_write tid x ins_addr] ∧
    (ordered ∧ msgs = [] ∨ ¬ ordered ∧ msgs = [race]).
Proof.
  intros HS%reachable_Sound HR HW. destruct is_write; simpl.
  - destruct (CheckOverflow_write_closed _ _ s tid ins_addr x R W HS HR HW)
      as (msgs & Hrun & Hmsgs).
    eexists _, msgs. split; [exact Hrun|]. simpl. split_and!; try done.
    + unfold thread_clock_of at 1. simpl. by rewrite lookup_insert_eq.
    + intros u Hu. by rewrite lookup_insert_ne.
    + by rewrite insert_id.
  - destruct (CheckOverflow_read_closed _ _ s tid ins_addr x R W HS HR HW)
      as (msgs & Hrun & Hmsgs).
    eexists _, msgs. split; [exact Hrun|]. simpl. split_and!; try done.
    + unfold thread_clock_of at 1. simpl. by rewrite lookup_insert_eq.
    + intros u Hu. by rewrite lookup_insert_ne.
    + by rewrite insert_id.
Qed.

(** ** Synchronisation edges *)

Lemma MutexUnlockWrapper_watched (tid : THREADID) (m : ADDRINT) (s : State) :
  is_Some (lock_vc s !! m) → MutexUnlockWrapper tid m s = Release tid m s.
Proof.
  intros Hm. unfold MutexUnlockWrapper.
  rewrite (bind_at _ _ s s true); [done|].
  unfold gets. by rewrite bool_decide_eq_true_2.
Qed.

Lemma MutexLockWrapper_watched (tid : THREADID) (m : ADDRINT) (s : State) :
  is_Some (lock_vc s !! m) → MutexLockWrapper tid m s = Aquire tid m s.
Proof.
  intros Hm. unfold MutexLockWrapper.
  rewrite (bind_at _ _ s s true); [done|].
  unfold gets. by rewrite bool_decide_eq_true_2.
Qed.

Lemma thread_clock_of_set (s : State) (t k : THREADID) (vc : VC)
    (tv : gmap N VC) :
  tv = <[t := vc]> (thread_vc s) →
  thread_clock_of (set_thread_vc tv s) k =
    if decide (k = t) then vc else thread_clock_of s k.
Proof.
  intros ->. unfold thread_clock_of. simpl. case_decide as Hk.
  - subst. by rewrite lookup_insert_eq.
  - by rewrite lookup_insert_ne.
Qed.

(** What an unlock followed by a lock of the same watched mutex leaves. *)
Lemma unlock_lock_closed (s s1 s2 : State) (t u : THREADID) (m : ADDRINT) :
  is_Some (lock_vc s !! m) →
  step (mutex_unlock t m) s = Ok ((), s1) →
  step (mutex_lock u m) s1 = Ok ((), s2) →
  let Ct := thread_clock_of s t in
  let Ct1 := <[t := own_clock s t + 1]> Ct in
  own_clock s t < INT_MAX ∧
  read_vc s2 = read_vc s ∧ write_vc s2 = write_vc s ∧ out s2 = out s ∧
  thread_clock_of s1 t = Ct1 ∧
  (∀ k, k ≠ t → thread_clock_of s1 k = thread_clock_of s k) ∧
  thread_clock_of s2 u = vc_join (thread_clock_of s1 u) Ct ∧
  (∀ k, k ≠ u → thread_clock_of s2 k = thread_clock_of s1 k).
Proof.
  intros Hm Hrel Hacq Ct Ct1. simpl in Hrel, Hacq.
  rewrite MutexUnlockWrapper_watched, Release_closed in Hrel by done.
  case_decide as Hmax; [|done]. injection Hrel as <-.
  fold Ct Ct1 in Hacq |- *.
  set (s1 := set_thread_vc _ _) in *.
  assert (lock_clock_of s1 m = Ct) as HL.
  { unfold lock_clock_of, s1. simpl. by rewrite lookup_insert_eq. }
  rewrite MutexLockWrapper_watched, Aquire_closed, HL in Hacq.
  2:{ unfold s1. simpl. rewrite lookup_insert_eq. by eexists. }
  injection Hacq as <-. unfold s1.
  split_and!; try done.
  - unfold thread_clock_of. simpl. by rewrite lookup_insert_eq.
  - intros k Hk. unfold thread_clock_of. simpl. by rewrite lookup_insert_ne.
  - unfold thread_clock_of at 1. simpl. by rewrite lookup_insert_eq.
  - intros k Hk. unfold thread_clock_of at 1. simpl.
    by rewrite lookup_insert_ne.
Qed.

Lemma time_stamp (vc : VC) (k t : THREADID) (c : Z) :
  time (<[k := c]> vc) t = if decide (t = k) then c else time vc t.
Proof.
  unfold time. case_decide as Ht.
  - subst. by rewrite lookup_insert_eq.
  - by rewrite lookup_insert_ne.
Qed.

(** X21. The release-acquire edge of the Pin tool.  When thread [t] has seen
    every access to a watched address [x] and unlocks a watched mutex [m],
    and thread [u] locks [m] next, an access of [u] to [x] prints no race,
    only its [Found] line. *)
Theorem pintool_lock_hand_over (s s1 s2 : State) (t u : THREADID)
    (m ins_addr x : ADDRINT) (is_write : bool) (R W : VC) :
  reachable s → is_Some (lock_vc s !! m) →
  read_vc s !! x = Some R → write_vc s !! x = Some W →
  (∀ k, time R k ≤ time (thread_clock_of s t) k) →
  (∀ k, time W k ≤ time (thread_clock_of s t) k) →
  step (mutex_unlock t m) s = Ok ((), s1) →
  step (mutex_lock u m) s1 = Ok ((), s2) →
  ∃ s3, step (mem_access u ins_addr x is_write) s2 = Ok ((), s3) ∧
        out s3 = out s ++ [Found is_write u x ins_addr].
Proof.
  intros Hs Hm HR HW HRle HWle Hrel Hacq.
  assert (reachable s1) as Hs1 by (by eapply reachable_step).
  assert (reachable s2) as Hs2 by (by eapply reachable_step).
  pose proof (reachable_Sound s Hs) as HS.
  pose proof (reachable_Sound s1 Hs1) as HS1.
  pose proof (reachable_Sound s2 Hs2) as HS2.
  destruct (unlock_lock_closed s s1 s2 t u m Hm Hrel Hacq)
    as (Hmax & HR2 & HW2 & Hout & _ & _ & HCu & _).
  destruct (Sound_thread_clock_of _ _ s1 u HS1) as [_ Hpos1].
  assert (∀ k, time (thread_clock_of s t) k ≤ time (thread_clock_of s2 u) k) as Hle.
  { intros k. rewrite HCu, time_vc_join_max by (by apply positive_nonneg). lia. }
  rewrite <-HR2 in HR. rewrite <-HW2 in HW. simpl.
  assert (∀ k, time (<[u := own_clock s2 u]> W) k ≤ time (thread_clock_of s2 u) k)
    as HWle'.
  { intros k. rewrite time_stamp. case_decide as Hk; [by subst|].
    etrans; [apply HWle|apply Hle]. }
  destruct is_write.
  - destruct (CheckOverflow_write_closed _ _ s2 u ins_addr x R W HS2 HR HW)
      as (msgs & -> & [[_ ->]|[Hno _]]).
    + eexists. split; [done|]. simpl. by rewrite Hout.
    + destruct Hno. split; [|done]. intros k. etrans; [apply HRle|apply Hle].
  - destruct (CheckOverflow_read_closed _ _ s2 u ins_addr x R W HS2 HR HW)
      as (msgs & -> & [[_ ->]|[Hno _]]).
    + eexists. split; [done|]. simpl. by rewrite Hout.
    + destruct Hno. intros k. etrans; [apply HWle|apply Hle].
Qed.

(** X22. [Release] copies the thread's clock into the lock before it increments
    the thread's own time, so the lock carries the time of the section that
    ends at the release.  When thread [t] unlocks a watched mutex, another
    thread [u] locks it, and [t] then writes a watched address, the write
    of [u] to that address that follows is printed as a write race. *)
Theorem write_after_unlock_reported (s s1 s2 s3 : State) (t u : THREADID)
    (m ins_addr ins_addr' x : ADDRINT) :
  reachable s → is_Some (lock_vc s !! m) → is_Some (read_vc s !! x) →
  t ≠ u →
  step (mutex_unlock t m) s = Ok ((), s1) →
  step (mutex_lock u m) s1 = Ok ((), s2) →
  step (mem_access t ins_addr x true) s2 = Ok ((), s3) →
  ∃ s4 C R W,
    step (mem_access u ins_addr' x true) s3 = Ok ((), s4) ∧
    out s4 = out s3 ++ [WriteRace u C x R W; Found true u x ins_addr'].
Proof.
  intros Hs Hm [R HR] Htu Hrel Hacq Hwr.
  assert (reachable s1) as Hs1 by (by eapply reachable_step).
  assert (reachable s2) as Hs2 by (by eapply reachable_step).
  assert (reachable s3) as Hs3 by (by eapply reachable_step).
  pose proof (reachable_Sound s Hs) as HS.
  pose proof (reachable_Sound s1 Hs1) as HS1.
  pose proof (reachable_Sound s2 Hs2) as HS2.
  pose proof (reachable_Sound s3 Hs3) as HS3.
  pose proof (reachable_ClockInv s Hs) as HC.
  assert (is_Some (write_vc s !! x)) as [W HW].
  { apply elem_of_dom. rewrite (sound_write_dom _ _ _ HS).
    apply elem_of_dom. by eexists. }
  destruct (unlock_lock_closed s s1 s2 t u m Hm Hrel Hacq)
    as (Hmax & HR2 & HW2 & Hout & HCt1 & HCk1 & HCu & HCk2).
  rewrite <-HR2 in HR. rewrite <-HW2 in HW.
  (* the write by [t] *)
  simpl in Hwr.
  destruct (CheckOverflow_write_closed _ _ s2 t ins_addr x R W HS2 HR HW)
    as (msgs & Hwr' & _).
  rewrite Hwr' in Hwr. injection Hwr as <-. clear Hwr'.
  set (W3 := <[t := own_clock s2 t]> W) in *.
  set (s3 := mkState _ _ _ _ _ _ _ _) in *.
  assert (own_clock s2 t = own_clock s t + 1) as Hown.
  { unfold own_clock. rewrite (HCk2 t Htu), HCt1, time_stamp.
    by rewrite decide_True. }
  assert (thread_clock_of s3 u = thread_clock_of s2 u) as HCu3.
  { unfold thread_clock_of at 1, s3. simpl.
    by rewrite lookup_insert_ne. }
  assert (time (thread_clock_of s3 u) t < time W3 t) as Hlt.
  { rewrite HCu3, HCu. unfold W3. rewrite time_stamp, decide_True, Hown by done.
    destruct (Sound_thread_clock_of _ _ s1 u HS1) as [_ Hpos1].
    rewrite time_vc_join_max by (by apply positive_nonneg).
    rewrite (HCk1 u) by done.
    pose proof (thread_clock_of_behind s u t HC ltac:(done)) as Hb.
    fold (own_clock s t). lia. }
  (* the write by [u] *)
  simpl.
  destruct (CheckOverflow_write_closed _ _ s3 u ins_addr' x R W3 HS3)
    as (msgs' & -> & [[[_ Hle] _]|[_ ->]]).
  - done.
  - unfold s3. simpl. by rewrite lookup_insert_eq.
  - specialize (Hle t). rewrite time_stamp, decide_False in Hle by done. lia.
  - do 4 eexists. split; [done|]. done.
Qed.

(** X23. The fork edge.  The thread constructor hands the next id [u] to the
    handle, the new thread starts with everything its parent has seen, and
    the parent's own time moves on by one; the read, write and lock clocks
    and [*out] stay as they are. *)
Theorem Fork_edge (s s' : State) (tid : THREADID) (t : N) :
  reachable s → step (thread_ctor tid t) s = Ok ((), s') →
  let u := ((last_id s + 1) `mod` 2 ^ 32)%N in
  last_id s' = u ∧ thread_to_id s' !! t = Some u ∧
  (∀ k, time (thread_clock_of s tid) k ≤ time (thread_clock_of s' u) k) ∧
  own_clock s' tid = own_clock s tid + 1 ∧
  read_vc s' = read_vc s ∧ write_vc s' = write_vc s ∧ lock_vc s' = lock_vc s ∧
  out s' = out s ∧ cout s' = cout s ++ [ThreadCtorBy tid].
Proof.
  intros HS%reachable_Sound Hstep u. simpl in Hstep.
  unfold ThreadCtorWrapper in Hstep.
  set (s0 := set_cout (cout s ++ [ThreadCtorBy tid]) s) in *.
  rewrite (bind_at _ _ s s0 ()) in Hstep by done.
  rewrite Fork_closed in Hstep. case_decide as Hmax; [|done].
  injection Hstep as <-. simpl.
  change (thread_clock_of s0) with (thread_clock_of s) in *.
  change (thread_vc s0) with (thread_vc s) in *.
  change (last_id s0) with (last_id s) in *. fold u in Hmax |- *.
  destruct (Sound_thread_clock_of _ _ s tid HS) as [[c Hown] Hpos].
  destruct (Sound_thread_clock_of _ _ s u HS) as [_ Hposu].
  split_and!; try done.
  - by rewrite lookup_insert_eq.
  - intros k. unfold thread_clock_of at 2. simpl.
    destruct (decide (u = tid)) as [->|Hne].
    + rewrite !lookup_insert_eq. simpl. rewrite vc_join_idemp, time_stamp.
      case_decide; [subst|]; lia.
    + rewrite lookup_insert_ne, lookup_insert_eq by done. simpl.
      rewrite time_vc_join_max by (by apply positive_nonneg). lia.
  - unfold own_clock at 1, thread_clock_of at 1. simpl.
    rewrite lookup_insert_eq. simpl. rewrite time_stamp, decide_True by done.
    destruct (decide (u = tid)) as [->|Hne].
    + rewrite lookup_insert_eq. simpl. by rewrite vc_join_idemp.
    + rewrite lookup_insert_ne, lookup_insert_eq by done. done.
Qed.

(** X24. The join edge.  A join brings everything the joined thread [j] has
    seen into the joining thread's clock, which loses nothing, and moves
    the joined thread's own time on by one; the id [j] is the one stored
    for the handle, 0 when there is none. *)
Theorem Join_edge (s s' : State) (tid : THREADID) (t : N) :
  reachable s → step (thread_join tid t) s = Ok ((), s') →
  let j := default 0%N (thread_to_id s !! t) in
  (∀ k, time (thread_clock_of s j) k ≤ time (thread_clock_of s' tid) k) ∧
  (∀ k, time (thread_clock_of s tid) k ≤ time (thread_clock_of s' tid) k) ∧
  own_clock s' j = own_clock s j + 1 ∧
  read_vc s' = read_vc s ∧ write_vc s' = write_vc s ∧ lock_vc s' = lock_vc s ∧
  out s' = out s ∧ cout s' = cout s ++ [ThreadJoinBy tid].
Proof.
  intros HS%reachable_Sound Hstep j. simpl in Hstep.
  unfold ThreadJoinWrapper in Hstep.
  set (s0 := set_cout (cout s ++ [ThreadJoinBy tid]) s) in *.
  rewrite (bind_at _ _ s s0 ()) in Hstep by done.
  rewrite Join_closed in Hstep. case_decide as Hmax; [|done].
  injection Hstep as <-. simpl.
  change (thread_to_id s0) with (thread_to_id s) in *.
  change (thread_clock_of s0) with (thread_clock_of s) in *.
  change (own_clock s0) with (own_clock s) in *.
  change (thread_vc s0) with (thread_vc s) in *. fold j in Hmax |- *.
  destruct (Sound_thread_clock_of _ _ s tid HS) as [_ Hpos].
  destruct (Sound_thread_clock_of _ _ s j HS) as [_ Hposj].
  assert (∀ k, time (thread_clock_of s j) k ≤
               time (<[j := own_clock s j + 1]> (thread_clock_of s j)) k) as Hj.
  { intros k. rewrite time_stamp. case_decide; [subst; unfold own_clock|]; lia. }
  split_and!; try done.
  - intros k. unfold thread_clock_of at 2. simpl.
    destruct (decide (j = tid)) as [Heq|Hne].
    + rewrite <-Heq, lookup_insert_eq. simpl. apply Hj.
    + rewrite lookup_insert_ne, lookup_insert_eq by done. simpl.
      rewrite time_vc_join_max by (by apply positive_nonneg). lia.
  - intros k. unfold thread_clock_of at 2. simpl.
    destruct (decide (j = tid)) as [Heq|Hne].
    + rewrite <-Heq, lookup_insert_eq. simpl. apply Hj.
    + rewrite lookup_insert_ne, lookup_insert_eq by done. simpl.
      rewrite time_vc_join_max by (by apply positive_nonneg). lia.
  - unfold own_clock at 1, thread_clock_of at 1. simpl.
    rewrite lookup_insert_eq. simpl. by rewrite time_stamp, decide_True.
Qed.

(** ** Loading the symbols *)

Lemma load_symbol_tables (V Lk : gset string) (s : State) (sym : string * Elf64_Sym) :
  let s' := load_symbol V Lk s sym in
  let object := ELF64_ST_TYPE (st_info sym.2) = STT_OBJECT in
  (∀ a, is_Some (read_vc s' !! a) ↔
        is_Some (read_vc s !! a) ∨ (object ∧ sym.1 ∈ V ∧ st_value sym.2 = a)) ∧
  (∀ a, is_Some (write_vc s' !! a) ↔
        is_Some (write_vc s !! a) ∨ (object ∧ sym.1 ∈ V ∧ st_value sym.2 = a)) ∧
  (∀ a, is_Some (lock_vc s' !! a) ↔
        is_Some (lock_vc s !! a) ∨
        (object ∧ (sym.1 ∉ V) ∧ sym.1 ∈ Lk ∧ st_value sym.2 = a)) ∧
  thread_vc s' = thread_vc s ∧ thread_to_id s' = thread_to_id s ∧
  last_id s' = last_id s ∧ out s' = out s ∧ cout s' = cout s.
Proof.
  unfold load_symbol. simpl.
  destruct (decide (ELF64_ST_TYPE (st_info sym.2) = STT_OBJECT)) as [Ho|Ho];
    [destruct (decide (sym.1 ∈ V)) as [Hv|Hv];
       [|destruct (decide (sym.1 ∈ Lk)) as [Hl|Hl]]|];
    simpl; split_and!; try done; intros a;
    rewrite ?lookup_insert_is_Some;
    try (split; [intros H; by left|intros [H|H]; [done|]; tauto]).
  - split; [intros [<-|[_ H]]; [by right|by left]|].
    intros [H|(_ & _ & <-)]; [|by left].
    destruct (decide (st_value sym.2 = a)); [by left|by right].
  - split; [intros [<-|[_ H]]; [by right|by left]|].
    intros [H|(_ & _ & <-)]; [|by left].
    destruct (decide (st_value sym.2 = a)); [by left|by right].
  - split; [intros [<-|[_ H]]; [by right|by left]|].
    intros [H|(_ & _ & _ & <-)]; [|by left].
    destruct (decide (st_value sym.2 = a)); [by left|by right].
Qed.

Lemma load_symbols_tables (V Lk : gset string) (syms : list (string * Elf64_Sym))
    (s : State) :
  let s' := load_symbols V Lk syms s in
  let object (sym : Elf64_Sym) := ELF64_ST_TYPE (st_info sym) = STT_OBJECT in
  (∀ a, is_Some (read_vc s' !! a) ↔
        is_Some (read_vc s !! a) ∨
        ∃ name sym, (name, sym) ∈ syms ∧ object sym ∧ name ∈ V ∧ st_value sym = a) ∧
  (∀ a, is_Some (write_vc s' !! a) ↔
        is_Some (write_vc s !! a) ∨
        ∃ name sym, (name, sym) ∈ syms ∧ object sym ∧ name ∈ V ∧ st_value sym = a) ∧
  (∀ a, is_Some (lock_vc s' !! a) ↔
        is_Some (lock_vc s !! a) ∨
        ∃ name sym, (name, sym) ∈ syms ∧ object sym ∧ (name ∉ V) ∧ name ∈ Lk ∧
                    st_value sym = a) ∧
  thread_vc s' = thread_vc s ∧ thread_to_id s' = thread_to_id s ∧
  last_id s' = last_id s ∧ out s' = out s ∧ cout s' = cout s.
Proof.
  revert s. induction syms as [|[name sym] syms IH]; intros s; simpl.
  - split_and!; try done; intros a;
      (split; [intros H; by left|intros [H|(? & ? & H & _)]; [done|]]);
      by apply elem_of_nil in H.
  - destruct (IH (load_symbol V Lk s (name, sym)))
      as (HR & HW & HL & HT & HI & HN & HO & HC).
    destruct (load_symbol_tables V Lk s (name, sym))
      as (HR1 & HW1 & HL1 & HT1 & HI1 & HN1 & HO1 & HC1).
    simpl in *.
    split_and!; try congruence; intros a.
    + rewrite HR, HR1. split.
      * intros [[H|H]|(n & y & H & H')]; [by left| |].
        -- right. exists name, sym. split; [by left|done].
        -- right. exists n, y. split; [by right|done].
      * intros [H|(n & y & [[= -> ->]|H]%elem_of_cons & H')].
        -- by left; left.
        -- by left; right.
        -- right. by exists n, y.
    + rewrite HW, HW1. split.
      * intros [[H|H]|(n & y & H & H')]; [by left| |].
        -- right. exists name, sym. split; [by left|done].
        -- right. exists n, y. split; [by right|done].
      * intros [H|(n & y & [[= -> ->]|H]%elem_of_cons & H')].
        -- by left; left.
        -- by left; right.
        -- right. by exists n, y.
    + rewrite HL, HL1. split.
      * intros [[H|H]|(n & y & H & H')]; [by left| |].
        -- right. exists name, sym. split; [by left|done].
        -- right. exists n, y. split; [by right|done].
      * intros [H|(n & y & [[= -> ->]|H]%elem_of_cons & H')].
        -- by left; left.
        -- by left; right.
        -- right. by exists n, y.
Qed.

Lemma load_symbols_empty (V Lk : gset string) (syms : list (string * Elf64_Sym))
    (s : State) :
  (∀ a vc, read_vc s !! a = Some vc → vc = ∅) →
  (∀ a vc, write_vc s !! a = Some vc → vc = ∅) →
  (∀ a vc, lock_vc s !! a = Some vc → vc = ∅) →
  let s' := load_symbols V Lk syms s in
  (∀ a vc, read_vc s' !! a = Some vc → vc = ∅) ∧
  (∀ a vc, write_vc s' !! a = Some vc → vc = ∅) ∧
  (∀ a vc, lock_vc s' !! a = Some vc → vc = ∅).
Proof.
  revert s. induction syms as [|sym syms IH]; intros s HR HW HL; [done|].
  simpl. apply IH; unfold load_symbol; repeat case_decide; simpl; try done;
    intros a vc; rewrite lookup_insert_Some;
    (intros [[_ <-]|[_ Hin]]; [done|]); eauto.
Qed.

(** X25. What the loop of [LoadSymbolAddrFromTargetBinary] leaves when it starts
    from the empty tables.  The read and the write table have a key for
    exactly the values of the object symbols named in [watch_vars]; the lock
    table for those of the object symbols named in [watch_locks] and not in
    [watch_vars]; every clock in them is empty; no thread has a clock and
    nothing is printed. *)
Theorem load_symbols_watches (watch_vars watch_locks : gset string)
    (syms : list (string * Elf64_Sym)) :
  let s := load_symbols watch_vars watch_locks syms initial in
  let object (sym : Elf64_Sym) := ELF64_ST_TYPE (st_info sym) = STT_OBJECT in
  (∀ a, is_Some (read_vc s !! a) ↔
        ∃ name sym, (name, sym) ∈ syms ∧ object sym ∧ name ∈ watch_vars ∧
                    st_value sym = a) ∧
  (∀ a, is_Some (write_vc s !! a) ↔ is_Some (read_vc s !! a)) ∧
  (∀ a, is_Some (lock_vc s !! a) ↔
        ∃ name sym, (name, sym) ∈ syms ∧ object sym ∧ (name ∉ watch_vars) ∧
                    name ∈ watch_locks ∧ st_value sym = a) ∧
  (∀ a vc, read_vc s !! a = Some vc ∨ write_vc s !! a = Some vc ∨
           lock_vc s !! a = Some vc → vc = ∅) ∧
  thread_vc s = ∅ ∧ thread_to_id s = ∅ ∧ last_id s = 0%N ∧ out s = [] ∧ cout s = [].
Proof.
  intros s object.
  destruct (load_symbols_tables watch_vars watch_locks syms initial)
    as (HR & HW & HL & HT & HI & HN & HO & HC).
  assert (∀ (a : N) (vc : VC), (∅ : gmap N VC) !! a = Some vc → vc = ∅) as He
    by (intros a vc; by rewrite lookup_empty).
  destruct (load_symbols_empty watch_vars watch_locks syms initial He He He)
    as (HRe & HWe & HLe).
  fold s in HR, HW, HL, HT, HI, HN, HO, HC, HRe, HWe, HLe.
  assert (∀ a : N, ¬ is_Some ((∅ : gmap N VC) !! a)) as Hno.
  { intros a [vc Hvc]. by rewrite lookup_empty in Hvc. }
  split_and!; try done.
  - intros a. rewrite HR. split; [intros [H|H]; [by apply Hno in H|done]|by right].
  - intros a. rewrite HW, HR. split; intros [H|H]; try (by apply Hno in H); by right.
  - intros a. rewrite HL. split; [intros [H|H]; [by apply Hno in H|done]|by right].
  - intros a vc [H|[H|H]]; eauto.
Qed.

(** ** Finding the target binary *)

Lemma find_target_Some (argv : list string) (n : nat) (p : string) :
  find_target argv n = Some p ↔
  ∃ i, (0 < i ≤ n)%nat ∧ argv !! i = Some "--" ∧ argv !! (i + 1)%nat = Some p ∧
       ∀ j, (i < j ≤ n)%nat → argv !! j ≠ Some "--".
Proof.
  induction n as [|n IH]; simpl.
  - split; [done|]. intros (i & Hi & _). lia.
  - case_decide as Hn.
    + split.
      * intros Hp. exists (S n). split; [lia|]. split; [done|].
        split; [by rewrite Nat.add_1_r in Hp |- *|]. intros j Hj. lia.
      * intros (i & Hi & Hdash & Hp & Hlast).
        destruct (decide (i = S n)) as [->|Hne]; [done|].
        destruct (Hlast (S n)); [lia|done].
    + rewrite IH. split.
      * intros (i & Hi & Hdash & Hp & Hlast). exists i.
        split; [lia|]. split; [done|]. split; [done|]. intros j Hj.
        destruct (decide (j = S n)) as [->|Hne]; [done|]. apply Hlast. lia.
      * intros (i & Hi & Hdash & Hp & Hlast).
        destruct (decide (i = S n)) as [->|Hne]; [done|].
        exists i. split; [lia|]. split; [done|]. split; [done|].
        intros j Hj. apply Hlast. lia.
Qed.

(** X26. The target binary is the argument after the last ["--"] that is
    neither the first nor the last argument; without such a ["--"], or when
    [GetSymbols] fails, the function returns [true] and leaves the tables
    as they are; otherwise it returns [false] with the symbols loaded. *)
Theorem LoadSymbolAddrFromTargetBinary_target
    (GetSymbols : string → option (list (string * Elf64_Sym)))
    (argv : list string) (watch_vars watch_locks : gset string) (s : State) :
  let r := LoadSymbolAddrFromTargetBinary GetSymbols argv watch_vars watch_locks s in
  (∀ p, target_bin_path argv = Some p ↔
        ∃ i, (0 < i ≤ length argv - 2)%nat ∧
             argv !! i = Some "--" ∧ argv !! (i + 1)%nat = Some p ∧
             ∀ j, (i < j ≤ length argv - 2)%nat → argv !! j ≠ Some "--") ∧
  (r.1 = true → r.2 = s) ∧
  (r.1 = false ↔ ∃ p, target_bin_path argv = Some p ∧ is_Some (GetSymbols p)) ∧
  (∀ p syms, target_bin_path argv = Some p → GetSymbols p = Some syms →
             r = (false, load_symbols watch_vars watch_locks syms s)).
Proof.
  intros r. subst r. unfold LoadSymbolAddrFromTargetBinary. split_and!.
  - intros p. apply find_target_Some.
  - destruct (target_bin_path argv) as [p|]; [|done].
    destruct (GetSymbols p); [|done]. done.
  - destruct (target_bin_path argv) as [p|]; simpl.
    + destruct (GetSymbols p) as [syms|] eqn:Hp; simpl.
      * split; [|done]. intros _. exists p. split; [done|]. rewrite Hp. by eexists.
      * split; [done|]. intros (p' & [= <-] & [syms Hs]). congruence.
    + split; [done|]. by intros (p' & ? & _).
  - intros p syms -> ->. done.
Qed.

(** ** The properties at the loaded tool *)

Lemma after_lock_by_2_reachable : reachable after_lock_by_2.
Proof.
  apply (reachable_step (mutex_lock 2 200) after_unlock_by_1 after_lock_by_2).
  - apply after_unlock_by_1_reachable.
  - vm_compute. reflexivity.
Qed.

Lemma after_fork_by_0_reachable : reachable after_fork_by_0.
Proof.
  apply (reachable_step (thread_ctor 0 77) loaded after_fork_by_0).
  - apply loaded_reachable.
  - vm_compute. reflexivity.
Qed.

Lemma singleton_nonneg (k : N) (c : Z) :
  0 ≤ c → ∀ j v, ({[k := c]} : VC) !! j = Some v → 0 ≤ v.
Proof. intros Hc j v [_ <-]%lookup_singleton_Some. done. Qed.

Lemma vc_join_is_max_witness :
  (∀ k v, ({[0%N := 1]} : VC) !! k = Some v → 0 ≤ v) ∧
  dom (vc_join {[0%N := 1]} {[1%N := 2]}) = dom ({[0%N := 1]} : VC) ∪ dom ({[1%N := 2]} : VC) ∧
  ∀ t, time (vc_join {[0%N := 1]} {[1%N := 2]}) t
       = Z.max (time {[0%N := 1]} t) (time {[1%N := 2]} t).
Proof.
  split; [apply singleton_nonneg; lia|].
  destruct (vc_join_is_max {[0%N := 1]} {[1%N := 2]}) as [Hdom Hmax].
  split; [exact Hdom|]. apply Hmax. apply singleton_nonneg. lia.
Defined.

Lemma vc_le_decides_witness :
  positive {[0%N := 1]} ∧ (∀ k w, ({[0%N := 2]} : VC) !! k = Some w → 0 ≤ w) ∧
  ∃ r, vc_le {[0%N := 1]} {[0%N := 2]} = Ok r ∧
       vc_gt {[0%N := 1]} {[0%N := 2]} = Ok (negb r) ∧
       (r = true ↔ ∀ t, time {[0%N := 1]} t ≤ time {[0%N := 2]} t).
Proof.
  split; [apply positive_singleton|]. split; [apply singleton_nonneg; lia|].
  apply (vc_le_decides {[0%N := 1]} {[0%N := 2]}).
  - apply positive_singleton.
  - apply singleton_nonneg. lia.
Defined.

Lemma watch_sets_fixed_witness :
  reachable loaded ∧
  step (mutex_unlock 1 200) loaded = Ok ((), after_unlock_by_1) ∧
  dom (write_vc loaded) = dom (read_vc loaded) ∧
  dom (read_vc after_unlock_by_1) = dom (read_vc loaded) ∧
  dom (write_vc after_unlock_by_1) = dom (write_vc loaded) ∧
  dom (lock_vc after_unlock_by_1) = dom (lock_vc loaded).
Proof.
  split; [apply loaded_reachable|]. split; [vm_compute; reflexivity|].
  apply (watch_sets_fixed (mutex_unlock 1 200) loaded after_unlock_by_1).
  - apply loaded_reachable.
  - vm_compute. reflexivity.
Defined.

Lemma clock_entries_positive_witness :
  reachable after_lock_by_2 ∧
  (∀ vc,
     (∃ t, thread_vc after_lock_by_2 !! t = Some vc) ∨
     (∃ m, lock_vc after_lock_by_2 !! m = Some vc) ∨
     (∃ x, read_vc after_lock_by_2 !! x = Some vc) ∨
     (∃ x, write_vc after_lock_by_2 !! x = Some vc) →
     ∀ k v, vc !! k = Some v → 1 ≤ v) ∧
  (∀ t vc, thread_vc after_lock_by_2 !! t = Some vc → is_Some (vc !! t)).
Proof.
  split; [apply after_lock_by_2_reachable|].
  apply (clock_entries_positive after_lock_by_2).
  apply after_lock_by_2_reachable.
Defined.

Lemma events_stop_only_on_overflow_witness :
  reachable after_lock_by_2 ∧
  (∀ tid ins_addr mem_addr is_write,
     ∃ s', step (mem_access tid ins_addr mem_addr is_write) after_lock_by_2
           = Ok ((), s')) ∧
  (∀ tid m, ∃ s', step (mutex_lock tid m) after_lock_by_2 = Ok ((), s')) ∧
  (∀ e f, step e after_lock_by_2 = Err f → f = SignedOverflow).
Proof.
  split; [apply after_lock_by_2_reachable|].
  apply (events_stop_only_on_overflow after_lock_by_2).
  apply after_lock_by_2_reachable.
Defined.

Lemma CheckOverflow_reports_witness :
  reachable after_lock_by_2 ∧
  read_vc after_lock_by_2 !! 100%N = Some ∅ ∧
  write_vc after_lock_by_2 !! 100%N = Some ∅ ∧
  ∃ s' msgs,
    CheckOverflow 1 4096 100 true after_lock_by_2 = Ok ((), s') ∧
    thread_clock_of s' 1 = thread_clock_of after_lock_by_2 1 ∧
    (∀ u, u ≠ 1%N → thread_vc s' !! u = thread_vc after_lock_by_2 !! u) ∧
    lock_vc s' = lock_vc after_lock_by_2 ∧
    read_vc s' = <[100%N := ∅]> (read_vc after_lock_by_2) ∧
    write_vc s' = <[100%N := <[1%N := own_clock after_lock_by_2 1]> ∅]>
                    (write_vc after_lock_by_2) ∧
    out s' = out after_lock_by_2 ++ msgs ++ [Found true 1 100 4096] ∧
    (((∀ t, time ∅ t ≤ time (thread_clock_of after_lock_by_2 1) t) ∧
      (∀ t, time (<[1%N := own_clock after_lock_by_2 1]> ∅) t
            ≤ time (thread_clock_of after_lock_by_2 1) t)) ∧ msgs = [] ∨
     ¬ ((∀ t, time ∅ t ≤ time (thread_clock_of after_lock_by_2 1) t) ∧
        (∀ t, time (<[1%N := own_clock after_lock_by_2 1]> ∅) t
              ≤ time (thread_clock_of after_lock_by_2 1) t)) ∧
       msgs = [WriteRace 1 (thread_clock_of after_lock_by_2 1) 100 ∅
                 (<[1%N := own_clock after_lock_by_2 1]> ∅)]).
Proof.
  split; [apply after_lock_by_2_reachable|].
  split; [reflexivity|]. split; [reflexivity|].
  apply (CheckOverflow_reports after_lock_by_2 1 4096 100 true ∅ ∅).
  - apply after_lock_by_2_reachable.
  - reflexivity.
  - reflexivity.
Defined.

Lemma pintool_lock_hand_over_witness :
  reachable loaded ∧ is_Some (lock_vc loaded !! 200%N) ∧
  read_vc loaded !! 100%N = Some ∅ ∧ write_vc loaded !! 100%N = Some ∅ ∧
  (∀ k, time ∅ k ≤ time (thread_clock_of loaded 1) k) ∧
  step (mutex_unlock 1 200) loaded = Ok ((), after_unlock_by_1) ∧
  step (mutex_lock 2 200) after_unlock_by_1 = Ok ((), after_lock_by_2) ∧
  ∃ s3, step (mem_access 2 4096 100 true) after_lock_by_2 = Ok ((), s3) ∧
        out s3 = out loaded ++ [Found true 2 100 4096].
Proof.
  assert (∀ k, time ∅ k ≤ time (thread_clock_of loaded 1) k) as Hle.
  { intros k. rewrite time_empty.
    change (thread_clock_of loaded 1) with ({[1%N := 1]} : VC).
    rewrite time_singleton. case_decide; lia. }
  split; [apply loaded_reachable|]. split; [by eexists|].
  split; [reflexivity|]. split; [reflexivity|]. split; [exact Hle|].
  split; [vm_compute; reflexivity|]. split; [vm_compute; reflexivity|].
  apply (pintool_lock_hand_over loaded after_unlock_by_1 after_lock_by_2
           1 2 200 4096 100 true ∅ ∅).
  - apply loaded_reachable.
  - by eexists.
  - reflexivity.
  - reflexivity.
  - exact Hle.
  - exact Hle.
  - vm_compute. reflexivity.
  - vm_compute. reflexivity.
Defined.

Lemma write_after_unlock_reported_witness :
  reachable loaded ∧ is_Some (lock_vc loaded !! 200%N) ∧
  is_Some (read_vc loaded !! 100%N) ∧ 1%N ≠ 2%N ∧
  step (mutex_unlock 1 200) loaded = Ok ((), after_unlock_by_1) ∧
  step (mutex_lock 2 200) after_unlock_by_1 = Ok ((), after_lock_by_2) ∧
  step (mem_access 1 4096 100 true) after_lock_by_2 = Ok ((), after_write_by_1) ∧
  ∃ s4 C R W,
    step (mem_access 2 4100 100 true) after_write_by_1 = Ok ((), s4) ∧
    out s4 = out after_write_by_1 ++ [WriteRace 2 C 100 R W; Found true 2 100 4100].
Proof.
  split; [apply loaded_reachable|]. split; [by eexists|]. split; [by eexists|].
  split; [done|].
  split; [vm_compute; reflexivity|]. split; [vm_compute; reflexivity|].
  split; [vm_compute; reflexivity|].
  apply (write_after_unlock_reported loaded after_unlock_by_1 after_lock_by_2
           after_write_by_1 1 2 200 4096 4100 100).
  - apply loaded_reachable.
  - by eexists.
  - by eexists.
  - done.
  - vm_compute. reflexivity.
  - vm_compute. reflexivity.
  - vm_compute. reflexivity.
Defined.

Lemma Fork_edge_witness :
  reachable loaded ∧
  step (thread_ctor 0 77) loaded = Ok ((), after_fork_by_0) ∧
  last_id after_fork_by_0 = ((last_id loaded + 1) `mod` 2 ^ 32)%N ∧
  thread_to_id after_fork_by_0 !! 77%N = Some ((last_id loaded + 1) `mod` 2 ^ 32)%N ∧
  (∀ k, time (thread_clock_of loaded 0) k
        ≤ time (thread_clock_of after_fork_by_0
                  ((last_id loaded + 1) `mod` 2 ^ 32)%N) k) ∧
  own_clock after_fork_by_0 0 = own_clock loaded 0 + 1 ∧
  read_vc after_fork_by_0 = read_vc loaded ∧
  write_vc after_fork_by_0 = write_vc loaded ∧
  lock_vc after_fork_by_0 = lock_vc loaded ∧
  out after_fork_by_0 = out loaded ∧
  cout after_fork_by_0 = cout loaded ++ [ThreadCtorBy 0].
Proof.
  split; [apply loaded_reachable|]. split; [vm_compute; reflexivity|].
  apply (Fork_edge loaded after_fork_by_0 0 77).
  - apply loaded_reachable.
  - vm_compute. reflexivity.
Defined.

Lemma Join_edge_witness :
  reachable after_fork_by_0 ∧
  step (thread_join 0 77) after_fork_by_0 = Ok ((), after_join_by_0) ∧
  (∀ k, time (thread_clock_of after_fork_by_0
                (default 0%N (thread_to_id after_fork_by_0 !! 77%N))) k
        ≤ time (thread_clock_of after_join_by_0 0) k) ∧
  (∀ k, time (thread_clock_of after_fork_by_0 0) k
        ≤ time (thread_clock_of after_join_by_0 0) k) ∧
  own_clock after_join_by_0 (default 0%N (thread_to_id after_fork_by_0 !! 77%N))
    = own_clock after_fork_by_0
        (default 0%N (thread_to_id after_fork_by_0 !! 77%N)) + 1 ∧
  read_vc after_join_by_0 = read_vc after_fork_by_0 ∧
  write_vc after_join_by_0 = write_vc after_fork_by_0 ∧
  lock_vc after_join_by_0 = lock_vc after_fork_by_0 ∧
  out after_join_by_0 = out after_fork_by_0 ∧
  cout after_join_by_0 = cout after_fork_by_0 ++ [ThreadJoinBy 0].
Proof.
  split; [apply after_fork_by_0_reachable|]. split; [vm_compute; reflexivity|].
  apply (Join_edge after_fork_by_0 after_join_by_0 0 77).
  - apply after_fork_by_0_reachable.
  - vm_compute. reflexivity.
Defined.

End PintoolMore.

(** * The heap-overflow detector *)

Module OverflowProofs.
Import Overflow.

Lemma out_of_bound_false (objs : list HeapObject) (mem_addr : ADDRINT) :
  out_of_bound objs mem_addr = false ↔
  ∃ o, o ∈ objs ∧ (addr o ≤ mem_addr)%N ∧
       (mem_addr < (addr o + size o) `mod` 2 ^ 64)%N.
Proof.
  induction objs as [|o objs IH]; simpl.
  - split; [done|]. intros (o & Ho & _). by apply elem_of_nil in Ho.
  - destruct (inside o mem_addr) eqn:Hin.
    + split; [|done]. intros _. exists o. split; [by left|].
      unfold inside in Hin. apply andb_true_iff in Hin as [H1 H2].
      by apply bool_decide_eq_true in H1, H2.
    + rewrite IH. split.
      * intros (o' & Ho' & H'). exists o'. split; [by right|done].
      * intros (o' & [->|Ho']%elem_of_cons & H1 & H2); [|by exists o'].
        unfold inside in Hin.
        by rewrite !bool_decide_eq_true_2 in Hin.
Qed.

Lemma out_of_bound_app (objs more : list HeapObject) (mem_addr : ADDRINT) :
  out_of_bound objs mem_addr = false →
  out_of_bound (objs ++ more) mem_addr = false.
Proof.
  rewrite !out_of_bound_false. intros (o & Ho & H). exists o.
  split; [|done]. apply elem_of_app. by left.
Qed.

Lemma run_heap_objs (es : list Event) (s : State) :
  ∃ more, heap_objs (run es s) = heap_objs s ++ more ∧
          (main_started s = true → more = mallocs es ∧ main_started (run es s) = true).
Proof.
  revert s. induction es as [|e es IH]; intros s.
  - exists []. split; [by rewrite app_nil_r|done].
  - destruct (IH (step s e)) as (more & Hmore & Hstarted).
    change (run (e :: es) s) with (run es (step s e)).
    destruct e as [ins a w| |ret n]; simpl in *.
    + unfold CheckOverflow in *. destruct (out_of_bound (heap_objs s) a);
        exists more; by split.
    + exists more. split; [done|]. intros Hs. by apply Hstarted.
    + unfold JitMalloc in *. destruct (main_started s) eqn:Hs; simpl in *.
      * exists (mkHeapObject ret n :: more). rewrite Hmore, <-app_assoc.
        split; [done|]. intros _. destruct (Hstarted eq_refl) as [-> ?]. done.
      * exists more. by split.
Qed.

(** X27. [CheckOverflow] prints its line exactly when the address is inside no
    recorded object, an object reaching from [addr] up to [addr + size]
    taken modulo 2^64; it changes nothing else. *)
Theorem heap_access_reported_iff (ins_addr mem_addr : ADDRINT) (is_write : bool)
    (s : State) :
  let s' := CheckOverflow ins_addr mem_addr is_write s in
  let recorded := ∃ o, o ∈ heap_objs s ∧ (addr o ≤ mem_addr)%N ∧
                       (mem_addr < (addr o + size o) `mod` 2 ^ 64)%N in
  heap_objs s' = heap_objs s ∧ main_started s' = main_started s ∧
  (recorded ∧ out s' = out s ∨
   ¬ recorded ∧ out s' = out s ++ [FoundOutOfBounds is_write mem_addr ins_addr]).
Proof.
  simpl. unfold CheckOverflow.
  destruct (out_of_bound (heap_objs s) mem_addr) eqn:Hout; simpl.
  - split_and!; [done..|]. right. split; [|done].
    intros Hrec%out_of_bound_false. congruence.
  - split_and!; [done..|]. left. split; [|done]. by apply out_of_bound_false.
Qed.

(** X28. Nothing is recorded before [main] starts: as long as [OnMainStarted]
    has not run, no [malloc] adds a heap object, so a run that starts with
    no object has none and prints a line for every access it checks. *)
Theorem malloc_before_main_not_recorded (es : list Event) (s : State) :
  main_started s = false → main_start ∉ es →
  heap_objs (run es s) = heap_objs s ∧ main_started (run es s) = false ∧
  (heap_objs s = [] →
   ∀ ins_addr mem_addr is_write,
     out (CheckOverflow ins_addr mem_addr is_write (run es s))
     = out (run es s) ++ [FoundOutOfBounds is_write mem_addr ins_addr]).
Proof.
  intros Hs Hes.
  assert (heap_objs (run es s) = heap_objs s ∧ main_started (run es s) = false)
    as [Hobjs Hstarted].
  { revert s Hs. induction es as [|e es IH]; intros s Hs; [done|].
    apply not_elem_of_cons in Hes as [He Hes].
    change (run (e :: es) s) with (run es (step s e)).
    assert (main_started (step s e) = false ∧ heap_objs (step s e) = heap_objs s)
      as [Hs1 Ho1].
    { destruct e as [ins a w| |ret n]; simpl.
      - unfold CheckOverflow. by destruct (out_of_bound (heap_objs s) a).
      - done.
      - unfold JitMalloc. by rewrite Hs. }
    destruct (IH Hes (step s e) Hs1) as [-> ->]. done. }
  split_and!; [done..|]. intros Hnil ins a w.
  unfold CheckOverflow. by rewrite Hobjs, Hnil.
Qed.

(** X29. Once [main] has started, the objects recorded after a run are those
    recorded before followed by what the run's [malloc]s returned, in
    order; and no access to an address inside a recorded object whose end
    does not pass 2^64 prints a line, at any later point of the run. *)
Theorem recorded_object_never_reported (es es' : list Event) (s : State)
    (ret : ADDRINT) (size : N) (ins_addr mem_addr : ADDRINT) (is_write : bool) :
  main_started s = true →
  (ret + size < 2 ^ 64)%N → (ret ≤ mem_addr < ret + size)%N →
  let s1 := run (es ++ [malloc ret size] ++ es') s in
  heap_objs s1 = heap_objs s ++ mallocs es ++ [mkHeapObject ret size] ++ mallocs es' ∧
  CheckOverflow ins_addr mem_addr is_write s1 = s1.
Proof.
  intros Hs Hsum Ha s1.
  assert (heap_objs s1 = heap_objs s ++ mallocs (es ++ [malloc ret size] ++ es'))
    as Hobjs.
  { destruct (run_heap_objs (es ++ [malloc ret size] ++ es') s) as (more & Hm & Hst).
    destruct (Hst Hs) as [-> _]. done. }
  unfold mallocs in Hobjs. rewrite !omap_app in Hobjs. simpl in Hobjs.
  split; [done|]. unfold CheckOverflow.
  assert (out_of_bound (heap_objs s1) mem_addr = false) as ->; [|done].
  apply out_of_bound_false. exists (mkHeapObject ret size). split.
  - rewrite Hobjs. apply elem_of_app. right. apply elem_of_app. right. by left.
  - simpl. rewrite N.mod_small by done. lia.
Qed.

(** ** The properties at a small run *)

Lemma malloc_before_main_not_recorded_witness :
  main_started initial = false ∧
  (main_start ∉ [malloc 4096 16; mem_access 1 4100 true]) ∧
  heap_objs (run [malloc 4096 16; mem_access 1 4100 true] initial)
    = heap_objs initial ∧
  main_started (run [malloc 4096 16; mem_access 1 4100 true] initial) = false ∧
  (heap_objs initial = [] →
   ∀ ins_addr mem_addr is_write,
     out (CheckOverflow ins_addr mem_addr is_write
            (run [malloc 4096 16; mem_access 1 4100 true] initial))
     = out (run [malloc 4096 16; mem_access 1 4100 true] initial)
         ++ [FoundOutOfBounds is_write mem_addr ins_addr]).
Proof.
  assert (main_start ∉ [malloc 4096 16; mem_access 1 4100 true]) as Hes.
  { intros H. apply elem_of_cons in H as [H|H]; [discriminate|].
    apply elem_of_cons in H as [H|H]; [discriminate|].
    by apply elem_of_nil in H. }
  split; [reflexivity|]. split; [exact Hes|].
  apply (malloc_before_main_not_recorded
           [malloc 4096 16; mem_access 1 4100 true] initial).
  - reflexivity.
  - exact Hes.
Defined.

Lemma recorded_object_never_reported_witness :
  main_started (OnMainStarted initial) = true ∧
  (8192 + 32 < 2 ^ 64)%N ∧ (8192 ≤ 8200 < 8192 + 32)%N ∧
  heap_objs (run ([malloc 4096 16] ++ [malloc 8192 32] ++ [mem_access 1 5000 false])
               (OnMainStarted initial))
    = heap_objs (OnMainStarted initial) ++ mallocs [malloc 4096 16]
        ++ [mkHeapObject 8192 32] ++ mallocs [mem_access 1 5000 false] ∧
  CheckOverflow 2 8200 true
    (run ([malloc 4096 16] ++ [malloc 8192 32] ++ [mem_access 1 5000 false])
       (OnMainStarted initial))
  = run ([malloc 4096 16] ++ [malloc 8192 32] ++ [mem_access 1 5000 false])
      (OnMainStarted initial).
Proof.
  split; [reflexivity|]. split; [by vm_compute|]. split; [by vm_compute|].
  apply (recorded_object_never_reported [malloc 4096 16] [mem_access 1 5000 false]
           (OnMainStarted initial) 8192 32 2 8200 true).
  - reflexivity.
  - by vm_compute.
  - by vm_compute.
Defined.

End OverflowProofs.
